(** * vespalib/eval/function.cpp: the ranking-expression parser

    A shallow embedding of the recursive-descent parser of
    [vespalib::eval::Function] (function.cpp): the parameter resolvers, the
    resolve contexts with their let-binding stack, the parse context with its
    cursor, failure latch and two stacks, every sub-parser, the four [parse]
    entry points and [unwrap].

    Conventions of the model
    - bytes are [ascii], byte strings are [string]; [vespalib::string] and
      [vespalib::stringref] are both [string];
    - pointers into the expression are offsets from [_begin]; the byte the
      buffer holds at [_end], which [next] loads when it steps onto [_end],
      is [end_byte]: a [stringref(ptr, len)] need not be followed by NUL;
    - [assert] is checked: a violated assertion ends the run with [Abort];
    - the mutual recursion of [parse_expression] and [parse_value] is driven
      by a fuel argument; [OutOfFuel] is shown unreachable for the fuel the
      entry points supply ([parse_function_terminates]). *)

From Stdlib Require Import ZArith Ascii String List Lia Bool.
From stdpp Require Import gmap strings list.

Local Open Scope string_scope.
Local Open Scope nat_scope.

Set Warnings "-register-all".

(** ** Bytes and byte strings *)

Definition NUL : ascii := "000"%char.

Definition code (c : ascii) : nat := nat_of_ascii c.

(** [c >= lo && c <= hi] on plain [char]; both bounds are below 128 at every
    use, so signedness of [char] does not matter. *)
Definition in_range (lo hi c : ascii) : bool :=
  (code lo <=? code c) && (code c <=? code hi).

(** <cctype> in the "C" locale. *)
Definition isspace (c : ascii) : bool :=
  in_range "009" "013" c || Ascii.eqb c " ".
Definition isdigit (c : ascii) : bool := in_range "0" "9" c.
Definition isalpha (c : ascii) : bool :=
  in_range "a" "z" c || in_range "A" "Z" c.

Definition is_NUL (c : ascii) : bool := Ascii.eqb c NUL.

Definition empty (s : string) : bool :=
  match s with EmptyString => true | String _ _ => false end.

(** [str.push_back(c)] *)
Definition push_back (s : string) (c : ascii) : string := s +:+ String c "".

(** [s[i]] for [i] below the length. The code reads no string at other
    indices; the model gives NUL there. *)
Definition byte_at (s : string) (i : nat) : ascii :=
  match String.get i s with Some c => c | None => NUL end.

(** [vespalib::string(p, n)] for the first [n] bytes and the rest. *)
Fixpoint str_take (n : nat) (s : string) : string :=
  match n, s with
  | S n', String c s' => String c (str_take n' s')
  | _, _ => ""
  end.
Fixpoint str_drop (n : nat) (s : string) : string :=
  match n, s with
  | S n', String _ s' => str_drop n' s'
  | _, _ => s
  end.

(** What [printf("%s", s.c_str())] prints: the bytes before the first NUL. *)
Fixpoint c_str (s : string) : string :=
  match s with
  | EmptyString => ""
  | String c s' => if is_NUL c then "" else String c (c_str s')
  end.

Fixpoint has_NUL (s : string) : bool :=
  match s with
  | EmptyString => false
  | String c s' => is_NUL c || has_NUL s'
  end.

(** Decimal rendering for [%zu]. *)
Definition digit_char (d : nat) : ascii := ascii_of_nat (code "0" + d).
Fixpoint zu_digits (fuel n : nat) (acc : string) : string :=
  match fuel with
  | 0 => acc
  | S fuel' =>
      let acc' := String (digit_char (n mod 10)) acc in
      if n / 10 =? 0 then acc' else zu_digits fuel' (n / 10) acc'
  end.
Definition zu (n : nat) : string := zu_digits (S n) n "".

(** [int(x)] for a 64-bit [size_t] or any wider value: two's complement
    truncation to 32 bits. *)
Definition to_int (z : Z) : Z := ((z + 2 ^ 31) `mod` 2 ^ 32 - 2 ^ 31)%Z.

(** ** Runs that may abort or run out of fuel *)

Inductive outcome (A : Type) : Type :=
| Done (a : A)
| Abort (assertion : string)
| OutOfFuel.
Arguments Done {A} a.
Arguments Abort {A} assertion.
Arguments OutOfFuel {A}.

#[global] Instance outcome_ret : MRet outcome := @Done.
#[global] Instance outcome_bind : MBind outcome := λ A B f r,
  match r with
  | Done a => f a
  | Abort s => Abort s
  | OutOfFuel => OutOfFuel
  end.

(** [assert(b)] *)
Definition assert (b : bool) (what : string) : outcome unit :=
  if b then Done tt else Abort what.

(** A bounded [while]: [n] bounds the number of iterations. Every use below
    comes with a lemma showing that the loop condition is false at exit, so
    the bound never cuts a loop short. *)
Fixpoint while {S : Type} (n : nat) (cond : S → bool) (body : S → S) (s : S) : S :=
  match n with
  | 0 => s
  | S n' => if cond s then while n' cond body (body s) else s
  end.

(** ** Collaborators declared outside function.cpp

    [strtod] is libc; the operator and call repositories and the literals'
    [double] type are declared in headers that function.cpp includes. They
    are the parameters of the development, and so is the one byte of the
    caller's memory that the parser reads outside the expression. *)
Class Externals := {
  (** IEEE-754 binary64 *)
  double : Type;
  (** the literals [0.0] and [0.5] *)
  double_0_0 : double;
  double_0_5 : double;
  (** [strtod(s, &end)]: the value and [end - s] *)
  strtod : string → double * nat;
  (** a fresh operator node, not yet bound to its operands *)
  Operator_UP : Type;
  (** [nodes::OperatorRepo::instance().max_size()] *)
  OperatorRepo_max_size : nat;
  (** [nodes::OperatorRepo::instance().create(str)]: the operator spelled by
      the longest matching prefix of [str] and the length [str] is cut down
      to, or nothing *)
  OperatorRepo_create : string → option (Operator_UP * nat);
  (** [top->do_before(incoming)] *)
  do_before : Operator_UP → Operator_UP → bool;
  (** [nodes::CallRepo::instance().create(name)]: [num_params()] of the
      fresh call node, or nothing *)
  CallRepo_create : string → option nat;
  (** the byte stored at [_end], just behind the expression, in the buffer
      of the caller: NUL for a C string, any byte for a [stringref] into a
      longer buffer *)
  end_byte : ascii;
}.

(** Modelled from the spec: [nodes::Symbol::UNDEF] is declared in
    basic_nodes.h; the spec only calls it UNDEF. It is [INT_MAX] here, a value
    no let reference (negative) and no realistic parameter index takes. *)
Definition Symbol_UNDEF : Z := 2147483647%Z.

(** ** AST nodes (namespace [nodes])

    Only the constructors function.cpp calls. [parse_tensor_map] and
    [parse_tensor_join] construct no node, so there is none for them. *)
Module nodes.
Section Nodes.
Context `{Externals}.

Inductive Node : Type :=
| Number (value : double)
| String (value : string)
| Symbol (id : Z)
| Neg (child : Node)
| Not (child : Node)
| Array (nodes : list Node)
| If (cond true_expr false_expr : Node) (p_true : double)
| Let (name : string) (value expr : Node)
| Error (message : string)
(** a call node from the CallRepo with the arguments bound so far *)
| Call (name : string) (num_params : nat) (args : list Node)
(** an operator node after [bind(lhs, rhs)] *)
| Operator (op : Operator_UP) (lhs rhs : Node)
(** [TensorSum(child)] and [TensorSum(child, dimension)] *)
| TensorSum (child : Node) (dimension : option string).

(** [nodes::as<nodes::Number>(node)] and [nodes::as<nodes::Error>(node)] *)
Definition as_Number (n : Node) : option double :=
  match n with Number v => Some v | _ => None end.
Definition as_Error (n : Node) : option string :=
  match n with Error m => Some m | _ => None end.
End Nodes.
End nodes.

Abbreviation Node := nodes.Node.

Section Model.
Context `{Externals}.

(** [Function(root, params)] *)
Record Function : Type := mkFunction {
  _root : Node;
  Function_params : list string;
}.

Definition num_params (f : Function) : nat := length (Function_params f).

(** ** Params, ExplicitParams, ImplicitParams *)

Inductive ParamsKind : Type := Explicit | Implicit.

Record Params : Type := mkParams {
  kind : ParamsKind;
  _params : gmap string nat;
}.

(** [static const size_t UNDEF = -1] *)
Definition Params_UNDEF : Z := (2 ^ 64 - 1)%Z.

Definition lookup (p : Params) (token : string) : Z :=
  match _params p !! token with
  | None => Params_UNDEF
  | Some result => Z.of_nat result
  end.

Definition lookup_add (p : Params) (token : string) : Z * Params :=
  let result := lookup p token in
  if (result =? Params_UNDEF)%Z then
    let result := size (_params p) in
    (Z.of_nat result, mkParams (kind p) (<[token := result]> (_params p)))
  else (result, p).

Definition implicit (p : Params) : bool :=
  match kind p with Explicit => false | Implicit => true end.

(** [Params::extract]: [params_out[item.second] = item.first] for every item
    of the map. *)
Definition extract (p : Params) : list string :=
  map_fold (λ name index params_out, <[index := name]> params_out)
           (replicate (size (_params p)) "") (_params p).

(** The constructor of [ExplicitParams], with its assertion. *)
Fixpoint ExplicitParams_add (params_in : list string) (p : Params) : outcome Params :=
  match params_in with
  | [] => Done p
  | param :: rest =>
      _ ← assert (lookup p param =? Params_UNDEF)%Z "lookup(param) == UNDEF";
      ExplicitParams_add rest (snd (lookup_add p param))
  end.
Definition ExplicitParams (params_in : list string) : outcome Params :=
  ExplicitParams_add params_in (mkParams Explicit ∅).

Definition ImplicitParams : Params := mkParams Implicit ∅.

(** [virtual size_t resolve(token) const]; the implicit variant casts the
    constness away and adds the token, so the object is returned too. *)
Definition resolve (p : Params) (token : string) : Z * Params :=
  match kind p with
  | Explicit => (lookup p token, p)
  | Implicit => lookup_add p token
  end.

(** ** SymbolExtractor

    [extract_symbol(pos_in, end_in, pos_out, symbol_out)]: the extractor sees
    the bytes from [pos_in] up to [end_in] and answers with [pos_out], given
    here relative to [pos_in] ([None] for a pointer left null), and with the
    symbol. *)
Definition SymbolExtractor : Type := string → option Z * string.

(** ** ResolveContext

    [_params] is a reference. The object behind the first context is the one
    [parse_function] was given and reads again at the end; it is a cell of
    the parse state ([top_params] below) and is referred to by [TopParams].
    The object behind a lambda's context is a local of [parse_lambda] that
    nothing else refers to; it is held by value. *)
Inductive ParamsRef : Type :=
| TopParams
| LambdaParams (p : Params).

Record ResolveContext : Type := mkResolveContext {
  _params_ref : ParamsRef;
  _symbol_extractor : option SymbolExtractor;
  (** in vector order: index 0 is the outermost binding *)
  _let_names : list string;
}.

Definition push_let_name (rc : ResolveContext) (name : string) : ResolveContext :=
  mkResolveContext (_params_ref rc) (_symbol_extractor rc) (_let_names rc ++ [name])%list.

Definition pop_let_name (rc : ResolveContext) : outcome ResolveContext :=
  _ ← assert (negb (bool_decide (_let_names rc = []))) "!_let_names.empty()";
  Done (mkResolveContext (_params_ref rc) (_symbol_extractor rc)
                         (removelast (_let_names rc))).

(** The loop of [resolve_let_name]; [k] is [i + 1], so indices [k-1 .. 0]
    remain to be compared. *)
Fixpoint resolve_let_name_from (let_names : list string) (name : string) (k : nat) : Z :=
  match k with
  | 0 => Symbol_UNDEF
  | S i =>
      match let_names !! i with
      | Some n =>
          if String.eqb name n then (- (Z.of_nat i + 1))%Z
          else resolve_let_name_from let_names name i
      | None => resolve_let_name_from let_names name i
      end
  end.

Definition resolve_let_name (rc : ResolveContext) (name : string) : Z :=
  resolve_let_name_from (_let_names rc) name
    (Z.to_nat (to_int (Z.of_nat (length (_let_names rc))))).

(** ** ParseContext

    [_begin] and [_end] delimit [_input]; [_pos] is an offset into it. The
    three stacks have their top ([back()]) at the head of the list. The
    scratch buffer is cleared at every use and never read across calls, so
    each user keeps it as a local string.

    Two cells are state of the run rather than members of the class:
    [top_params], the Params object the first resolve context refers to, and
    [extractor_calls], the trace of the texts handed to a symbol extractor
    (newest first), which nothing in the parser reads. *)
Record ParseContext : Type := mkParseContext {
  _input : string;
  _pos : nat;
  _curr : ascii;
  _failure : string;
  _expression_stack : list Node;
  _operator_stack : list Operator_UP;
  _operator_mark : nat;
  _resolve_stack : list ResolveContext;
  top_params : Params;
  extractor_calls : list string;
}.

Definition _end (ctx : ParseContext) : nat := String.length (_input ctx).

Definition set_cursor (pos : nat) (curr : ascii) (ctx : ParseContext) : ParseContext :=
  mkParseContext (_input ctx) pos curr (_failure ctx) (_expression_stack ctx)
    (_operator_stack ctx) (_operator_mark ctx) (_resolve_stack ctx)
    (top_params ctx) (extractor_calls ctx).
Definition set_failure (failure : string) (ctx : ParseContext) : ParseContext :=
  mkParseContext (_input ctx) (_pos ctx) (_curr ctx) failure (_expression_stack ctx)
    (_operator_stack ctx) (_operator_mark ctx) (_resolve_stack ctx)
    (top_params ctx) (extractor_calls ctx).
Definition set_expression_stack (st : list Node) (ctx : ParseContext) : ParseContext :=
  mkParseContext (_input ctx) (_pos ctx) (_curr ctx) (_failure ctx) st
    (_operator_stack ctx) (_operator_mark ctx) (_resolve_stack ctx)
    (top_params ctx) (extractor_calls ctx).
Definition set_operator_stack (st : list Operator_UP) (ctx : ParseContext) : ParseContext :=
  mkParseContext (_input ctx) (_pos ctx) (_curr ctx) (_failure ctx) (_expression_stack ctx)
    st (_operator_mark ctx) (_resolve_stack ctx)
    (top_params ctx) (extractor_calls ctx).
Definition set_resolve_stack (st : list ResolveContext) (ctx : ParseContext) : ParseContext :=
  mkParseContext (_input ctx) (_pos ctx) (_curr ctx) (_failure ctx) (_expression_stack ctx)
    (_operator_stack ctx) (_operator_mark ctx) st
    (top_params ctx) (extractor_calls ctx).
Definition set_top_params (p : Params) (ctx : ParseContext) : ParseContext :=
  mkParseContext (_input ctx) (_pos ctx) (_curr ctx) (_failure ctx) (_expression_stack ctx)
    (_operator_stack ctx) (_operator_mark ctx) (_resolve_stack ctx)
    p (extractor_calls ctx).
Definition record_extractor_call (text : string) (ctx : ParseContext) : ParseContext :=
  mkParseContext (_input ctx) (_pos ctx) (_curr ctx) (_failure ctx) (_expression_stack ctx)
    (_operator_stack ctx) (_operator_mark ctx) (_resolve_stack ctx)
    (top_params ctx) (text :: extractor_calls ctx).

(** The constructor: [_resolve_stack({ResolveContext(params, symbol_extractor)})] *)
Definition ParseContext_new (params : Params) (str : string)
    (symbol_extractor : option SymbolExtractor) : ParseContext :=
  mkParseContext str 0 (if 0 <? String.length str then byte_at str 0 else NUL)
    "" [] [] 0 [mkResolveContext TopParams symbol_extractor []] params [].

Definition resolver (ctx : ParseContext) : outcome ResolveContext :=
  match _resolve_stack ctx with
  | [] => Abort "!_resolve_stack.empty()"
  | rc :: _ => Done rc
  end.

(** [resolver() = rc'] for an update made through the reference. *)
Definition set_resolver (rc : ResolveContext) (ctx : ParseContext) : ParseContext :=
  set_resolve_stack (rc :: tail (_resolve_stack ctx)) ctx.

Definition push_resolve_context (params : ParamsRef)
    (symbol_extractor : option SymbolExtractor) (ctx : ParseContext) : ParseContext :=
  set_resolve_stack (mkResolveContext params symbol_extractor [] :: _resolve_stack ctx) ctx.

Definition pop_resolve_context (ctx : ParseContext) : outcome ParseContext :=
  match _resolve_stack ctx with
  | [] => Abort "!_resolve_stack.empty()"
  | _ :: rest => Done (set_resolve_stack rest ctx)
  end.

Definition fail (msg : string) (ctx : ParseContext) : ParseContext :=
  if empty (_failure ctx) then set_cursor (_pos ctx) NUL (set_failure msg ctx)
  else ctx.

Definition failed (ctx : ParseContext) : bool := negb (empty (_failure ctx)).

(** [*p] for a pointer [p] that is not behind [_end]: a byte of the
    expression or, at [_end], the byte stored behind it. *)
Definition load (ctx : ParseContext) (p : nat) : ascii :=
  if p <? _end ctx then byte_at (_input ctx) p else end_byte.

Definition next (ctx : ParseContext) : ParseContext :=
  if negb (is_NUL (_curr ctx)) && (_pos ctx <? _end ctx)
  then set_cursor (S (_pos ctx)) (load ctx (S (_pos ctx))) ctx
  else set_cursor (_pos ctx) NUL ctx.

Record InputMark : Type := mkInputMark {
  mark_pos : nat;
  mark_curr : ascii;
}.

Definition get_input_mark (ctx : ParseContext) : InputMark :=
  mkInputMark (_pos ctx) (_curr ctx).

Definition restore_input_mark (mark : InputMark) (ctx : ParseContext) : ParseContext :=
  let ctx :=
    if is_NUL (_curr ctx) && negb (is_NUL (mark_curr mark))
    then set_failure "" ctx else ctx in
  set_cursor (mark_pos mark) (mark_curr mark) ctx.

Definition get (ctx : ParseContext) : ascii := _curr ctx.
Definition eos (ctx : ParseContext) : bool := is_NUL (_curr ctx).

Definition eat (c : ascii) (ctx : ParseContext) : ParseContext :=
  if Ascii.eqb (_curr ctx) c then next ctx
  else fail ("expected '" +:+ String c "', but got '" +:+ String (_curr ctx) "'") ctx.

(** Bound of the cursor loops: every iteration of such a loop calls [next]
    on a cursor that is not at the end, and the end is reached at the latest
    after this many calls. *)
Definition chars_left (ctx : ParseContext) : nat :=
  if eos ctx then 0 else S (_end ctx - _pos ctx).

Definition skip_spaces (ctx : ParseContext) : ParseContext :=
  while (chars_left ctx) (λ ctx, negb (eos ctx) && isspace (_curr ctx)) next ctx.

(** [peek(str, n)] on a cleared [str] *)
Fixpoint peek_from (ctx : ParseContext) (p n : nat) : string :=
  match n with
  | 0 => ""
  | S n' =>
      String (if negb (is_NUL (_curr ctx)) && (p <? _end ctx)
              then byte_at (_input ctx) p else NUL)
             (peek_from ctx (S p) n')
  end.
Definition peek (n : nat) (ctx : ParseContext) : string := peek_from ctx (_pos ctx) n.

Fixpoint skip (n : nat) (ctx : ParseContext) : ParseContext :=
  match n with
  | 0 => ctx
  | S n' => skip n' (next ctx)
  end.

Definition push_let_binding (name : string) (ctx : ParseContext) : outcome ParseContext :=
  rc ← resolver ctx;
  Done (set_resolver (push_let_name rc name) ctx).

Definition pop_let_binding (ctx : ParseContext) : outcome ParseContext :=
  rc ← resolver ctx;
  rc' ← pop_let_name rc;
  Done (set_resolver rc' ctx).

Definition resolve_let_ref (name : string) (ctx : ParseContext) : outcome Z :=
  rc ← resolver ctx;
  Done (resolve_let_name rc name).

(** [ResolveContext::resolve_param] through [resolver()]: the id, and the
    context in which the Params object referred to may have grown. *)
Definition resolve_parameter (name : string) (ctx : ParseContext) : outcome (Z * ParseContext) :=
  rc ← resolver ctx;
  let '(param_id, ctx) :=
    match _params_ref rc with
    | TopParams =>
        let '(id, p) := resolve (top_params ctx) name in
        (id, set_top_params p ctx)
    | LambdaParams p =>
        let '(id, p) := resolve p name in
        (id, set_resolver (mkResolveContext (LambdaParams p) (_symbol_extractor rc)
                                            (_let_names rc)) ctx)
    end in
  if (param_id =? Params_UNDEF)%Z then Done (Symbol_UNDEF, ctx)
  else Done (to_int param_id, ctx).

Definition extract_symbol (symbol_out : string) (before_symbol : InputMark)
    (ctx : ParseContext) : outcome (string * ParseContext) :=
  rc ← resolver ctx;
  match _symbol_extractor rc with
  | None => Done (symbol_out, ctx)
  | Some symbol_extractor =>
      let symbol_out := "" in
      let ctx := restore_input_mark before_symbol ctx in
      if negb (eos ctx) then
        let text := str_drop (_pos ctx) (_input ctx) in
        let '(new_pos, symbol_out) := symbol_extractor text in
        let ctx := record_extractor_call text ctx in
        match new_pos with
        | Some d =>
            if (0 <? d)%Z && (d <=? Z.of_nat (_end ctx) - Z.of_nat (_pos ctx))%Z then
              let pos := _pos ctx + Z.to_nat d in
              Done (symbol_out,
                    set_cursor pos (if pos <? _end ctx then byte_at (_input ctx) pos else NUL) ctx)
            else Done ("", ctx)
        | None => Done ("", ctx)
        end
      else Done (symbol_out, ctx)
  end.

Definition num_expressions (ctx : ParseContext) : nat := length (_expression_stack ctx).
Definition num_operators (ctx : ParseContext) : nat := length (_operator_stack ctx).

Definition push_expression (node : Node) (ctx : ParseContext) : ParseContext :=
  set_expression_stack (node :: _expression_stack ctx) ctx.

Definition pop_expression (ctx : ParseContext) : Node * ParseContext :=
  match _expression_stack ctx with
  | [] => (nodes.Number double_0_0, fail "expression stack underflow" ctx)
  | node :: rest => (node, set_expression_stack rest ctx)
  end.

Definition pop_operator (ctx : ParseContext) : outcome (Operator_UP * ParseContext) :=
  match _operator_stack ctx with
  | [] => Abort "!_operator_stack.empty()"
  | node :: rest => Done (node, set_operator_stack rest ctx)
  end.

Definition apply_operator (ctx : ParseContext) : outcome ParseContext :=
  '(op, ctx) ← pop_operator ctx;
  let '(rhs, ctx) := pop_expression ctx in
  let '(lhs, ctx) := pop_expression ctx in
  Done (push_expression (nodes.Operator op lhs rhs) ctx).

Definition operator_mark (mark : nat) (ctx : ParseContext) : ParseContext :=
  mkParseContext (_input ctx) (_pos ctx) (_curr ctx) (_failure ctx) (_expression_stack ctx)
    (_operator_stack ctx) mark (_resolve_stack ctx)
    (top_params ctx) (extractor_calls ctx).

(** The loop of [push_operator]; each round pops one operator, so the depth
    of the operator stack bounds it. *)
Fixpoint push_operator_loop (n : nat) (node : Operator_UP) (ctx : ParseContext)
    : outcome ParseContext :=
  match n with
  | 0 => Done ctx
  | S n' =>
      match _operator_stack ctx with
      | back :: _ =>
          if (_operator_mark ctx <? length (_operator_stack ctx)) && do_before back node
          then ctx ← apply_operator ctx; push_operator_loop n' node ctx
          else Done ctx
      | [] => Done ctx
      end
  end.
Definition push_operator (node : Operator_UP) (ctx : ParseContext) : outcome ParseContext :=
  ctx ← push_operator_loop (num_operators ctx) node ctx;
  Done (set_operator_stack (node :: _operator_stack ctx) ctx).

Definition get_result (ctx : ParseContext) : Node :=
  let ctx :=
    if negb (eos ctx) || negb (num_expressions ctx =? 1) || (0 <? num_operators ctx)
    then fail "incomplete parse" ctx else ctx in
  if negb (empty (_failure ctx)) then
    let before := str_take (_pos ctx) (_input ctx) in
    let after := str_drop (_pos ctx) (_input ctx) in
    nodes.Error ("[" +:+ c_str before +:+ "]...[" +:+ c_str (_failure ctx)
                 +:+ "]...[" +:+ c_str after +:+ "]")
  else fst (pop_expression ctx).

(** ** The sub-parsers *)

Definition unhex (c : ascii) : Z :=
  if in_range "0" "9" c then (Z.of_nat (code c) - Z.of_nat (code "0"))%Z
  else if in_range "a" "f" c then (Z.of_nat (code c) - Z.of_nat (code "a") + 10)%Z
  else if in_range "A" "F" c then (Z.of_nat (code c) - Z.of_nat (code "A") + 10)%Z
  else (-1)%Z.

(** [char((hex1 << 4) + hex2)] *)
Definition hex_byte (hex1 hex2 : Z) : ascii :=
  ascii_of_nat (Z.to_nat ((hex1 * 16 + hex2) `mod` 256)%Z).

(** One round of the loop of [parse_string]. The byte "034" is the double
    quote, "012" form feed, "010" newline, "013" carriage return and "009"
    tab. *)
Definition parse_string_step (st : string * ParseContext) : string * ParseContext :=
  let '(str, ctx) := st in
  let '(str, ctx) :=
    if Ascii.eqb (get ctx) "\" then
      let ctx := next ctx in
      if Ascii.eqb (get ctx) "x" then
        let ctx := next ctx in
        let hex1 := unhex (get ctx) in
        let ctx := next ctx in
        let hex2 := unhex (get ctx) in
        let ctx := if (hex1 <? 0)%Z || (hex2 <? 0)%Z then fail "bad hex quote" ctx else ctx in
        (push_back str (hex_byte hex1 hex2), ctx)
      else if Ascii.eqb (get ctx) "034" then (push_back str "034", ctx)
      else if Ascii.eqb (get ctx) "\" then (push_back str "\", ctx)
      else if Ascii.eqb (get ctx) "f" then (push_back str "012", ctx)
      else if Ascii.eqb (get ctx) "n" then (push_back str "010", ctx)
      else if Ascii.eqb (get ctx) "r" then (push_back str "013", ctx)
      else if Ascii.eqb (get ctx) "t" then (push_back str "009", ctx)
      else (str, fail "bad quote" ctx)
    else (push_back str (get ctx), ctx) in
  (str, next ctx).

Definition parse_string (ctx : ParseContext) : ParseContext :=
  let ctx := eat "034" ctx in
  let '(str, ctx) :=
    while (chars_left ctx)
      (λ st, negb (eos (snd st)) && negb (Ascii.eqb (get (snd st)) "034"))
      parse_string_step ("", ctx) in
  let ctx := eat "034" ctx in
  push_expression (nodes.String str) ctx.

(** [while (ctx.get() >= '0' && ctx.get() <= '9') { push_back; next }] *)
Definition read_digits (st : string * ParseContext) : string * ParseContext :=
  while (chars_left (snd st))
    (λ st, in_range "0" "9" (get (snd st)))
    (λ st, (push_back (fst st) (get (snd st)), next (snd st))) st.

Definition parse_number (ctx : ParseContext) : ParseContext :=
  let str := push_back "" (get ctx) in
  let ctx := next ctx in
  let '(str, ctx) := read_digits (str, ctx) in
  let '(str, ctx) :=
    if Ascii.eqb (get ctx) "." then
      read_digits (push_back str (get ctx), next ctx)
    else (str, ctx) in
  let '(str, ctx) :=
    if Ascii.eqb (get ctx) "e" || Ascii.eqb (get ctx) "E" then
      let '(str, ctx) := (push_back str (get ctx), next ctx) in
      let '(str, ctx) :=
        if Ascii.eqb (get ctx) "+" || Ascii.eqb (get ctx) "-"
        then (push_back str (get ctx), next ctx) else (str, ctx) in
      read_digits (str, ctx)
    else (str, ctx) in
  let '(value, consumed) := strtod (c_str str) in
  if negb (empty str) && (consumed =? String.length str)
  then push_expression (nodes.Number value) ctx
  else fail ("invalid number: '" +:+ c_str str +:+ "'") ctx.

Definition is_ident (c : ascii) (first : bool) : bool :=
  in_range "a" "z" c || in_range "A" "Z" c || in_range "0" "9" c
  || Ascii.eqb c "_" || Ascii.eqb c "@" || (Ascii.eqb c "$" && negb first).

Definition get_ident (ctx : ParseContext) : string * ParseContext :=
  let ctx := skip_spaces ctx in
  if is_ident (get ctx) true then
    let ident := push_back "" (get ctx) in
    let ctx := next ctx in
    while (chars_left ctx)
      (λ st, is_ident (get (snd st)) false)
      (λ st, (push_back (fst st) (get (snd st)), next (snd st))) (ident, ctx)
  else ("", ctx).

Section SubParsers.
(** [parse_expression], as the sub-parsers below call it. *)
Variable parse_expression : ParseContext → outcome ParseContext.

Definition parse_if (ctx : ParseContext) : outcome ParseContext :=
  ctx ← parse_expression ctx;
  let '(cond, ctx) := pop_expression ctx in
  let ctx := eat "," ctx in
  ctx ← parse_expression ctx;
  let '(true_expr, ctx) := pop_expression ctx in
  let ctx := eat "," ctx in
  ctx ← parse_expression ctx;
  let '(false_expr, ctx) := pop_expression ctx in
  let p_true := double_0_5 in
  let '(p_true, ctx) :=
    if Ascii.eqb (get ctx) "," then
      let ctx := eat "," ctx in
      let ctx := parse_number ctx in
      let '(p_true_node, ctx) := pop_expression ctx in
      match nodes.as_Number p_true_node with
      | Some value => (value, ctx)
      | None => (p_true, ctx)
      end
    else (p_true, ctx) in
  Done (push_expression (nodes.If cond true_expr false_expr p_true) ctx).

Definition parse_let (ctx : ParseContext) : outcome ParseContext :=
  let '(name, ctx) := get_ident ctx in
  let ctx := skip_spaces ctx in
  let ctx := eat "," ctx in
  ctx ← parse_expression ctx;
  let '(value, ctx) := pop_expression ctx in
  let ctx := eat "," ctx in
  ctx ← push_let_binding name ctx;
  ctx ← parse_expression ctx;
  let '(expr, ctx) := pop_expression ctx in
  ctx ← pop_let_binding ctx;
  Done (push_expression (nodes.Let name value expr) ctx).

(** The loop of [parse_call] from index [i], with [todo] rounds to go;
    [args] are the arguments bound so far. *)
Fixpoint parse_call_from (todo i : nat) (args : list Node) (ctx : ParseContext)
    : outcome (list Node * ParseContext) :=
  match todo with
  | 0 => Done (args, ctx)
  | S todo' =>
      let ctx := if 0 <? i then eat "," ctx else ctx in
      ctx ← parse_expression ctx;
      let '(arg, ctx) := pop_expression ctx in
      parse_call_from todo' (S i) (args ++ [arg])%list ctx
  end.
Definition parse_call (name : string) (call_num_params : nat) (ctx : ParseContext)
    : outcome ParseContext :=
  '(args, ctx) ← parse_call_from call_num_params 0 [] ctx;
  Done (push_expression (nodes.Call name call_num_params args) ctx).

(** One round of the loop of [get_ident_list], its [skip_spaces] included. *)
Definition get_ident_list_step (st : list string * ParseContext) : list string * ParseContext :=
  let '(idents, ctx) := st in
  let ctx := if negb (bool_decide (idents = [])) then eat "," ctx else ctx in
  let '(ident, ctx) := get_ident ctx in
  ((idents ++ [ident])%list, skip_spaces ctx).

Definition get_ident_list (ctx : ParseContext) : list string * ParseContext :=
  let ctx := skip_spaces ctx in
  let ctx := eat "(" ctx in
  let ctx := skip_spaces ctx in
  let '(idents, ctx) :=
    while (2 * chars_left ctx + 1)
      (λ st, negb (eos (snd st)) && negb (Ascii.eqb (get (snd st)) ")"))
      get_ident_list_step ([], ctx) in
  (idents, eat ")" ctx).

Definition parse_lambda (ctx : ParseContext) : outcome (Function * ParseContext) :=
  let ctx := skip_spaces ctx in
  let ctx := eat "f" ctx in
  let '(param_names, ctx) := get_ident_list ctx in
  params ← ExplicitParams param_names;
  let ctx := push_resolve_context (LambdaParams params) None ctx in
  let ctx := skip_spaces ctx in
  let ctx := eat "(" ctx in
  ctx ← parse_expression ctx;
  let ctx := eat ")" ctx in
  ctx ← pop_resolve_context ctx;
  let '(lambda_root, ctx) := pop_expression ctx in
  Done (mkFunction lambda_root param_names, ctx).

Definition parse_tensor_map (ctx : ParseContext) : outcome ParseContext :=
  ctx ← parse_expression ctx;
  let '(child, ctx) := pop_expression ctx in
  let ctx := eat "," ctx in
  '(lambda, ctx) ← parse_lambda ctx;
  if negb (num_params lambda =? 1) then
    Done (fail ("map requires a lambda with 1 parameter, was " +:+ zu (num_params lambda)) ctx)
  else Done ctx.

Definition parse_tensor_join (ctx : ParseContext) : outcome ParseContext :=
  ctx ← parse_expression ctx;
  let '(lhs, ctx) := pop_expression ctx in
  let ctx := eat "," ctx in
  ctx ← parse_expression ctx;
  let '(rhs, ctx) := pop_expression ctx in
  let ctx := eat "," ctx in
  '(lambda, ctx) ← parse_lambda ctx;
  if negb (num_params lambda =? 2) then
    Done (fail ("join requires a lambda with 2 parameter, was " +:+ zu (num_params lambda)) ctx)
  else Done ctx.

Definition parse_tensor_sum (ctx : ParseContext) : outcome ParseContext :=
  ctx ← parse_expression ctx;
  let '(child, ctx) := pop_expression ctx in
  if Ascii.eqb (get ctx) "," then
    let ctx := next ctx in
    let '(dimension, ctx) := get_ident ctx in
    let ctx := skip_spaces ctx in
    Done (push_expression (nodes.TensorSum child (Some dimension)) ctx)
  else Done (push_expression (nodes.TensorSum child None) ctx).

Definition try_parse_call (name : string) (ctx : ParseContext) : outcome (bool * ParseContext) :=
  let ctx := skip_spaces ctx in
  if Ascii.eqb (get ctx) "(" then
    let ctx := eat "(" ctx in
    let closing (r : outcome ParseContext) : outcome (bool * ParseContext) :=
      ctx ← r; Done (true, eat ")" ctx) in
    if String.eqb name "if" then closing (parse_if ctx)
    else if String.eqb name "let" then closing (parse_let ctx)
    else
      match CallRepo_create name with
      | Some call_num_params => closing (parse_call name call_num_params ctx)
      | None =>
          if String.eqb name "map" then closing (parse_tensor_map ctx)
          else if String.eqb name "join" then closing (parse_tensor_join ctx)
          else if String.eqb name "sum" then closing (parse_tensor_sum ctx)
          else Done (false, fail ("unknown function: '" +:+ c_str name +:+ "'") ctx)
      end
  else Done (false, ctx).

(** [name] is passed by reference: the result carries its final value. *)
Definition parse_symbol (name : string) (before_name : InputMark) (ctx : ParseContext)
    : outcome (Z * string * ParseContext) :=
  id ← resolve_let_ref name ctx;
  if negb (id =? Symbol_UNDEF)%Z then Done (id, name, ctx)
  else
    '(name, ctx) ← extract_symbol name before_name ctx;
    '(id, ctx) ← resolve_parameter name ctx;
    Done (id, name, ctx).

Definition parse_symbol_or_call (ctx : ParseContext) : outcome ParseContext :=
  let before_name := get_input_mark ctx in
  let '(name, ctx) := get_ident ctx in
  '(called, ctx) ← try_parse_call name ctx;
  if negb called then
    '(id, name, ctx) ← parse_symbol name before_name ctx;
    if empty name then Done (fail "missing value" ctx)
    else if (id =? Symbol_UNDEF)%Z then
      Done (fail ("unknown symbol: '" +:+ c_str name +:+ "'") ctx)
    else Done (push_expression (nodes.Symbol id) ctx)
  else Done ctx.

(** The loop of [parse_array]; [rounds] bounds the rounds still allowed. *)
Fixpoint parse_array_loop (rounds size : nat) (array : list Node) (ctx : ParseContext)
    : outcome (list Node * ParseContext) :=
  if negb (eos ctx) && negb (Ascii.eqb (get ctx) "]") then
    match rounds with
    | 0 => OutOfFuel
    | S rounds' =>
        let size := S size in
        let ctx := if 1 <? size then eat "," ctx else ctx in
        ctx ← parse_expression ctx;
        let '(node, ctx) := pop_expression ctx in
        parse_array_loop rounds' size (array ++ [node])%list ctx
    end
  else Done (array, ctx).

Definition parse_array (rounds : nat) (ctx : ParseContext) : outcome ParseContext :=
  let ctx := eat "[" ctx in
  let ctx := skip_spaces ctx in
  '(array, ctx) ← parse_array_loop rounds 0 [] ctx;
  let ctx := eat "]" ctx in
  Done (push_expression (nodes.Array array) ctx).

(** [parse_value], with its two recursive calls as [parse_value_rec]. *)
Definition parse_value_body (parse_value_rec : ParseContext → outcome ParseContext)
    (rounds : nat) (ctx : ParseContext) : outcome ParseContext :=
  let ctx := skip_spaces ctx in
  if Ascii.eqb (get ctx) "-" then
    ctx ← parse_value_rec (next ctx);
    let '(child, ctx) := pop_expression ctx in
    Done (push_expression (nodes.Neg child) ctx)
  else if Ascii.eqb (get ctx) "!" then
    ctx ← parse_value_rec (next ctx);
    let '(child, ctx) := pop_expression ctx in
    Done (push_expression (nodes.Not child) ctx)
  else if Ascii.eqb (get ctx) "(" then
    ctx ← parse_expression (next ctx);
    Done (eat ")" ctx)
  else if Ascii.eqb (get ctx) "[" then parse_array rounds ctx
  else if Ascii.eqb (get ctx) "034" then Done (parse_string ctx)
  else if isdigit (get ctx) then Done (parse_number ctx)
  else parse_symbol_or_call ctx.

End SubParsers.

Definition parse_operator (ctx : ParseContext) : outcome ParseContext :=
  let ctx := skip_spaces ctx in
  let str := peek OperatorRepo_max_size ctx in
  match OperatorRepo_create str with
  | Some (op, str_size) =>
      ctx ← push_operator op ctx;
      Done (skip str_size ctx)
  | None =>
      Done (fail ("invalid operator: '" +:+ String (get ctx) "'") ctx)
  end.

(** [while (ctx.num_operators() > ctx.operator_mark()) ctx.apply_operator()] *)
Fixpoint apply_operators (n : nat) (ctx : ParseContext) : outcome ParseContext :=
  match n with
  | 0 => Done ctx
  | S n' =>
      if _operator_mark ctx <? num_operators ctx
      then ctx ← apply_operator ctx; apply_operators n' ctx
      else Done ctx
  end.

Definition at_expression_end (ctx : ParseContext) : bool :=
  eos ctx || Ascii.eqb (get ctx) ")" || Ascii.eqb (get ctx) "," || Ascii.eqb (get ctx) "]".

(** [parse_expression] is its prologue followed by the [for (;;)] loop;
    [loop old_mark] is that loop. *)
Definition parse_expression_enter (loop : nat → ParseContext → outcome ParseContext)
    (ctx : ParseContext) : outcome ParseContext :=
  let old_mark := _operator_mark ctx in
  loop old_mark (operator_mark (num_operators ctx) ctx).

Fixpoint parse_value (fuel : nat) (ctx : ParseContext) : outcome ParseContext :=
  match fuel with
  | 0 => OutOfFuel
  | S fuel' =>
      parse_value_body (parse_expression_enter (parse_expression_loop fuel'))
                       (parse_value fuel') fuel' ctx
  end
with parse_expression_loop (fuel : nat) (old_mark : nat) (ctx : ParseContext)
    : outcome ParseContext :=
  match fuel with
  | 0 => OutOfFuel
  | S fuel' =>
      ctx ← parse_value fuel' ctx;
      let ctx := skip_spaces ctx in
      if at_expression_end ctx then
        ctx ← apply_operators (num_operators ctx) ctx;
        Done (operator_mark old_mark ctx)
      else
        ctx ← parse_operator ctx;
        parse_expression_loop fuel' old_mark ctx
  end.

Definition parse_expression (fuel : nat) (ctx : ParseContext) : outcome ParseContext :=
  parse_expression_enter (parse_expression_loop fuel) ctx.

Definition parse_function (fuel : nat) (params : Params) (expression : string)
    (symbol_extractor : option SymbolExtractor) : outcome Function :=
  let ctx := ParseContext_new params expression symbol_extractor in
  ctx ← parse_expression fuel ctx;
  if failed ctx && implicit params then Done (mkFunction (get_result ctx) [])
  else Done (mkFunction (get_result ctx) (extract (top_params ctx))).

(** ** Function *)

Definition has_error (f : Function) : bool :=
  match nodes.as_Error (_root f) with Some _ => true | None => false end.

Definition get_error (f : Function) : string :=
  match nodes.as_Error (_root f) with Some message => message | None => "" end.

(** Fuel that [parse_function] cannot use up on [expression]
    ([parse_function_terminates]). *)
Definition parse_fuel (expression : string) : nat := 2 * String.length expression + 8.

(** The four [Function::parse] overloads. *)
Definition parse (expression : string) : outcome Function :=
  parse_function (parse_fuel expression) ImplicitParams expression None.

Definition parse_with_extractor (expression : string) (symbol_extractor : SymbolExtractor)
    : outcome Function :=
  parse_function (parse_fuel expression) ImplicitParams expression (Some symbol_extractor).

Definition parse_params (params : list string) (expression : string) : outcome Function :=
  p ← ExplicitParams params;
  parse_function (parse_fuel expression) p expression None.

Definition parse_params_with_extractor (params : list string) (expression : string)
    (symbol_extractor : SymbolExtractor) : outcome Function :=
  p ← ExplicitParams params;
  parse_function (parse_fuel expression) p expression (Some symbol_extractor).

End Model.

(** ** Function::unwrap

    [wrapper], [body] and [error] are output parameters: the result carries
    their final values next to the returned flag. A [for] loop over an index
    is a [while] on that index; the length of the input bounds the number of
    rounds of each. *)

(** [vespalib::stringref(input.data() + begin, n)] *)
Definition stringref (input : string) (begin n : nat) : string :=
  str_take n (str_drop begin input).

Definition unwrap (input wrapper body error : string)
    : outcome (bool * string * string * string) :=
  let size := String.length input in
  let pos := 0 in
  let pos := while size (λ pos, (pos <? size) && isspace (byte_at input pos)) S pos in
  let wrapper_begin := pos in
  let pos := while size (λ pos, (pos <? size) && isalpha (byte_at input pos)) S pos in
  let wrapper_end := pos in
  if wrapper_end =? wrapper_begin then
    Done (false, wrapper, body, "could not extract wrapper name")
  else
    let pos := while size (λ pos, (pos <? size) && isspace (byte_at input pos)) S pos in
    if (pos =? size) || negb (Ascii.eqb (byte_at input pos) "(") then
      Done (false, wrapper, body, "could not match opening '('")
    else
      let body_begin := pos + 1 in
      let body_end := size - 1 in
      let body_end :=
        while size (λ body_end, (body_begin <? body_end) && isspace (byte_at input body_end))
              pred body_end in
      if negb (Ascii.eqb (byte_at input body_end) ")") then
        Done (false, wrapper, body, "could not match closing ')'")
      else
        _ ← assert (body_begin <=? body_end) "body_end >= body_begin";
        Done (true,
              stringref input wrapper_begin (wrapper_end - wrapper_begin),
              stringref input body_begin (body_end - body_begin),
              error).

(** ** A sample instance of the collaborators

    Used to run the parser on concrete inputs. Numbers are exact decimals
    ([mantissa * 10 ^ exp10], trailing zeros stripped), which stands in for
    the doubles of the literals used below; the operator table and the call
    table list spellings, priorities and arities in the style of
    operator_nodes.h and call_nodes.h. *)
Module Sample.

Record decimal : Type := mkDecimal { mantissa : Z; exp10 : Z }.

Fixpoint strip_zeros (fuel : nat) (m e : Z) : decimal :=
  match fuel with
  | 0 => mkDecimal m e
  | S fuel' =>
      if (m =? 0)%Z then mkDecimal 0 0
      else if (m `mod` 10 =? 0)%Z then strip_zeros fuel' (m / 10) (e + 1)
      else mkDecimal m e
  end.

(** Leading digits of [s]: their value appended to [acc], their number, the rest. *)
Fixpoint scan_digits (s : string) (acc : Z) (n : nat) : Z * nat * string :=
  match s with
  | String c s' =>
      if isdigit c
      then scan_digits s' (10 * acc + Z.of_nat (code c - code "0"))%Z (S n)
      else (acc, n, s)
  | EmptyString => (acc, n, s)
  end.

Definition scan_sign (s : string) : bool * nat * string :=
  match s with
  | String "-" s' => (true, 1, s')
  | String "+" s' => (false, 1, s')
  | _ => (false, 0, s)
  end.

Fixpoint scan_spaces (s : string) (n : nat) : nat * string :=
  match s with
  | String c s' => if isspace c then scan_spaces s' (S n) else (n, s)
  | EmptyString => (n, s)
  end.

(** Decimal floating literals as [strtod] reads them: spaces, a sign, digits
    with an optional point, an optional exponent. *)
Definition decimal_strtod (s : string) : decimal * nat :=
  let '(nspace, s) := scan_spaces s 0 in
  let '(negative, nsign, s) := scan_sign s in
  let '(int_part, nint, s) := scan_digits s 0 0 in
  let '(m, nfrac, npoint, s) :=
    match s with
    | String "." s' =>
        let '(m, nfrac, s'') := scan_digits s' int_part 0 in
        if (0 <? nint + nfrac) then (m, nfrac, 1, s'') else (int_part, 0, 0, s)
    | _ => (int_part, 0, 0, s)
    end in
  if nint + nfrac =? 0 then (mkDecimal 0 0, 0)
  else
    let '(e, nexp) :=
      match s with
      | String c s' =>
          if Ascii.eqb c "e" || Ascii.eqb c "E" then
            let '(eneg, nesign, s'') := scan_sign s' in
            let '(e, ne, _) := scan_digits s'' 0 0 in
            if ne =? 0 then (0%Z, 0) else ((if eneg then - e else e)%Z, 1 + nesign + ne)
          else (0%Z, 0)
      | EmptyString => (0%Z, 0)
      end in
    let m := (if negative then - m else m)%Z in
    (strip_zeros (nint + nfrac) m (e - Z.of_nat nfrac),
     nspace + nsign + nint + npoint + nfrac + nexp).

Inductive Order : Type := LEFT | RIGHT.

Record operator : Type := mkOperator {
  op_str : string;
  priority : nat;
  order : Order;
}.

Definition operators : list operator :=
  [ mkOperator "+" 101 LEFT; mkOperator "-" 101 LEFT;
    mkOperator "*" 102 LEFT; mkOperator "/" 102 LEFT;
    mkOperator "^" 103 RIGHT;
    mkOperator "==" 10 LEFT; mkOperator "!=" 10 LEFT; mkOperator "~=" 10 LEFT;
    mkOperator "<" 10 LEFT; mkOperator "<=" 10 LEFT;
    mkOperator ">" 10 LEFT; mkOperator ">=" 10 LEFT;
    mkOperator "in" 10 LEFT;
    mkOperator "&&" 2 LEFT; mkOperator "||" 1 LEFT ].

Definition max_size : nat := 2.

(** Longest-prefix match: try [str], then [str] without its last byte, ... *)
Fixpoint create_prefix (n : nat) (str : string) : option (operator * nat) :=
  match n with
  | 0 => None
  | S n' =>
      match find (λ op, String.eqb (op_str op) (str_take n str)) operators with
      | Some op => Some (op, n)
      | None => create_prefix n' str
      end
  end.
Definition create (str : string) : option (operator * nat) :=
  create_prefix (String.length str) str.

Definition priority_do_before (self other : operator) : bool :=
  if priority other <? priority self then true
  else if priority self <? priority other then false
  else match order self with LEFT => true | RIGHT => false end.

Definition calls : list (string * nat) :=
  [ ("cos", 1); ("sin", 1); ("tan", 1); ("exp", 1); ("log", 1); ("sqrt", 1);
    ("fabs", 1); ("atan2", 2); ("pow", 2); ("fmod", 2); ("min", 2); ("max", 2) ].

Definition call_create (name : string) : option nat :=
  snd <$> find (λ c, String.eqb (fst c) name) calls.

#[export] Instance externals : Externals := {|
  double := decimal;
  double_0_0 := mkDecimal 0 0;
  double_0_5 := mkDecimal 5 (-1);
  strtod := decimal_strtod;
  Operator_UP := operator;
  OperatorRepo_max_size := max_size;
  OperatorRepo_create := create;
  do_before := priority_do_before;
  CallRepo_create := call_create;
  end_byte := NUL;
|}.

End Sample.

(** * Vocabulary of the statements *)

(** [post Q r]: the run [r] did not run out of fuel, and if it ended normally
    its result satisfies [Q]. *)
Definition post {A : Type} (Q : A → Prop) (r : outcome A) : Prop :=
  match r with
  | Done a => Q a
  | Abort _ => True
  | OutOfFuel => False
  end.

(** [sound Q r]: a run that returned satisfies [Q], and a run that stopped
    at an assertion stopped at the one of ExplicitParams. *)
Definition sound {A : Type} (Q : A → Prop) (r : outcome A) : Prop :=
  match r with
  | Done a => Q a
  | Abort assertion => assertion = "lookup(param) == UNDEF"
  | OutOfFuel => True
  end.

(** Every byte of [s] passes the test [P]. *)
Fixpoint str_forall (P : ascii → bool) (s : string) : bool :=
  match s with
  | EmptyString => true
  | String c s' => P c && str_forall P s'
  end.

(** Sample extractors: one that takes one byte and answers with the symbol
    "b", one that takes a dotted name of three bytes, and one that gives up. *)
Definition extractor_b : SymbolExtractor := λ _, (Some 1%Z, "b").
Definition extractor_dotted : SymbolExtractor := λ text, (Some 3%Z, str_take 3 text).
Definition extractor_none : SymbolExtractor := λ _, (None, "junk").

(** [represents p l]: the map of [p] sends every name of [l] to its position
    in [l], and holds nothing else. *)
Definition represents (p : Params) (l : list string) : Prop :=
  NoDup l ∧ ∀ name i, _params p !! name = Some i ↔ l !! i = Some name.

(** The Params object after [resolve] was called on each of [names] in turn. *)
Definition resolve_all (names : list string) (p : Params) : Params :=
  foldl (λ p name, snd (resolve p name)) p names.

Section Vocabulary.
Context `{Externals}.

(** [Inv]: the cursor stays inside the expression, and a latched failure
    means the cursor reads as end of input. *)
Definition Inv (c : ParseContext) : Prop :=
  _pos c ≤ _end c ∧ (failed c = true → eos c = true).

(** What a resolve stack makes visible to name resolution. *)
Definition scopes (c : ParseContext) : list (option SymbolExtractor * list string) :=
  (λ rc, (_symbol_extractor rc, _let_names rc)) <$> _resolve_stack c.

(** [csteps c c']: [c'] is a later state of the cursor of [c]. *)
Record csteps (c c' : ParseContext) : Prop := mk_csteps {
  cs_inv : Inv c';
  cs_input : _input c' = _input c;
  cs_left : chars_left c' ≤ chars_left c;
}.

(** [steps c c']: moreover the same names are in scope. *)
Definition steps (c c' : ParseContext) : Prop :=
  csteps c c' ∧ scopes c' = scopes c.

(** [adv c c']: moreover the cursor advanced or reads as end of input. *)
Definition adv (c c' : ParseContext) : Prop :=
  steps c c' ∧ (chars_left c' < chars_left c ∨ chars_left c' = 0).

(** A step function: it keeps the invariant, the input and the scopes, and
    does not move the cursor back. *)
Definition stepper (f : ParseContext → ParseContext) : Prop :=
  ∀ c, Inv c → steps c (f c).

(** [good k f]: on every cursor with fewer than [k] bytes left, [f] does not
    run out of fuel; it keeps the invariant and the scopes, and it advances
    the cursor or leaves it at end of input. *)
Definition good (k : nat) (f : ParseContext → outcome ParseContext) : Prop :=
  ∀ c, Inv c → chars_left c < k → post (adv c) (f c).

(** [latch c c']: if [c] has failed, with its cursor reading the end of
    input as [fail] leaves it, then [c'] carries the same failure at the same
    position and reads the end of input too. *)
Definition latch (c c' : ParseContext) : Prop :=
  failed c = true → eos c = true →
  _failure c' = _failure c ∧ eos c' = true ∧ _pos c' = _pos c.

(** [quiet c c']: [c'] differs from [c] in the cursor, the failure and the
    expression stack only, and a latched failure is kept. *)
Definition quiet (c c' : ParseContext) : Prop :=
  _input c' = _input c
  ∧ _resolve_stack c' = _resolve_stack c
  ∧ _operator_stack c' = _operator_stack c
  ∧ _operator_mark c' = _operator_mark c
  ∧ top_params c' = top_params c
  ∧ latch c c'.

(** [effects c c']: the input is the same, the parameters of [c'] are those
    of [c] after some more names were resolved, and a latched failure is
    kept. *)
Definition effects (c c' : ParseContext) : Prop :=
  _input c' = _input c
  ∧ (∃ names, top_params c' = resolve_all names (top_params c))
  ∧ latch c c'.

(** [shift c c']: moreover the operator stack and its mark are the same. *)
Definition shift (c c' : ParseContext) : Prop :=
  _operator_stack c' = _operator_stack c
  ∧ _operator_mark c' = _operator_mark c
  ∧ effects c c'.

(** [moved c c']: moreover the same names are in scope. *)
Definition moved (c c' : ParseContext) : Prop :=
  scopes c' = scopes c ∧ shift c c'.

(** [in_loop c0 c]: [c] is a state of the loop of the [parse_expression]
    that was entered at [c0]: the operators pushed since lie above those of
    [c0], and the mark is at their bottom. *)
Definition in_loop (c0 c : ParseContext) : Prop :=
  scopes c = scopes c0
  ∧ (∃ extra, _operator_stack c = (extra ++ _operator_stack c0)%list)
  ∧ _operator_mark c = length (_operator_stack c0)
  ∧ effects c0 c.

(** [seek p c]: [c] with its cursor on byte [p] of the buffer. *)
Definition seek (p : nat) (c : ParseContext) : ParseContext :=
  set_cursor p (load c p) c.

(** The texts that [parse_value] hands to [parse_symbol_or_call] and that
    [get_ident] reads to their end: a first byte that passes
    [is_ident(c, true)] and is no digit, then bytes that pass
    [is_ident(c, false)]. *)
Definition is_identifier (x : string) : bool :=
  match x with
  | EmptyString => false
  | String.String ch rest =>
      is_ident ch true && negb (isdigit ch) && str_forall (λ b, is_ident b false) rest
  end.

(** What a run leaves on the expression stack. *)
Definition expression_stack_after (r : outcome ParseContext) : outcome (list Node) :=
  ctx ← r; Done (_expression_stack ctx).

End Vocabulary.

(** * Properties *)

(** ** Byte strings *)

Lemma app_String (c : ascii) (a b : string) : String c a +:+ b = String c (a +:+ b).
Proof. reflexivity. Qed.

Lemma str_take_drop (n : nat) (s : string) : str_take n s +:+ str_drop n s = s.
Proof.
  revert n; induction s as [|c s IH]; intros [|n]; simpl; try reflexivity.
  rewrite app_String. f_equal. apply IH.
Qed.

Lemma c_str_no_NUL (s : string) : has_NUL s = false → c_str s = s.
Proof.
  induction s as [|c s IH]; simpl; [reflexivity|].
  intros Hn. apply orb_false_iff in Hn as [Hc Hs].
  rewrite Hc. f_equal. apply IH, Hs.
Qed.

Lemma has_NUL_take (n : nat) (s : string) : has_NUL s = false → has_NUL (str_take n s) = false.
Proof.
  revert n; induction s as [|c s IH]; intros [|n]; simpl; try reflexivity.
  intros Hn. apply orb_false_iff in Hn as [Hc Hs].
  rewrite Hc. simpl. apply IH, Hs.
Qed.

Lemma has_NUL_drop (n : nat) (s : string) : has_NUL s = false → has_NUL (str_drop n s) = false.
Proof.
  revert n; induction s as [|c s IH]; intros [|n]; simpl; try reflexivity; try tauto.
  intros Hn. apply orb_false_iff in Hn as [Hc Hs]. apply IH, Hs.
Qed.

Lemma empty_true (s : string) : empty s = true ↔ s = "".
Proof. destruct s; simpl; split; congruence. Qed.

(** ** Outcomes *)

Lemma post_bind {A B : Type} (Q : B → Prop) (r : outcome A) (k : A → outcome B) :
  post (λ a, post Q (k a)) r → post Q (r ≫= k).
Proof. destruct r; simpl; auto. Qed.

Lemma post_mono {A : Type} (P Q : A → Prop) (r : outcome A) :
  post P r → (∀ a, P a → Q a) → post Q r.
Proof. destruct r; simpl; auto. Qed.

Lemma post_Done {A : Type} (Q : A → Prop) (r : outcome A) (a : A) :
  post Q r → r = Done a → Q a.
Proof. intros Hp ->. exact Hp. Qed.

(** ** The bounded loops end by their condition *)

Lemma while_ind {S : Type} (P : S → Prop) (cond : S → bool) (body : S → S) :
  (∀ s, P s → cond s = true → P (body s)) →
  ∀ n s, P s → P (while n cond body s).
Proof.
  intros Hbody n; induction n as [|n IH]; intros s Hs; simpl; [exact Hs|].
  destruct (cond s) eqn:Hc; [|exact Hs]. apply IH, Hbody; assumption.
Qed.

Lemma while_exit {S : Type} (mu : S → nat) (cond : S → bool) (body : S → S) :
  (∀ s, cond s = true → mu (body s) < mu s) →
  ∀ n s, mu s ≤ n → cond (while n cond body s) = false.
Proof.
  intros Hdec n; induction n as [|n IH]; intros s Hn; simpl.
  - destruct (cond s) eqn:Hc; [|reflexivity].
    specialize (Hdec s Hc). lia.
  - destruct (cond s) eqn:Hc; [|exact Hc].
    apply IH. specialize (Hdec s Hc). lia.
Qed.

Section Properties.
Context `{Externals}.

(** ** The cursor *)

Lemma chars_left_next_le (c : ParseContext) : chars_left (next c) ≤ chars_left c.
Proof.
  unfold chars_left, next, eos, _end. destruct c as [i p cu f es os om rs tp ec]; simpl.
  destruct (is_NUL cu) eqn:Hc; simpl; [try rewrite Hc; lia|].
  destruct (p <? String.length i) eqn:Hp; simpl.
  - apply Nat.ltb_lt in Hp. case_match; lia.
  - lia.
Qed.

Lemma chars_left_next_lt (c : ParseContext) :
  eos c = false → chars_left (next c) < chars_left c.
Proof.
  unfold chars_left, next, eos, _end. destruct c as [i p cu f es os om rs tp ec]; simpl.
  intros Hc. rewrite Hc. simpl.
  destruct (p <? String.length i) eqn:Hp; simpl.
  - apply Nat.ltb_lt in Hp. case_match; lia.
  - lia.
Qed.

Lemma chars_left_fail_le (msg : string) (c : ParseContext) :
  chars_left (fail msg c) ≤ chars_left c.
Proof.
  unfold chars_left, fail, eos. destruct c as [i p cu f es os om rs tp ec]; simpl.
  destruct (empty f); simpl; lia.
Qed.

Lemma chars_left_eat_lt (ch : ascii) (c : ParseContext) :
  eos c = false → empty (_failure c) = true → chars_left (eat ch c) < chars_left c.
Proof.
  intros Hc Hf. unfold eat. destruct (Ascii.eqb _ _).
  - apply chars_left_next_lt, Hc.
  - unfold chars_left, fail, eos in *. rewrite Hf. simpl. rewrite Hc. lia.
Qed.

Lemma chars_left_eat_le (ch : ascii) (c : ParseContext) :
  chars_left (eat ch c) ≤ chars_left c.
Proof.
  unfold eat. destruct (Ascii.eqb _ _);
    [apply chars_left_next_le | apply chars_left_fail_le].
Qed.

Lemma chars_left_0_eos (c : ParseContext) : chars_left c = 0 ↔ eos c = true.
Proof. unfold chars_left. destruct (eos c); split; (lia || congruence). Qed.

Lemma skip_spaces_exit (c : ParseContext) :
  eos (skip_spaces c) = true ∨ isspace (_curr (skip_spaces c)) = false.
Proof.
  unfold skip_spaces.
  pose proof (while_exit chars_left (λ ctx, negb (eos ctx) && isspace (_curr ctx)) next) as Hx.
  specialize (Hx (λ s Hs, chars_left_next_lt s
                    (proj1 (negb_true_iff _) (proj1 (andb_prop _ _ Hs))))
                 (chars_left c) c (le_n _)).
  simpl in Hx. apply andb_false_iff in Hx as [Hx|Hx]; [left|right; exact Hx].
  apply negb_false_iff, Hx.
Qed.

(** ** Invariant and progress of the cursor *)

Lemma csteps_refl (c : ParseContext) : Inv c → csteps c c.
Proof. intros Hi. split; auto. Qed.

Lemma csteps_trans (c1 c2 c3 : ParseContext) : csteps c1 c2 → csteps c2 c3 → csteps c1 c3.
Proof. intros [? ? ?] [? ? ?]. split; [assumption|congruence|lia]. Qed.

Lemma steps_refl (c : ParseContext) : Inv c → steps c c.
Proof. intros Hi. split; [apply csteps_refl, Hi|reflexivity]. Qed.

Lemma steps_trans (c1 c2 c3 : ParseContext) : steps c1 c2 → steps c2 c3 → steps c1 c3.
Proof. intros [? ?] [? ?]. split; [eapply csteps_trans; eassumption|congruence]. Qed.

Lemma steps_Inv (c c' : ParseContext) : steps c c' → Inv c'.
Proof. intros [[? ? ?] ?]. assumption. Qed.

Lemma steps_left (c c' : ParseContext) : steps c c' → chars_left c' ≤ chars_left c.
Proof. intros [[? ? ?] ?]. assumption. Qed.

Lemma adv_steps (c c' : ParseContext) : adv c c' → steps c c'.
Proof. intros [? ?]. assumption. Qed.

Lemma adv_then_steps (c1 c2 c3 : ParseContext) : adv c1 c2 → steps c2 c3 → adv c1 c3.
Proof.
  intros [H12 Hp] H23. split; [eapply steps_trans; eassumption|].
  apply steps_left in H23. lia.
Qed.

Lemma steps_then_adv (c1 c2 c3 : ParseContext) : steps c1 c2 → adv c2 c3 → adv c1 c3.
Proof.
  intros H12 [H23 Hp]. split; [eapply steps_trans; eassumption|].
  apply steps_left in H12. lia.
Qed.

Lemma stepper_steps (f : ParseContext → ParseContext) (c0 c : ParseContext) :
  stepper f → steps c0 c → steps c0 (f c).
Proof. intros Hf Hs. eapply steps_trans; [exact Hs|]. apply Hf. eapply steps_Inv, Hs. Qed.

Lemma stepper_adv (f : ParseContext → ParseContext) (c0 c : ParseContext) :
  stepper f → adv c0 c → adv c0 (f c).
Proof.
  intros Hf Ha. eapply adv_then_steps; [exact Ha|]. apply Hf.
  eapply steps_Inv, adv_steps, Ha.
Qed.

Lemma stepper_compose (f g : ParseContext → ParseContext) :
  stepper f → stepper g → stepper (λ c, g (f c)).
Proof. intros Hf Hg c Hi. eapply stepper_steps; [exact Hg|]. apply Hf, Hi. Qed.

Ltac open_ctx c :=
  destruct c as [i p cu f es os om rs tp ec];
  unfold steps, Inv, scopes, chars_left, failed, eos, _end in *; simpl in *.

Ltac frame_stepper :=
  let c := fresh "c" in let Hi := fresh "Hi" in
  intros c Hi; open_ctx c; destruct Hi; repeat split; simpl; auto; lia.

Lemma next_stepper : stepper next.
Proof.
  intros c Hi. split; [split|].
  - unfold next. open_ctx c. destruct Hi as [Hp Hf].
    destruct (is_NUL cu) eqn:Hc; simpl; [split; auto|].
    destruct (p <? String.length i) eqn:Hlt; simpl; [|split; auto].
    apply Nat.ltb_lt in Hlt. split; [lia|].
    intros Hfl. specialize (Hf Hfl). congruence.
  - unfold next. repeat case_match; reflexivity.
  - apply chars_left_next_le.
  - unfold next. repeat case_match; reflexivity.
Qed.

Lemma fail_stepper (msg : string) : stepper (fail msg).
Proof.
  intros c Hi. split; [split|].
  - unfold fail. open_ctx c. destruct Hi as [Hp Hf].
    destruct (empty f) eqn:He; simpl; [split; auto|]. rewrite He. split; auto.
  - unfold fail. case_match; reflexivity.
  - apply chars_left_fail_le.
  - unfold fail. case_match; reflexivity.
Qed.

Lemma chars_left_fail (msg : string) (c : ParseContext) :
  Inv c → chars_left (fail msg c) = 0.
Proof.
  unfold fail. open_ctx c. intros [Hp Hf].
  destruct (empty f) eqn:He; simpl; [reflexivity|].
  rewrite Hf; reflexivity.
Qed.

Lemma eat_stepper (ch : ascii) : stepper (eat ch).
Proof.
  intros c Hi. unfold eat. case_match; [apply next_stepper|apply fail_stepper]; exact Hi.
Qed.

Lemma skip_spaces_stepper : stepper skip_spaces.
Proof.
  intros c Hi. unfold skip_spaces.
  apply (while_ind (steps c)); [|apply steps_refl, Hi].
  intros s Hs _. apply stepper_steps; [apply next_stepper|exact Hs].
Qed.

Lemma skip_stepper (n : nat) : stepper (skip n).
Proof.
  induction n as [|n IH]; intros c Hi; simpl; [apply steps_refl, Hi|].
  eapply steps_trans; [apply next_stepper, Hi|].
  apply IH. eapply steps_Inv, next_stepper, Hi.
Qed.

Lemma push_expression_stepper (n : Node) : stepper (push_expression n).
Proof. frame_stepper. Qed.

Lemma set_expression_stack_stepper (st : list Node) : stepper (set_expression_stack st).
Proof. frame_stepper. Qed.

Lemma set_operator_stack_stepper (st : list Operator_UP) : stepper (set_operator_stack st).
Proof. frame_stepper. Qed.

Lemma operator_mark_stepper (m : nat) : stepper (operator_mark m).
Proof. frame_stepper. Qed.

Lemma set_top_params_stepper (q : Params) : stepper (set_top_params q).
Proof. frame_stepper. Qed.

Lemma record_extractor_call_stepper (text : string) : stepper (record_extractor_call text).
Proof. frame_stepper. Qed.

Lemma pop_expression_stepper : stepper (λ c, snd (pop_expression c)).
Proof.
  intros c Hi. unfold pop_expression. case_match; simpl.
  - apply fail_stepper, Hi.
  - apply set_expression_stack_stepper, Hi.
Qed.

(** The moves that advance the cursor or end the input. *)
Lemma next_adv (c : ParseContext) : Inv c → adv c (next c).
Proof.
  intros Hi. split; [apply next_stepper, Hi|].
  destruct (eos c) eqn:He.
  - right. pose proof (chars_left_next_le c) as Hle.
    apply chars_left_0_eos in He. lia.
  - left. apply chars_left_next_lt, He.
Qed.

Lemma fail_adv (msg : string) (c : ParseContext) : Inv c → adv c (fail msg c).
Proof. intros Hi. split; [apply fail_stepper, Hi|]. right. apply chars_left_fail, Hi. Qed.

Lemma eat_adv (ch : ascii) (c : ParseContext) : Inv c → adv c (eat ch c).
Proof. intros Hi. unfold eat. case_match; [apply next_adv|apply fail_adv]; exact Hi. Qed.

Lemma pair_steps {A : Type} (f : ParseContext → A * ParseContext)
    (c0 c1 c2 : ParseContext) (a : A) :
  stepper (λ c, snd (f c)) → f c1 = (a, c2) → steps c0 c1 → steps c0 c2.
Proof.
  intros Hf E Hs. replace c2 with (snd (f c1)) by (rewrite E; reflexivity).
  apply (stepper_steps (λ c, snd (f c))); assumption.
Qed.

Lemma pair_adv {A : Type} (f : ParseContext → A * ParseContext)
    (c0 c1 c2 : ParseContext) (a : A) :
  stepper (λ c, snd (f c)) → f c1 = (a, c2) → adv c0 c1 → adv c0 c2.
Proof.
  intros Hf E Hs. replace c2 with (snd (f c1)) by (rewrite E; reflexivity).
  apply (stepper_adv (λ c, snd (f c))); assumption.
Qed.

Lemma adv_next_r (c0 c : ParseContext) : steps c0 c → adv c0 (next c).
Proof. intros Hs. eapply steps_then_adv; [exact Hs|]. apply next_adv. eapply steps_Inv, Hs. Qed.

Lemma adv_fail_r (msg : string) (c0 c : ParseContext) : steps c0 c → adv c0 (fail msg c).
Proof. intros Hs. eapply steps_then_adv; [exact Hs|]. apply fail_adv. eapply steps_Inv, Hs. Qed.

Lemma adv_eat_r (ch : ascii) (c0 c : ParseContext) : steps c0 c → adv c0 (eat ch c).
Proof. intros Hs. eapply steps_then_adv; [exact Hs|]. apply eat_adv. eapply steps_Inv, Hs. Qed.

Create HintDb cursor.
#[local] Hint Resolve steps_refl stepper_steps stepper_adv : cursor.
#[local] Hint Resolve next_stepper fail_stepper eat_stepper skip_spaces_stepper skip_stepper
  push_expression_stepper set_expression_stack_stepper set_operator_stack_stepper
  operator_mark_stepper set_top_params_stepper record_extractor_call_stepper
  pop_expression_stepper : cursor.
#[local] Hint Resolve adv_next_r adv_fail_r adv_eat_r | 2 : cursor.
#[local] Hint Resolve adv_steps steps_Inv | 3 : cursor.
#[local] Hint Extern 1 (steps _ ?c2) =>
  match goal with
  | E : ?f ?c1 = (_, c2) |- _ => eapply (pair_steps f _ c1 c2 _); [|exact E|]
  end : cursor.
#[local] Hint Extern 1 (adv _ ?c2) =>
  match goal with
  | E : ?f ?c1 = (_, c2) |- _ => eapply (pair_adv f _ c1 c2 _); [|exact E|]
  end : cursor.

Ltac cursor := eauto 14 with cursor.

(** *** The scanners *)

Lemma parse_string_step_steps (c0 : ParseContext) (st : string * ParseContext) :
  steps c0 (snd st) → steps c0 (snd (parse_string_step st)).
Proof.
  destruct st as [str c]. simpl. intros Hs. unfold parse_string_step.
  repeat case_match; simplify_eq/=; cursor.
Qed.

Lemma parse_string_step_lt (st : string * ParseContext) :
  eos (snd st) = false →
  chars_left (snd (parse_string_step st)) < chars_left (snd st).
Proof.
  destruct st as [str c]. simpl. intros He. unfold parse_string_step.
  assert (Hlt : ∀ c', chars_left c' ≤ chars_left c → chars_left (next c') < chars_left c).
  { intros c' Hle. pose proof (chars_left_next_le c') as Hn.
    destruct (eos c') eqn:He'.
    - apply chars_left_0_eos in He'. unfold chars_left at 2. rewrite He. lia.
    - pose proof (chars_left_next_lt c' He'). lia. }
  pose proof (chars_left_next_le c) as H1.
  pose proof (chars_left_next_le (next c)) as H2.
  pose proof (chars_left_next_le (next (next c))) as H3.
  pose proof (chars_left_fail_le "bad hex quote" (next (next (next c)))) as H4.
  pose proof (chars_left_fail_le "bad quote" (next c)) as H5.
  repeat case_match; simplify_eq/=; apply Hlt; lia.
Qed.

Lemma parse_string_stepper : stepper parse_string.
Proof.
  intros c Hi. unfold parse_string.
  destruct (while _ _ _ _) as [str c1] eqn:E.
  assert (Hs : steps c c1).
  { replace c1 with (snd (while (chars_left (eat "034" c))
      (λ st, negb (eos (snd st)) && negb (Ascii.eqb (get (snd st)) "034"))
      parse_string_step ("", eat "034" c))) by (rewrite E; reflexivity).
    apply (while_ind (λ st, steps c (snd st))); [|simpl; cursor].
    intros st Hs _. apply parse_string_step_steps, Hs. }
  cursor.
Qed.

Lemma parse_string_exit (c : ParseContext) (n : nat) (st : string * ParseContext) :
  chars_left (snd st) ≤ n →
  let st' := while n (λ st, negb (eos (snd st)) && negb (Ascii.eqb (get (snd st)) "034"))
                   parse_string_step st in
  eos (snd st') = true ∨ get (snd st') = "034"%char.
Proof.
  intros Hn st'.
  pose proof (while_exit (λ st, chars_left (snd st))
    (λ st, negb (eos (snd st)) && negb (Ascii.eqb (get (snd st)) "034")) parse_string_step) as Hx.
  specialize (Hx (λ s Hs, parse_string_step_lt s
                    (proj1 (negb_true_iff _) (proj1 (andb_prop _ _ Hs)))) n st Hn).
  fold st' in Hx. simpl in Hx. apply andb_false_iff in Hx as [Hx|Hx].
  - left. apply negb_false_iff, Hx.
  - right. apply negb_false_iff, Ascii.eqb_eq in Hx. exact Hx.
Qed.

Lemma parse_string_adv (c : ParseContext) : Inv c → eos c = false → adv c (parse_string c).
Proof.
  intros Hi He. split; [apply parse_string_stepper, Hi|].
  left. unfold parse_string.
  destruct (while _ _ _ _) as [str c1] eqn:E.
  assert (Hs : chars_left c1 ≤ chars_left (eat "034" c)).
  { replace c1 with (snd (while (chars_left (eat "034" c))
      (λ st, negb (eos (snd st)) && negb (Ascii.eqb (get (snd st)) "034"))
      parse_string_step ("", eat "034" c))) by (rewrite E; reflexivity).
    apply (while_ind (λ st, chars_left (snd st) ≤ chars_left (eat "034" c))); [|simpl; lia].
    intros st Hs Hc. apply andb_prop in Hc as [Hc _]. apply negb_true_iff in Hc.
    pose proof (parse_string_step_lt st Hc). lia. }
  assert (Hf : empty (_failure c) = true).
  { destruct Hi as [_ Hf]. unfold failed in Hf.
    destruct (empty (_failure c)); [reflexivity|]. specialize (Hf eq_refl). congruence. }
  pose proof (chars_left_eat_lt "034" c He Hf).
  change (chars_left (push_expression (nodes.String str) (eat "034" c1)) < chars_left c).
  pose proof (chars_left_eat_le "034" c1).
  assert (chars_left (push_expression (nodes.String str) (eat "034" c1)) = chars_left (eat "034" c1))
    by reflexivity.
  lia.
Qed.

Lemma in_range_not_eos (lo hi : ascii) (c : ParseContext) :
  0 < code lo → in_range lo hi (get c) = true → eos c = false.
Proof.
  unfold in_range, eos, get, is_NUL. intros Hlo Hr.
  apply andb_prop in Hr as [Hr _]. apply Nat.leb_le in Hr.
  destruct (Ascii.eqb (_curr c) NUL) eqn:E; [|reflexivity].
  apply Ascii.eqb_eq in E. rewrite E in Hr. change (code NUL) with 0 in Hr. lia.
Qed.

Lemma is_ident_not_eos (first : bool) (c : ParseContext) :
  is_ident (get c) first = true → eos c = false.
Proof.
  unfold eos, get, is_NUL. intros Hr.
  destruct (Ascii.eqb (_curr c) NUL) eqn:E; [|reflexivity].
  apply Ascii.eqb_eq in E. rewrite E in Hr. destruct first; discriminate Hr.
Qed.

Lemma eqb_not_eos (ch : ascii) (c : ParseContext) :
  ch ≠ NUL → Ascii.eqb (get c) ch = true → eos c = false.
Proof.
  unfold eos, get, is_NUL. intros Hne Hr. apply Ascii.eqb_eq in Hr.
  destruct (Ascii.eqb (_curr c) NUL) eqn:E; [|reflexivity].
  apply Ascii.eqb_eq in E. congruence.
Qed.

Lemma read_digits_stepper (str : string) : stepper (λ c, snd (read_digits (str, c))).
Proof.
  intros c Hi. unfold read_digits. simpl.
  apply (while_ind (λ st, steps c (snd st))); [|simpl; cursor].
  intros st Hs _. simpl. cursor.
Qed.

Lemma read_digits_exit (st : string * ParseContext) :
  in_range "0" "9" (get (snd (read_digits st))) = false.
Proof.
  unfold read_digits.
  apply (while_exit (λ st, chars_left (snd st)) (λ st, in_range "0" "9" (get (snd st)))).
  - intros s Hs. simpl. apply chars_left_next_lt.
    eapply in_range_not_eos; [|exact Hs]. change (code "0") with 48. lia.
  - lia.
Qed.

Lemma read_digits_steps (c0 c1 c2 : ParseContext) (str str' : string) :
  read_digits (str, c1) = (str', c2) → steps c0 c1 → steps c0 c2.
Proof. apply (pair_steps (λ c, read_digits (str, c))), read_digits_stepper. Qed.

Lemma read_digits_adv (c0 c1 c2 : ParseContext) (str str' : string) :
  read_digits (str, c1) = (str', c2) → adv c0 c1 → adv c0 c2.
Proof. apply (pair_adv (λ c, read_digits (str, c))), read_digits_stepper. Qed.

#[local] Hint Resolve read_digits_stepper parse_string_stepper : cursor.
#[local] Hint Extern 1 (steps _ ?c2) =>
  match goal with
  | E : read_digits (_, ?c1) = (_, c2) |- _ => eapply (read_digits_steps _ c1 c2 _ _ E)
  end : cursor.
#[local] Hint Extern 1 (adv _ ?c2) =>
  match goal with
  | E : read_digits (_, ?c1) = (_, c2) |- _ => eapply (read_digits_adv _ c1 c2 _ _ E)
  end : cursor.

Lemma parse_number_stepper : stepper parse_number.
Proof.
  intros c Hi. unfold parse_number.
  repeat (case_match; simplify_eq/=); cursor.
Qed.

Lemma parse_number_adv (c : ParseContext) : Inv c → adv c (parse_number c).
Proof.
  intros Hi. unfold parse_number.
  assert (Ha : adv c (next c)) by (apply next_adv, Hi).
  repeat (case_match; simplify_eq/=); cursor.
Qed.

(** The loop of [get_ident], from the state after the first byte. *)
Lemma get_ident_loop_stepper (str : string) :
  stepper (λ c, snd (while (chars_left c) (λ st, is_ident (get (snd st)) false)
                       (λ st, (push_back (fst st) (get (snd st)), next (snd st))) (str, c))).
Proof.
  intros c Hi.
  apply (while_ind (λ st, steps c (snd st))); [|simpl; cursor].
  intros st Hs _. simpl. cursor.
Qed.

Lemma get_ident_exit (c : ParseContext) :
  is_ident (get (snd (get_ident c))) false = false
  ∨ (fst (get_ident c) = "" ∧ is_ident (get (snd (get_ident c))) true = false).
Proof.
  unfold get_ident. destruct (is_ident (get (skip_spaces c)) true) eqn:E.
  - left.
    apply (while_exit (λ st, chars_left (snd st)) (λ st, is_ident (get (snd st)) false)).
    + intros s Hs. simpl. apply chars_left_next_lt. eapply is_ident_not_eos, Hs.
    + simpl. lia.
  - right. simpl. auto.
Qed.

Lemma get_ident_stepper : stepper (λ c, snd (get_ident c)).
Proof.
  intros c Hi. unfold get_ident. case_match.
  - eapply steps_trans; [|apply get_ident_loop_stepper]; cursor.
  - simpl. cursor.
Qed.

(** A non-empty identifier means that the cursor advanced. *)
Lemma get_ident_adv (c c' : ParseContext) (name : string) :
  Inv c → get_ident c = (name, c') → name ≠ "" → adv c c'.
Proof.
  intros Hi E Hne. unfold get_ident in E. case_match.
  - replace c' with (snd (while (chars_left (next (skip_spaces c)))
        (λ st, is_ident (get (snd st)) false)
        (λ st, (push_back (fst st) (get (snd st)), next (snd st)))
        (push_back "" (get (skip_spaces c)), next (skip_spaces c))))
      by (rewrite E; reflexivity).
    eapply adv_then_steps; [|apply get_ident_loop_stepper]; cursor.
  - simplify_eq.
Qed.

#[local] Hint Resolve get_ident_stepper parse_number_stepper : cursor.

Lemma get_ident_list_step_steps (c0 : ParseContext) (st : list string * ParseContext) :
  steps c0 (snd st) → steps c0 (snd (get_ident_list_step st)).
Proof.
  destruct st as [idents c]. simpl. intros Hs. unfold get_ident_list_step.
  repeat (case_match; simplify_eq/=); cursor.
Qed.

Lemma get_ident_list_stepper : stepper (λ c, snd (get_ident_list c)).
Proof.
  intros c Hi. unfold get_ident_list.
  destruct (while _ _ _ _) as [idents c1] eqn:E. simpl.
  assert (Hs : steps c c1); [|cursor].
  replace c1 with (snd (while (2 * chars_left (skip_spaces (eat "(" (skip_spaces c))) + 1)
      (λ st, negb (eos (snd st)) && negb (Ascii.eqb (get (snd st)) ")"))
      get_ident_list_step ([], skip_spaces (eat "(" (skip_spaces c)))))
    by (rewrite E; reflexivity).
  apply (while_ind (λ st, steps c (snd st))); [|simpl; cursor].
  intros st Hs _. apply get_ident_list_step_steps, Hs.
Qed.

#[local] Hint Resolve get_ident_list_stepper : cursor.

(** *** The stacks and the resolver *)

Lemma apply_operator_steps (c0 c : ParseContext) :
  steps c0 c → post (steps c0) (apply_operator c).
Proof.
  intros Hs. unfold apply_operator, pop_operator.
  destruct (_operator_stack c) as [|op rest]; simpl; [exact I|].
  repeat (case_match; simplify_eq/=). cursor.
Qed.

Lemma push_operator_loop_steps (n : nat) (node : Operator_UP) (c0 c : ParseContext) :
  steps c0 c → post (steps c0) (push_operator_loop n node c).
Proof.
  revert c; induction n as [|n IH]; intros c Hs; simpl; [exact Hs|].
  repeat case_match; simpl; try exact Hs.
  apply post_bind. eapply post_mono; [apply apply_operator_steps, Hs|].
  intros c' Hs'. apply IH, Hs'.
Qed.

Lemma push_operator_steps (node : Operator_UP) (c0 c : ParseContext) :
  steps c0 c → post (steps c0) (push_operator node c).
Proof.
  intros Hs. unfold push_operator. apply post_bind.
  eapply post_mono; [apply push_operator_loop_steps, Hs|].
  intros c' Hs'. simpl. cursor.
Qed.

Lemma apply_operators_steps (n : nat) (c0 c : ParseContext) :
  steps c0 c → post (steps c0) (apply_operators n c).
Proof.
  revert c; induction n as [|n IH]; intros c Hs; simpl; [exact Hs|].
  case_match; simpl; [|exact Hs].
  apply post_bind. eapply post_mono; [apply apply_operator_steps, Hs|].
  intros c' Hs'. apply IH, Hs'.
Qed.

Lemma parse_operator_steps (c0 c : ParseContext) :
  steps c0 c → post (steps c0) (parse_operator c).
Proof.
  intros Hs. unfold parse_operator.
  destruct (OperatorRepo_create _) as [[op n]|]; simpl; [|cursor].
  apply post_bind. eapply post_mono; [apply (push_operator_steps _ c0); cursor|].
  intros c' Hs'. simpl. cursor.
Qed.

Lemma set_resolver_steps (rc rc' : ResolveContext) (c0 c : ParseContext) :
  resolver c = Done rc →
  _symbol_extractor rc' = _symbol_extractor rc → _let_names rc' = _let_names rc →
  steps c0 c → steps c0 (set_resolver rc' c).
Proof.
  intros Hr He Hn [[[Hp Hf] Hin Hl] Hsc]. unfold resolver in Hr.
  destruct c as [i p cu f es os om rs tp ec]. simpl in *.
  destruct rs as [|rc1 rest]; [discriminate|]. simplify_eq.
  split; [split; [split|..]|]; simpl; auto.
  rewrite <- Hsc. unfold scopes. simpl. rewrite He, Hn. reflexivity.
Qed.

Lemma resolve_parameter_steps (name : string) (c0 c : ParseContext) :
  steps c0 c → post (λ r, steps c0 (snd r)) (resolve_parameter name c).
Proof.
  intros Hs. unfold resolve_parameter.
  destruct (resolver c) as [rc| |] eqn:Hr; simpl; try exact I.
  - destruct (_params_ref rc) as [|q].
    + destruct (resolve (top_params c) name) as [id q']. case_match; simpl; cursor.
    + destruct (resolve q name) as [id q'].
      case_match; simpl; eapply set_resolver_steps; eauto.
  - unfold resolver in Hr. case_match; discriminate.
Qed.

Lemma restore_input_mark_steps (c0 c : ParseContext) :
  Inv c0 → steps c0 c → steps c0 (restore_input_mark (get_input_mark c0) c).
Proof.
  intros [Hp0 Hf0] [[[Hp Hf] Hin Hl] Hsc].
  unfold restore_input_mark, get_input_mark.
  destruct c as [i p cu f es os om rs tp ec].
  destruct c0 as [i0 p0 cu0 f0 es0 os0 om0 rs0 tp0 ec0].
  unfold steps, Inv, scopes, chars_left, failed, eos, _end in *. simpl in *. subst i0.
  destruct (is_NUL cu) eqn:Hcu; destruct (is_NUL cu0) eqn:Hcu0; simpl;
    (split; [split; [split|..]|]);
    unfold Inv, scopes, chars_left, failed, eos, _end; simpl;
    rewrite ?Hcu0; auto; try lia; try (intros; congruence).
Qed.

Lemma extraction_adv (c : ParseContext) (text : string) (d : Z) :
  Inv c → eos c = false →
  (0 <? d)%Z && (d <=? Z.of_nat (String.length (_input c)) - Z.of_nat (_pos c))%Z = true →
  adv c (set_cursor (_pos c + Z.to_nat d)
                    (if _pos c + Z.to_nat d <? String.length (_input c)
                     then byte_at (_input c) (_pos c + Z.to_nat d) else NUL)
                    (record_extractor_call text c)).
Proof.
  intros [Hp Hf] He Hd. apply andb_prop in Hd as [Hd1 Hd2].
  apply Z.ltb_lt in Hd1. apply Z.leb_le in Hd2.
  destruct c as [i p cu f es os om rs tp ec].
  unfold adv, steps, Inv, scopes, chars_left, failed, eos, _end in *. simpl in *.
  rewrite He. split; [split; [split; [split|..]|]|];
    unfold Inv, scopes, chars_left, failed, eos, _end; simpl; rewrite ?He; auto; try lia.
  - intros Hfl. specialize (Hf Hfl). congruence.
  - case_match; lia.
  - left. case_match; lia.
Qed.

Lemma extract_symbol_spec (name : string) (c0 c : ParseContext) :
  Inv c0 → steps c0 c → (name ≠ "" → adv c0 c) →
  post (λ r, steps c0 (snd r) ∧ (fst r ≠ "" → adv c0 (snd r)))
       (extract_symbol name (get_input_mark c0) c).
Proof.
  intros Hi0 Hs Hname. unfold extract_symbol.
  pose proof (restore_input_mark_steps c0 c Hi0 Hs) as Hs2.
  set (c2 := restore_input_mark (get_input_mark c0) c) in *. clearbody c2.
  destruct (resolver c) as [rc| |] eqn:Hr; simpl; try exact I.
  - destruct (_symbol_extractor rc) as [ext|]; simpl; [|auto].
    destruct (eos c2) eqn:He2; simpl; [split; [exact Hs2|congruence]|].
    destruct (ext _) as [[d|] sym]; simpl.
    + case_match; simpl.
      * unfold _end in *; simpl in *.
        pose proof (extraction_adv c2 (str_drop (_pos c2) (_input c2)) d
                      (steps_Inv _ _ Hs2) He2 ltac:(assumption)) as Ha.
        assert (adv c0 (set_cursor (_pos c2 + Z.to_nat d)
          (if _pos c2 + Z.to_nat d <? String.length (_input c2)
           then byte_at (_input c2) (_pos c2 + Z.to_nat d) else NUL)
          (record_extractor_call (str_drop (_pos c2) (_input c2)) c2)))
          by (eapply steps_then_adv; [exact Hs2|exact Ha]).
        split; [|intros _]; cursor.
      * split; [cursor|congruence].
    + split; [cursor|congruence].
  - unfold resolver in Hr. case_match; discriminate.
Qed.

(** ** The sub-parsers keep the invariant and consume fuel only by progress *)

Lemma good_mono (k k' : nat) (f : ParseContext → outcome ParseContext) :
  k' ≤ k → good k f → good k' f.
Proof. intros Hk Hg c Hi Hl. apply Hg; [exact Hi|lia]. Qed.

Lemma good_run (k : nat) (f : ParseContext → outcome ParseContext) (c0 c : ParseContext) :
  good k f → chars_left c0 < k → steps c0 c →
  post (λ c', steps c0 c' ∧ adv c c') (f c).
Proof.
  intros Hg Hk Hs. eapply post_mono.
  - apply Hg; [eapply steps_Inv, Hs|]. apply steps_left in Hs. lia.
  - intros c' Ha. split; [|exact Ha]. eapply steps_trans; [exact Hs|apply adv_steps, Ha].
Qed.

Ltac run_step c0 :=
  match goal with
  | Hpe : good _ ?pe |- post _ (mbind _ (?pe ?x)) =>
      apply post_bind; eapply post_mono;
      [ eapply (good_run _ _ c0 _ Hpe); [assumption|cursor]
      | let c' := fresh "c" in let Hs := fresh "Hs" in let Ha := fresh "Ha" in
        intros c' [Hs Ha]; simpl ]
  | |- post _ (match ?e with (_, _) => _ end) => destruct e eqn:?
  | |- post _ (if ?b then _ else _) => destruct b eqn:?
  | |- post _ (match ?e with Some _ => _ | None => _ end) => destruct e eqn:?
  | |- post _ (Done _) => simpl
  end.
Ltac run c0 := repeat (run_step c0).
Ltac run_pe c0 c' Hs Ha :=
  match goal with
  | Hpe : good _ ?pe |- post _ (mbind _ (?pe ?x)) =>
      apply post_bind; eapply post_mono;
      [ eapply (good_run _ _ c0 _ Hpe); [assumption|cursor]
      | intros c' [Hs Ha]; cbv beta ]
  end.

(** *** Entering and leaving a scope *)

Lemma steps_csteps (c c' : ParseContext) : steps c c' → csteps c c'.
Proof. intros [? ?]. assumption. Qed.

Lemma push_let_binding_spec (name : string) (c : ParseContext) :
  Inv c →
  post (λ c', csteps c c' ∧ chars_left c' = chars_left c ∧
              ∃ ext names rest, scopes c = (ext, names) :: rest
                                ∧ scopes c' = (ext, (names ++ [name])%list) :: rest)
       (push_let_binding name c).
Proof.
  intros Hi. unfold push_let_binding, resolver.
  destruct c as [i p cu f es os om rs tp ec]. simpl.
  destruct rs as [|rc rest]; simpl; [exact I|].
  split; [split; auto|split; [reflexivity|]].
  exists (_symbol_extractor rc), (_let_names rc),
    ((λ rc, (_symbol_extractor rc, _let_names rc)) <$> rest).
  split; reflexivity.
Qed.

Lemma pop_let_binding_spec (c : ParseContext) (ext : option SymbolExtractor)
    (names : list string) (name : string) (rest : list (option SymbolExtractor * list string)) :
  Inv c → scopes c = (ext, (names ++ [name])%list) :: rest →
  post (λ c', csteps c c' ∧ scopes c' = (ext, names) :: rest) (pop_let_binding c).
Proof.
  intros Hi Hsc. unfold pop_let_binding, resolver, pop_let_name.
  destruct c as [i p cu f es os om rs tp ec]. unfold scopes in Hsc. simpl in *.
  destruct rs as [|rc rs']; simpl in *; [exact I|].
  injection Hsc as Hext Hnames Hrest.
  rewrite Hnames. case_bool_decide as Hnil; simpl.
  { destruct names; discriminate Hnil. }
  split; [split; auto|]. unfold scopes. simpl.
  rewrite removelast_last, Hext, Hrest. reflexivity.
Qed.

Lemma push_resolve_context_spec (q : ParamsRef) (ext : option SymbolExtractor)
    (c : ParseContext) :
  Inv c →
  csteps c (push_resolve_context q ext c)
  ∧ chars_left (push_resolve_context q ext c) = chars_left c
  ∧ scopes (push_resolve_context q ext c) = (ext, []) :: scopes c.
Proof.
  intros Hi. destruct c as [i p cu f es os om rs tp ec].
  split; [split; auto|split; reflexivity].
Qed.

Lemma pop_resolve_context_spec (c : ParseContext)
    (top : option SymbolExtractor * list string)
    (rest : list (option SymbolExtractor * list string)) :
  Inv c → scopes c = top :: rest →
  post (λ c', csteps c c' ∧ scopes c' = rest) (pop_resolve_context c).
Proof.
  intros Hi Hsc. unfold pop_resolve_context.
  destruct c as [i p cu f es os om rs tp ec]. unfold scopes in Hsc. simpl in *.
  destruct rs as [|rc rs']; simpl in *; [exact I|].
  injection Hsc as _ Hrest. split; [split; auto|exact Hrest].
Qed.

Section SubParserProperties.
Variable pe : ParseContext → outcome ParseContext.
Variable k : nat.
Hypothesis Hpe : good k pe.

Lemma parse_if_steps (c : ParseContext) :
  Inv c → chars_left c < k → post (steps c) (parse_if pe c).
Proof.
  intros Hi Hk. unfold parse_if. run c.
  repeat (case_match; simplify_eq/=); cursor.
Qed.

Lemma parse_call_from_steps (todo i : nat) (args : list Node) (c0 c : ParseContext) :
  chars_left c0 < k → steps c0 c →
  post (λ r, steps c0 (snd r)) (parse_call_from pe todo i args c).
Proof.
  intros Hk. revert i args c. induction todo as [|todo IH]; intros i args c Hs; simpl.
  - exact Hs.
  - destruct (0 <? i); run c0; apply IH; cursor.
Qed.

Lemma parse_call_steps (name : string) (n : nat) (c : ParseContext) :
  Inv c → chars_left c < k → post (steps c) (parse_call pe name n c).
Proof.
  intros Hi Hk. unfold parse_call. apply post_bind.
  eapply post_mono; [apply (parse_call_from_steps _ _ _ c); cursor|].
  intros [args c'] Hs. simpl in *. cursor.
Qed.

Lemma parse_tensor_sum_steps (c : ParseContext) :
  Inv c → chars_left c < k → post (steps c) (parse_tensor_sum pe c).
Proof. intros Hi Hk. unfold parse_tensor_sum. run c; cursor. Qed.

Lemma parse_let_steps (c : ParseContext) :
  Inv c → chars_left c < k → post (steps c) (parse_let pe c).
Proof.
  intros Hi Hk. unfold parse_let.
  destruct (get_ident c) as [name c1] eqn:E1.
  run_pe c c2 Hs2 Ha2.
  destruct (pop_expression c2) as [value c3] eqn:E3.
  set (c4 := eat "," c3).
  assert (Hs4 : steps c c4) by (subst c4; cursor).
  apply post_bind. eapply post_mono; [apply push_let_binding_spec; cursor|].
  intros c5 (Hc5 & Hl5 & ext & names & rest & Hsc4 & Hsc5). simpl.
  assert (Hi5 : Inv c5) by (destruct Hc5; assumption).
  apply post_bind. eapply post_mono.
  { apply Hpe; [exact Hi5|]. apply steps_left in Hs4. lia. }
  intros c6 Ha6. simpl.
  destruct (pop_expression c6) as [expr c7] eqn:E7.
  assert (Hs7 : steps c5 c7) by (apply adv_steps in Ha6; cursor).
  apply post_bind. eapply post_mono.
  { apply (pop_let_binding_spec c7 ext names name rest); [cursor|].
    destruct Hs7 as [_ ->]. exact Hsc5. }
  intros c8 [Hc8 Hsc8]. simpl.
  apply (stepper_steps (push_expression _)); [cursor|].
  split.
  - eapply csteps_trans; [apply steps_csteps, Hs4|].
    eapply csteps_trans; [exact Hc5|].
    eapply csteps_trans; [apply steps_csteps, Hs7|exact Hc8].
  - rewrite Hsc8, <- Hsc4. apply Hs4.
Qed.

Lemma parse_lambda_steps (c : ParseContext) :
  Inv c → chars_left c < k → post (λ r, steps c (snd r)) (parse_lambda pe c).
Proof.
  intros Hi Hk. unfold parse_lambda.
  destruct (get_ident_list _) as [param_names c1] eqn:E1.
  assert (Hs1 : steps c c1) by cursor.
  destruct (ExplicitParams param_names) as [params| |] eqn:Ep; simpl; try exact I.
  2:{ unfold ExplicitParams in Ep. clear -Ep. exfalso.
      revert Ep. generalize (mkParams Explicit ∅).
      induction param_names as [|x l IH]; intros q; simpl; [discriminate|].
      unfold assert. case_match; simpl; [apply IH|discriminate]. }
  destruct (push_resolve_context_spec (LambdaParams params) None c1) as (Hc2 & Hl2 & Hsc2);
    [cursor|].
  set (c2 := push_resolve_context (LambdaParams params) None c1) in *. clearbody c2.
  assert (Hi2 : Inv c2) by (destruct Hc2; assumption).
  set (c3 := eat "(" (skip_spaces c2)).
  assert (Hs3 : steps c2 c3) by (subst c3; cursor).
  apply post_bind. eapply post_mono.
  { apply Hpe; [cursor|]. apply steps_left in Hs1, Hs3. lia. }
  intros c4 Ha4. simpl.
  assert (Hs4 : steps c2 c4) by (eapply steps_trans; [exact Hs3|apply adv_steps, Ha4]).
  assert (Hs5 : steps c2 (eat ")" c4)) by cursor.
  apply post_bind. eapply post_mono.
  { apply (pop_resolve_context_spec _ (None, []) (scopes c1)); [cursor|].
    destruct Hs5 as [_ ->]. exact Hsc2. }
  intros c6 [Hc6 Hsc6]. simpl.
  destruct (pop_expression c6) as [lambda_root c7] eqn:E7. simpl.
  eapply (pair_steps pop_expression _ c6 c7 _); [cursor|exact E7|].
  split.
  - eapply csteps_trans; [apply steps_csteps, Hs1|].
    eapply csteps_trans; [exact Hc2|].
    eapply csteps_trans; [apply steps_csteps, Hs5|exact Hc6].
  - rewrite Hsc6. apply Hs1.
Qed.

Lemma parse_tensor_map_steps (c : ParseContext) :
  Inv c → chars_left c < k → post (steps c) (parse_tensor_map pe c).
Proof.
  intros Hi Hk. unfold parse_tensor_map.
  run_pe c c1 Hs1 Ha1.
  destruct (pop_expression c1) as [child c2] eqn:E2.
  assert (Hs3 : steps c (eat "," c2)) by cursor.
  apply post_bind. eapply post_mono.
  { apply parse_lambda_steps; [cursor|]. apply steps_left in Hs3. lia. }
  intros [lambda c4] Hs4. simpl in *.
  assert (steps c c4) by (eapply steps_trans; [exact Hs3|exact Hs4]).
  case_match; simpl; cursor.
Qed.

Lemma parse_tensor_join_steps (c : ParseContext) :
  Inv c → chars_left c < k → post (steps c) (parse_tensor_join pe c).
Proof.
  intros Hi Hk. unfold parse_tensor_join.
  run_pe c c1 Hs1 Ha1.
  destruct (pop_expression c1) as [lhs c2] eqn:E2.
  run_pe c c3 Hs3 Ha3.
  destruct (pop_expression c3) as [rhs c4] eqn:E4.
  assert (Hs5 : steps c (eat "," c4)) by cursor.
  apply post_bind. eapply post_mono.
  { apply parse_lambda_steps; [cursor|]. apply steps_left in Hs5. lia. }
  intros [lambda c6] Hs6. simpl in *.
  assert (steps c c6) by (eapply steps_trans; [exact Hs5|exact Hs6]).
  case_match; simpl; cursor.
Qed.

Lemma eat_matching_lt (ch : ascii) (c : ParseContext) :
  ch ≠ NUL → Ascii.eqb (get c) ch = true → chars_left (eat ch c) < chars_left c.
Proof.
  intros Hne Hg. unfold eat. unfold get in Hg. rewrite Hg.
  apply chars_left_next_lt. eapply eqb_not_eos; eassumption.
Qed.

Lemma try_parse_call_spec (name : string) (c : ParseContext) :
  Inv c → chars_left c ≤ k →
  post (λ r, steps c (snd r) ∧ (fst r = true → adv c (snd r))) (try_parse_call pe name c).
Proof.
  intros Hi Hk. unfold try_parse_call.
  destruct (Ascii.eqb (get (skip_spaces c)) "(") eqn:Hg; simpl;
    [|split; [cursor|discriminate]].
  set (c2 := eat "(" (skip_spaces c)).
  assert (Ha2 : adv c c2) by (subst c2; cursor).
  assert (Hl2 : chars_left c2 < k).
  { pose proof (eat_matching_lt "(" (skip_spaces c) ltac:(discriminate) Hg).
    pose proof (steps_left c (skip_spaces c) ltac:(cursor)). subst c2. lia. }
  assert (Hi2 : Inv c2) by cursor.
  assert (Hclose : ∀ r, post (steps c2) r →
            post (λ r, steps c r.2 ∧ (r.1 = true → adv c r.2))
                 (ctx ← r; Done (true, eat ")" ctx))).
  { intros r Hr. apply post_bind. eapply post_mono; [exact Hr|].
    intros c' Hs'. simpl.
    assert (adv c (eat ")" c')) by (eapply adv_then_steps; [exact Ha2|cursor]).
    split; [cursor|auto]. }
  clearbody c2.
  repeat case_match; try apply Hclose;
    auto using parse_if_steps, parse_let_steps, parse_call_steps,
               parse_tensor_map_steps, parse_tensor_join_steps, parse_tensor_sum_steps.
  simpl. split; [|discriminate]. apply adv_steps in Ha2. cursor.
Qed.

Lemma resolve_let_ref_post {Q : Z → Prop} (name : string) (c : ParseContext) :
  (∀ id, Q id) → post Q (resolve_let_ref name c).
Proof.
  intros HQ. unfold resolve_let_ref, resolver. case_match; simpl; auto.
Qed.

Lemma parse_symbol_spec (name : string) (c0 c : ParseContext) :
  Inv c0 → steps c0 c → (name ≠ "" → adv c0 c) →
  post (λ r, steps c0 r.2 ∧ (r.1.2 ≠ "" → adv c0 r.2))
       (parse_symbol name (get_input_mark c0) c).
Proof.
  intros Hi0 Hs Ha. unfold parse_symbol.
  apply post_bind. apply resolve_let_ref_post. intros id.
  case_match; simpl; [split; assumption|].
  apply post_bind. eapply post_mono; [apply extract_symbol_spec; eassumption|].
  intros [name' c3] [Hs3 Ha3]. simpl in *.
  apply post_bind. eapply post_mono; [apply (resolve_parameter_steps name' c3 c3); cursor|].
  intros [id' c4] Hs4. simpl in *. split.
  - eapply steps_trans; eassumption.
  - intros Hn. eapply adv_then_steps; [apply Ha3, Hn|exact Hs4].
Qed.

Lemma parse_symbol_or_call_adv (c : ParseContext) :
  Inv c → chars_left c ≤ k → post (adv c) (parse_symbol_or_call pe c).
Proof.
  intros Hi Hk. unfold parse_symbol_or_call.
  destruct (get_ident c) as [name c1] eqn:E1.
  assert (Hs1 : steps c c1) by cursor.
  assert (Ha1 : name ≠ "" → adv c c1) by (intros; eapply get_ident_adv; eassumption).
  apply post_bind. eapply post_mono.
  { apply try_parse_call_spec; [cursor|]. apply steps_left in Hs1. lia. }
  intros [called c2] [Hs2 Ha2]. simpl in *.
  assert (Hs2' : steps c c2) by (eapply steps_trans; eassumption).
  destruct called; simpl.
  { eapply steps_then_adv; [exact Hs1|auto]. }
  assert (Ha2' : name ≠ "" → adv c c2).
  { intros Hn. eapply adv_then_steps; [apply Ha1, Hn|exact Hs2]. }
  apply post_bind. eapply post_mono; [apply parse_symbol_spec; eassumption|].
  intros [[id name'] c'] [Hs' Ha']. simpl in *.
  destruct (empty name') eqn:Hem; simpl; [cursor|].
  assert (name' ≠ "") by (intros ->; discriminate).
  case_match; simpl; cursor.
Qed.

Lemma parse_array_loop_steps (rounds size : nat) (array : list Node) (c : ParseContext) :
  Inv c → chars_left c < k → chars_left c ≤ rounds →
  post (λ r, steps c (snd r)) (parse_array_loop pe rounds size array c).
Proof.
  revert size array c. induction rounds as [|rounds IH]; intros size array c Hi Hk Hr.
  - simpl. destruct (eos c) eqn:He; simpl; [cursor|].
    apply chars_left_0_eos in He || (unfold chars_left in Hr; rewrite He in Hr; lia).
  - simpl. destruct (negb (eos c) && _) eqn:Hc; simpl; [|cursor].
    set (c1 := if 1 <? S size then eat "," c else c).
    assert (Hs1 : steps c c1) by (subst c1; case_match; cursor).
    clearbody c1.
    run_pe c c2 Hs2 Ha2.
    destruct (pop_expression c2) as [node c3] eqn:E3.
    assert (Hs3 : steps c c3) by cursor.
    assert (Hl3 : chars_left c3 ≤ rounds).
    { destruct Ha2 as [_ Hp]. apply steps_left in Hs1.
      pose proof (steps_left c2 c3 ltac:(cursor)). lia. }
    eapply post_mono.
    + apply IH; [cursor| |exact Hl3]. apply steps_left in Hs3. lia.
    + intros r Hs'. eapply steps_trans; eassumption.
Qed.

Lemma parse_array_adv (rounds : nat) (c : ParseContext) :
  Inv c → Ascii.eqb (get c) "[" = true → chars_left c ≤ k → chars_left c ≤ S rounds →
  post (adv c) (parse_array pe rounds c).
Proof.
  intros Hi Hg Hk Hr. unfold parse_array.
  pose proof (eat_matching_lt "[" c ltac:(discriminate) Hg) as Hlt.
  set (c2 := skip_spaces (eat "[" c)).
  assert (Ha2 : adv c c2) by (subst c2; cursor).
  assert (Hl2 : chars_left c2 ≤ chars_left (eat "[" c)).
  { subst c2. apply steps_left. cursor. }
  clearbody c2.
  apply post_bind. eapply post_mono.
  { apply (parse_array_loop_steps rounds 0 [] c2); [cursor|lia|lia]. }
  intros [array c3] Hs3. simpl in *.
  eapply adv_then_steps; [exact Ha2|]. cursor.
Qed.

Lemma parse_value_body_adv (pv : ParseContext → outcome ParseContext)
    (rounds : nat) (c : ParseContext) :
  good k pv → Inv c → chars_left c ≤ k → chars_left c ≤ S rounds →
  post (adv c) (parse_value_body pe pv rounds c).
Proof.
  intros Hpv Hi Hk Hr. unfold parse_value_body.
  set (c1 := skip_spaces c).
  assert (Hs1 : steps c c1) by (subst c1; cursor).
  assert (Hl1 : chars_left c1 ≤ chars_left c) by (apply steps_left, Hs1).
  clearbody c1.
  assert (Hnext : ∀ ch, ch ≠ NUL → Ascii.eqb (get c1) ch = true →
            adv c (next c1) ∧ chars_left (next c1) < k).
  { intros ch Hne Hg. split; [cursor|].
    pose proof (chars_left_next_lt c1 (eqb_not_eos ch c1 Hne Hg)). lia. }
  destruct (Ascii.eqb (get c1) "-") eqn:H1.
  { destruct (Hnext "-"%char ltac:(discriminate) H1) as [Ha Hl].
    apply post_bind. eapply post_mono; [apply Hpv; [cursor|exact Hl]|].
    intros c2 Ha2. simpl. destruct (pop_expression c2) as [child c3] eqn:E3. simpl.
    eapply adv_then_steps; [exact Ha|]. apply adv_steps in Ha2. cursor. }
  destruct (Ascii.eqb (get c1) "!") eqn:H2.
  { destruct (Hnext "!"%char ltac:(discriminate) H2) as [Ha Hl].
    apply post_bind. eapply post_mono; [apply Hpv; [cursor|exact Hl]|].
    intros c2 Ha2. simpl. destruct (pop_expression c2) as [child c3] eqn:E3. simpl.
    eapply adv_then_steps; [exact Ha|]. apply adv_steps in Ha2. cursor. }
  destruct (Ascii.eqb (get c1) "(") eqn:H3.
  { destruct (Hnext "("%char ltac:(discriminate) H3) as [Ha Hl].
    apply post_bind. eapply post_mono; [apply Hpe; [cursor|exact Hl]|].
    intros c2 Ha2. simpl.
    eapply adv_then_steps; [exact Ha|]. apply adv_steps in Ha2. cursor. }
  destruct (Ascii.eqb (get c1) "[") eqn:H4.
  { eapply post_mono; [apply parse_array_adv; [cursor|exact H4|lia|lia]|].
    intros c2 Ha2. eapply steps_then_adv; eassumption. }
  destruct (Ascii.eqb (get c1) "034") eqn:H5.
  { simpl. eapply steps_then_adv; [exact Hs1|].
    apply parse_string_adv; [cursor|]. eapply eqb_not_eos; [|exact H5]. discriminate. }
  destruct (isdigit (get c1)) eqn:H6.
  { simpl. eapply steps_then_adv; [exact Hs1|]. apply parse_number_adv. cursor. }
  eapply post_mono; [apply parse_symbol_or_call_adv; [cursor|lia]|].
  intros c2 Ha2. eapply steps_then_adv; eassumption.
Qed.

End SubParserProperties.

(** ** The recursion of the parser *)

Lemma parse_expression_enter_good (k : nat)
    (loop : nat → ParseContext → outcome ParseContext) :
  (∀ old_mark, good k (loop old_mark)) → good k (parse_expression_enter loop).
Proof.
  intros Hl c Hi Hk. unfold parse_expression_enter.
  assert (Hs : steps c (operator_mark (num_operators c) c)) by cursor.
  eapply post_mono.
  - apply Hl; [cursor|]. apply steps_left in Hs. lia.
  - intros c' Ha. eapply steps_then_adv; eassumption.
Qed.

Lemma parse_recursion_good (k : nat) :
  (∀ fuel, 2 * k ≤ fuel → good k (parse_value fuel))
  ∧ (∀ fuel old_mark, 2 * k + 1 ≤ fuel → good k (parse_expression_loop fuel old_mark)).
Proof.
  induction k as [|k [IHv IHl]].
  { split; intros; intros c _ Hl; lia. }
  assert (Hv : ∀ fuel, 2 * S k ≤ fuel → good (S k) (parse_value fuel)).
  { intros fuel Hf c Hi Hl. destruct fuel as [|fuel]; [lia|]. simpl.
    apply (parse_value_body_adv _ k).
    - apply parse_expression_enter_good. intros old. apply IHl. lia.
    - apply IHv. lia.
    - exact Hi.
    - lia.
    - lia. }
  split; [exact Hv|].
  intros fuel old Hf c Hi Hl. destruct fuel as [|fuel]; [lia|]. simpl.
  apply post_bind. eapply post_mono; [apply (Hv fuel); [lia|exact Hi|exact Hl]|].
  intros c1 Ha1. simpl.
  set (c2 := skip_spaces c1).
  assert (Ha2 : adv c c2) by (subst c2; cursor).
  destruct (at_expression_end c2) eqn:Hend.
  - apply post_bind. eapply post_mono; [apply (apply_operators_steps _ c2 c2); cursor|].
    intros c3 Hs3. simpl. eapply adv_then_steps; [exact Ha2|]. cursor.
  - assert (He2 : eos c2 = false).
    { unfold at_expression_end in Hend. destruct (eos c2); [discriminate|reflexivity]. }
    apply post_bind. eapply post_mono; [apply (parse_operator_steps c2 c2); cursor|].
    intros c3 Hs3. simpl.
    assert (Hl3 : chars_left c3 < k).
    { destruct Ha2 as [_ Hp]. apply steps_left in Hs3.
      assert (chars_left c2 ≠ 0) by (rewrite chars_left_0_eos; congruence). lia. }
    eapply post_mono; [apply (IHl fuel old); [lia|cursor|exact Hl3]|].
    intros c4 Ha4. eapply adv_then_steps; [exact Ha2|].
    eapply steps_trans; [exact Hs3|apply adv_steps, Ha4].
Qed.

Lemma ParseContext_new_Inv (params : Params) (str : string)
    (symbol_extractor : option SymbolExtractor) :
  Inv (ParseContext_new params str symbol_extractor)
  ∧ chars_left (ParseContext_new params str symbol_extractor) ≤ S (String.length str).
Proof.
  unfold Inv, chars_left, failed, eos, _end. simpl. repeat split; try lia; try discriminate.
  case_match; lia.
Qed.

(** After [parse_expression], with the fuel of the entry points: no fuel
    shortage, the same input, and the cursor within it. *)
Lemma parse_expression_post (params : Params) (str : string)
    (symbol_extractor : option SymbolExtractor) (fuel : nat) :
  2 * String.length str + 5 ≤ fuel →
  post (λ c, _input c = str ∧ _pos c ≤ String.length str)
       (parse_expression fuel (ParseContext_new params str symbol_extractor)).
Proof.
  intros Hf. destruct (ParseContext_new_Inv params str symbol_extractor) as [Hi Hl].
  eapply post_mono.
  - apply (parse_expression_enter_good (String.length str + 2)); [|exact Hi|lia].
    intros old. apply parse_recursion_good. lia.
  - intros c [[[[Hp _] Hin _] _] _]. simpl in Hin. unfold _end in Hp.
    rewrite Hin in Hp. auto.
Qed.

(** [parse_function] never runs out of the fuel the entry points give it. *)
Lemma parse_function_terminates (params : Params) (expression : string)
    (symbol_extractor : option SymbolExtractor) :
  parse_function (parse_fuel expression) params expression symbol_extractor ≠ OutOfFuel.
Proof.
  unfold parse_function.
  pose proof (parse_expression_post params expression symbol_extractor
                (parse_fuel expression)) as Hp.
  destruct (parse_expression _ _); simpl in *.
  - case_match; discriminate.
  - discriminate.
  - intros _. apply Hp. unfold parse_fuel. lia.
Qed.

End Properties.

(** ** The remaining loop bounds *)

Lemma while_exit_inv {S : Type} (I : S → Prop) (mu : S → nat) (cond : S → bool)
    (body : S → S) :
  (∀ s, I s → cond s = true → I (body s) ∧ mu (body s) < mu s) →
  ∀ n s, I s → mu s ≤ n → cond (while n cond body s) = false.
Proof.
  intros Hdec n; induction n as [|n IH]; intros s Hi Hn; simpl.
  - destruct (cond s) eqn:Hc; [|reflexivity].
    destruct (Hdec s Hi Hc). lia.
  - destruct (cond s) eqn:Hc; [|exact Hc].
    destruct (Hdec s Hi Hc). apply IH; [assumption|lia].
Qed.

Section LoopBounds.
Context `{Externals}.

(** [get_ident_list]: only the first round can read an identifier without
    moving the cursor; every later round starts by eating a comma. *)
Lemma get_ident_list_exit (c : ParseContext) :
  Inv c →
  let st := while (2 * chars_left c + 1)
              (λ st, negb (eos (snd st)) && negb (Ascii.eqb (get (snd st)) ")"))
              get_ident_list_step ([], c) in
  eos (snd st) = true ∨ get (snd st) = ")"%char.
Proof.
  intros Hi st.
  pose proof (while_exit_inv (λ st : list string * ParseContext, Inv (snd st))
    (λ st, 2 * chars_left (snd st) + (if bool_decide (fst st = []) then 1 else 0))
    (λ st, negb (eos (snd st)) && negb (Ascii.eqb (get (snd st)) ")"))
    get_ident_list_step) as Hx.
  assert (Hdec : ∀ s : list string * ParseContext,
    Inv (snd s) →
    negb (eos (snd s)) && negb (Ascii.eqb (get (snd s)) ")") = true →
    Inv (snd (get_ident_list_step s))
    ∧ 2 * chars_left (snd (get_ident_list_step s))
      + (if bool_decide (fst (get_ident_list_step s) = []) then 1 else 0)
      < 2 * chars_left (snd s) + (if bool_decide (fst s = []) then 1 else 0)).
  { intros [idents c1] Hi1 Hc. simpl in *.
    apply andb_prop in Hc as [He _]. apply negb_true_iff in He.
    split.
    - eapply steps_Inv. apply (get_ident_list_step_steps c1 (idents, c1)).
      apply steps_refl, Hi1.
    - unfold get_ident_list_step.
      destruct (get_ident _) as [ident c2] eqn:E. simpl.
      rewrite (bool_decide_eq_false_2 ((idents ++ [ident])%list = []))
        by (intros Hnil; destruct idents; discriminate).
      case_bool_decide as Hnil; simpl in E |- *.
      + pose proof (steps_left c1 (skip_spaces c2)
                      ltac:(eapply stepper_steps; [apply skip_spaces_stepper|];
                            eapply pair_steps; [apply get_ident_stepper|exact E|];
                            apply steps_refl, Hi1)).
        lia.
      + assert (Hf : empty (_failure c1) = true).
        { destruct Hi1 as [_ Hf]. unfold failed in Hf.
          destruct (empty (_failure c1)); [reflexivity|]. specialize (Hf eq_refl). congruence. }
        pose proof (chars_left_eat_lt "," c1 He Hf).
        pose proof (steps_left (eat "," c1) (skip_spaces c2)
                      ltac:(eapply stepper_steps; [apply skip_spaces_stepper|];
                            eapply pair_steps; [apply get_ident_stepper|exact E|];
                            apply steps_refl, eat_stepper, Hi1)).
        lia. }
  specialize (Hx Hdec (2 * chars_left c + 1) ([], c) Hi ltac:(simpl; lia)).
  fold st in Hx.
  simpl in Hx. apply andb_false_iff in Hx as [Hx|Hx].
  - left. apply negb_false_iff, Hx.
  - right. apply negb_false_iff, Ascii.eqb_eq in Hx. exact Hx.
Qed.

Lemma pop_expression_operators (c : ParseContext) :
  _operator_stack (snd (pop_expression c)) = _operator_stack c
  ∧ _operator_mark (snd (pop_expression c)) = _operator_mark c.
Proof.
  unfold pop_expression, fail.
  destruct (_expression_stack c); [destruct (empty (_failure c))|]; simpl; auto.
Qed.

Lemma apply_operator_pops (c c' : ParseContext) :
  apply_operator c = Done c' →
  S (num_operators c') = num_operators c ∧ _operator_mark c' = _operator_mark c.
Proof.
  unfold apply_operator, pop_operator, num_operators.
  destruct (_operator_stack c) as [|op rest] eqn:Eo; simpl; [discriminate|].
  pose proof (pop_expression_operators (set_operator_stack rest c)) as [Ho1 Hm1].
  destruct (pop_expression (set_operator_stack rest c)) as [rhs c1]. simpl in Ho1, Hm1.
  pose proof (pop_expression_operators c1) as [Ho2 Hm2].
  destruct (pop_expression c1) as [lhs c2]. simpl in Ho2, Hm2.
  intros [= <-]. simpl. rewrite Ho2, Ho1, Hm2, Hm1. auto.
Qed.

Lemma push_operator_loop_exit (n : nat) (node : Operator_UP) (c c' : ParseContext) :
  num_operators c ≤ n → push_operator_loop n node c = Done c' →
  match _operator_stack c' with
  | back :: _ => (_operator_mark c' <? num_operators c') && do_before back node
  | [] => false
  end = false.
Proof.
  revert c. induction n as [|n IH]; intros c Hn; simpl.
  - intros [= <-]. unfold num_operators in Hn.
    destruct (_operator_stack c); [reflexivity|simpl in Hn; lia].
  - destruct (_operator_stack c) as [|back rest] eqn:Eo.
    + intros [= <-]. rewrite Eo. reflexivity.
    + destruct ((_operator_mark c <? length (back :: rest)) && do_before back node) eqn:Ec.
      * destruct (apply_operator c) as [c1| |] eqn:Ea; simpl; try discriminate.
        apply apply_operator_pops in Ea as [Hpop _]. apply IH. lia.
      * intros [= <-]. rewrite Eo. unfold num_operators. rewrite Eo. exact Ec.
Qed.

Lemma apply_operators_exit (n : nat) (c c' : ParseContext) :
  num_operators c ≤ n → apply_operators n c = Done c' →
  (_operator_mark c' <? num_operators c') = false.
Proof.
  revert c. induction n as [|n IH]; intros c Hn; simpl.
  - intros [= <-]. apply Nat.ltb_ge. lia.
  - destruct (_operator_mark c <? num_operators c) eqn:Ec.
    + destruct (apply_operator c) as [c1| |] eqn:Ea; simpl; try discriminate.
      apply apply_operator_pops in Ea as [Hpop _]. apply IH. lia.
    + intros [= <-]. exact Ec.
Qed.

End LoopBounds.

(** The index scans of [unwrap]. *)
Lemma unwrap_forward_exit (P : ascii → bool) (input : string) (pos : nat) :
  let pos' := while (String.length input)
                (λ p, (p <? String.length input) && P (byte_at input p)) S pos in
  (pos' <? String.length input) && P (byte_at input pos') = false.
Proof.
  intros pos'.
  destruct (le_lt_dec (String.length input) pos) as [Hge|Hlt].
  - assert (pos' = pos) as ->.
    { unfold pos'. destruct (String.length input) eqn:E; simpl; [reflexivity|].
      replace (pos <? S n) with false by (symmetry; apply Nat.ltb_ge; lia). reflexivity. }
    replace (pos <? String.length input) with false by (symmetry; apply Nat.ltb_ge; lia).
    reflexivity.
  - apply (while_exit (λ p, String.length input - p)
             (λ p, (p <? String.length input) && P (byte_at input p)) S).
    + intros p Hp. apply andb_prop in Hp as [Hp _]. apply Nat.ltb_lt in Hp. lia.
    + lia.
Qed.

Lemma unwrap_backward_exit (input : string) (body_begin body_end : nat) :
  body_end ≤ String.length input →
  let e := while (String.length input)
             (λ e, (body_begin <? e) && isspace (byte_at input e)) pred body_end in
  (body_begin <? e) && isspace (byte_at input e) = false.
Proof.
  intros Hle e.
  apply (while_exit (λ e, e) (λ e, (body_begin <? e) && isspace (byte_at input e)) pred).
  - intros p Hp. apply andb_prop in Hp as [Hp _]. apply Nat.ltb_lt in Hp. lia.
  - exact Hle.
Qed.

(** * The claims *)

Section Claims.
Context `{Externals}.

(** C9. Popping from an empty expression stack calls [fail] with
    "expression stack underflow" and returns a fresh [Number(0.0)]: the
    failure latch is set afterwards, it holds that message when no failure
    was latched before, and the caller gets a node. [apply_operator], whose
    two pops both meet the empty stack, binds the operator to two such nodes. *)
Theorem C9_pop_expression_underflow (ctx : ParseContext) :
  _expression_stack ctx = [] →
  pop_expression ctx = (nodes.Number double_0_0, fail "expression stack underflow" ctx)
  ∧ failed (snd (pop_expression ctx)) = true
  ∧ (failed ctx = false → _failure (snd (pop_expression ctx)) = "expression stack underflow")
  ∧ (∀ op rest, _operator_stack ctx = op :: rest →
       ∃ ctx', apply_operator ctx = Done ctx'
               ∧ _expression_stack ctx'
                 = [nodes.Operator op (nodes.Number double_0_0) (nodes.Number double_0_0)]
               ∧ failed ctx' = true).
Proof.
  intros Hst. unfold pop_expression. rewrite Hst.
  assert (Hfailed : failed (fail "expression stack underflow" ctx) = true).
  { unfold fail, failed. destruct (empty (_failure ctx)) eqn:He; simpl; [reflexivity|].
    rewrite He. reflexivity. }
  repeat split.
  - exact Hfailed.
  - simpl. unfold failed, fail. intros Hf. apply negb_false_iff in Hf. rewrite Hf. reflexivity.
  - intros op rest Hop. unfold apply_operator, pop_operator, pop_expression.
    destruct ctx as [i p cu f es os om rs tp ec]. simpl in *. subst es os. simpl.
    unfold fail, failed. simpl.
    destruct (empty f) eqn:He; simpl; rewrite ?He; simpl;
      (eexists; split; [reflexivity|]; simpl; rewrite ?He; auto).
Qed.

(** C8. When the symbol extractor is invoked and answers with a position that
    is null, not past the current position, or past the end, the cursor is
    left at the restored mark and the extracted symbol is empty. *)
Theorem C8_extractor_failure_restores (ctx : ParseContext) (rc : ResolveContext)
    (symbol_extractor : SymbolExtractor) (symbol_in : string) (before_symbol : InputMark)
    (new_pos : option Z) (symbol : string) :
  resolver ctx = Done rc →
  _symbol_extractor rc = Some symbol_extractor →
  mark_curr before_symbol ≠ NUL →
  symbol_extractor (str_drop (mark_pos before_symbol) (_input ctx)) = (new_pos, symbol) →
  (match new_pos with
   | None => True
   | Some d => (d ≤ 0 ∨ Z.of_nat (_end ctx) - Z.of_nat (mark_pos before_symbol) < d)%Z
   end) →
  ∃ ctx', extract_symbol symbol_in before_symbol ctx = Done ("", ctx')
          ∧ _pos ctx' = mark_pos before_symbol
          ∧ _curr ctx' = mark_curr before_symbol
          ∧ _input ctx' = _input ctx.
Proof.
  intros Hr Hext Hcurr Hcall Hbad. unfold extract_symbol.
  set (c2 := restore_input_mark before_symbol ctx).
  assert (He : eos c2 = false).
  { unfold c2, eos, restore_input_mark, is_NUL. simpl.
    destruct (Ascii.eqb (mark_curr before_symbol) NUL) eqn:E; [|reflexivity].
    apply Ascii.eqb_eq in E. contradiction. }
  assert (Hin : _input c2 = _input ctx).
  { unfold c2, restore_input_mark. destruct (_ && _); reflexivity. }
  assert (Hpos : _pos c2 = mark_pos before_symbol) by reflexivity.
  assert (Hcu : _curr c2 = mark_curr before_symbol) by reflexivity.
  clearbody c2.
  rewrite Hr. simpl. rewrite Hext, He. simpl. rewrite Hin, Hpos, Hcall.
  destruct new_pos as [d|].
  - unfold _end in *. simpl. rewrite Hin.
    replace ((0 <? d)%Z && (d <=? Z.of_nat (String.length (_input ctx))
                                  - Z.of_nat (mark_pos before_symbol))%Z) with false.
    2:{ symmetry. apply andb_false_iff. destruct Hbad as [Hb|Hb]; [left|right].
        - apply Z.ltb_ge. lia.
        - apply Z.leb_gt. lia. }
    eexists. split; [reflexivity|]. simpl. auto.
  - eexists. split; [reflexivity|]. simpl. auto.
Qed.

(** The assertion of the [ExplicitParams] constructor fails exactly on a
    repeated name. *)
Lemma lookup_UNDEF (q : Params) (token : string) :
  (∀ x i, _params q !! x = Some i → (Z.of_nat i < 2 ^ 64 - 1)%Z) →
  (lookup q token =? Params_UNDEF)%Z = true ↔ _params q !! token = None.
Proof.
  intros Hb. unfold lookup, Params_UNDEF. destruct (_params q !! token) as [i|] eqn:E.
  - specialize (Hb _ _ E). split; [|discriminate]. intros Heq. apply Z.eqb_eq in Heq. lia.
  - split; [reflexivity|]. intros _. apply Z.eqb_eq. reflexivity.
Qed.

Lemma ExplicitParams_add_abort (params_in : list string) (q : Params) :
  (∀ x i, _params q !! x = Some i → (Z.of_nat i < 2 ^ 64 - 1)%Z) →
  (Z.of_nat (size (_params q) + length params_in) < 2 ^ 64 - 1)%Z →
  (¬ NoDup params_in ∨ ∃ x, x ∈ params_in ∧ is_Some (_params q !! x)) →
  ExplicitParams_add params_in q = Abort "lookup(param) == UNDEF".
Proof.
  revert q. induction params_in as [|param rest IH]; intros q Hb Hsz Hdup.
  - destruct Hdup as [Hd|(x & Hx & _)]; [destruct Hd; constructor|inversion Hx].
  - simpl. destruct (_params q !! param) as [i|] eqn:E.
    + assert (Hl : (lookup q param =? Params_UNDEF)%Z = false).
      { destruct (lookup q param =? Params_UNDEF)%Z eqn:Hl; [|reflexivity].
        apply lookup_UNDEF in Hl; [congruence|exact Hb]. }
      rewrite Hl. reflexivity.
    + assert (Hl : (lookup q param =? Params_UNDEF)%Z = true)
        by (apply lookup_UNDEF; assumption).
      rewrite Hl. simpl. unfold lookup_add. rewrite Hl. simpl.
      apply IH; simpl.
      * intros x i Hx. destruct (decide (param = x)) as [->|Hne].
        -- rewrite lookup_insert_eq in Hx. simplify_eq. simpl in Hsz. lia.
        -- rewrite lookup_insert_ne in Hx by assumption. eauto.
      * rewrite map_size_insert_None by assumption. simpl in Hsz. lia.
      * destruct Hdup as [Hd|(x & Hx & Hs)].
        -- destruct (decide (param ∈ rest)) as [Hin|Hnin].
           ++ right. exists param. split; [exact Hin|]. rewrite lookup_insert_eq. eauto.
           ++ left. intros Hnd. apply Hd. constructor; assumption.
        -- right. exists x. apply elem_of_cons in Hx as [->|Hx].
           ++ rewrite E in Hs. destruct Hs; discriminate.
           ++ split; [exact Hx|]. destruct (decide (param = x)) as [->|Hne].
              ** rewrite lookup_insert_eq. eauto.
              ** rewrite lookup_insert_ne by assumption. exact Hs.
Qed.

Lemma ExplicitParams_add_done (params_in : list string) (q : Params) :
  (∀ x i, _params q !! x = Some i → (Z.of_nat i < 2 ^ 64 - 1)%Z) →
  (Z.of_nat (size (_params q) + length params_in) < 2 ^ 64 - 1)%Z →
  NoDup params_in → (∀ x, x ∈ params_in → _params q !! x = None) →
  ∃ q', ExplicitParams_add params_in q = Done q'.
Proof.
  revert q. induction params_in as [|param rest IH]; intros q Hb Hsz Hnd Hfresh.
  - eexists. reflexivity.
  - simpl. apply NoDup_cons in Hnd as [Hnin Hnd].
    assert (E : _params q !! param = None) by (apply Hfresh; left).
    assert (Hl : (lookup q param =? Params_UNDEF)%Z = true)
      by (apply lookup_UNDEF; assumption).
    rewrite Hl. simpl. unfold lookup_add. rewrite Hl. simpl.
    apply IH; simpl.
    + intros x i Hx. destruct (decide (param = x)) as [->|Hne].
      * rewrite lookup_insert_eq in Hx. simplify_eq. simpl in Hsz. lia.
      * rewrite lookup_insert_ne in Hx by assumption. eauto.
    + rewrite map_size_insert_None by assumption. simpl in Hsz. lia.
    + exact Hnd.
    + intros x Hx. rewrite lookup_insert_ne; [apply Hfresh; right; exact Hx|].
      intros ->. contradiction.
Qed.

(** C10. A repeated name in an explicit parameter list violates the
    assertion of the [ExplicitParams] constructor: the run aborts there, both
    from the [parse(params, expression)] entry points and from the
    identifier list of a lambda, and no [Function] (hence no Error node) is
    produced. *)
Theorem C10_duplicate_name_violates_assertion (params_in : list string) :
  ¬ NoDup params_in →
  (Z.of_nat (length params_in) < 2 ^ 64 - 1)%Z →
  ExplicitParams params_in = Abort "lookup(param) == UNDEF"
  ∧ (∀ expression, parse_params params_in expression = Abort "lookup(param) == UNDEF")
  ∧ (∀ expression symbol_extractor,
       parse_params_with_extractor params_in expression symbol_extractor
       = Abort "lookup(param) == UNDEF")
  ∧ (∀ pe ctx, fst (get_ident_list (eat "f" (skip_spaces ctx))) = params_in →
       parse_lambda pe ctx = Abort "lookup(param) == UNDEF").
Proof.
  intros Hdup Hlen.
  assert (Ha : ExplicitParams params_in = Abort "lookup(param) == UNDEF").
  { unfold ExplicitParams. apply ExplicitParams_add_abort; simpl.
    - intros x i Hx. rewrite lookup_empty in Hx. discriminate.
    - rewrite map_size_empty. simpl. lia.
    - left. exact Hdup. }
  repeat split.
  - exact Ha.
  - intros expression. unfold parse_params. rewrite Ha. reflexivity.
  - intros expression ext. unfold parse_params_with_extractor. rewrite Ha. reflexivity.
  - intros pe ctx Hl. unfold parse_lambda.
    destruct (get_ident_list _) as [names c1]. simpl in Hl. subst names.
    rewrite Ha. reflexivity.
Qed.

(** [get_result] on a context whose parse failed or is incomplete. *)
Lemma get_result_failed (ctx : ParseContext) :
  failed ctx = true ∨ eos ctx = false ∨ num_expressions ctx ≠ 1 ∨ 0 < num_operators ctx →
  ∃ failure, failure ≠ ""
    ∧ get_result ctx
      = nodes.Error ("[" +:+ c_str (str_take (_pos ctx) (_input ctx)) +:+ "]...["
                     +:+ c_str failure +:+ "]...["
                     +:+ c_str (str_drop (_pos ctx) (_input ctx)) +:+ "]").
Proof.
  intros Hfail. unfold get_result.
  set (ctx' := if negb (eos ctx) || negb (num_expressions ctx =? 1) || (0 <? num_operators ctx)
               then fail "incomplete parse" ctx else ctx).
  assert (Hpos : _pos ctx' = _pos ctx ∧ _input ctx' = _input ctx).
  { unfold ctx', fail. destruct (_ || _); [destruct (empty _)|]; simpl; auto. }
  assert (Hne : empty (_failure ctx') = false).
  { unfold failed in Hfail. destruct (empty (_failure ctx)) eqn:He.
    - assert (Hc : negb (eos ctx) || negb (num_expressions ctx =? 1)
                   || (0 <? num_operators ctx) = true).
      { destruct Hfail as [Hf|[Hf|[Hf|Hf]]].
        + discriminate.
        + rewrite Hf. reflexivity.
        + apply Nat.eqb_neq in Hf. rewrite Hf. apply orb_true_iff. left.
          apply orb_true_iff. right. reflexivity.
        + apply Nat.ltb_lt in Hf. rewrite Hf. apply orb_true_iff. right. reflexivity. }
      unfold ctx'. rewrite Hc. unfold fail. rewrite He. reflexivity.
    - unfold ctx', fail. rewrite He. destruct (_ || _); exact He. }
  rewrite Hne. simpl. destruct Hpos as [-> ->].
  exists (_failure ctx'). split; [|reflexivity].
  intros Heq. rewrite Heq in Hne. discriminate.
Qed.

(** C2, as the code has it. In implicit-parameter mode, if the failure latch
    is set when [parse_expression] returns, the returned Function has an
    Error root and an empty parameter list. *)
Theorem C2_latched_failure_empties_params (fuel : nat) (expression : string)
    (symbol_extractor : option SymbolExtractor) (ctx : ParseContext) :
  parse_expression fuel (ParseContext_new ImplicitParams expression symbol_extractor)
    = Done ctx →
  failed ctx = true →
  ∃ f, parse_function fuel ImplicitParams expression symbol_extractor = Done f
       ∧ has_error f = true
       ∧ Function_params f = [].
Proof.
  intros Hparse Hfailed. unfold parse_function. rewrite Hparse. simpl. rewrite Hfailed. simpl.
  eexists. split; [reflexivity|]. split; [|reflexivity].
  destruct (get_result_failed ctx (or_introl Hfailed)) as (failure & _ & Hres).
  unfold has_error. simpl. rewrite Hres. reflexivity.
Qed.

(** C5, as the code has it. For an expression without NUL bytes: whenever
    the parse fails (a latched failure, input left over, or stacks that do
    not hold exactly one expression and no operator), the returned Function
    has an Error root whose message is "[prefix]...[msg]...[suffix]", where
    prefix is the input up to the final cursor position and suffix the rest;
    together they are the input. *)
Theorem C5_error_message_brackets_input (params : Params) (expression : string)
    (symbol_extractor : option SymbolExtractor) (ctx : ParseContext) :
  has_NUL expression = false →
  parse_expression (parse_fuel expression)
                   (ParseContext_new params expression symbol_extractor) = Done ctx →
  failed ctx = true ∨ eos ctx = false ∨ num_expressions ctx ≠ 1 ∨ 0 < num_operators ctx →
  ∃ f msg,
    parse_function (parse_fuel expression) params expression symbol_extractor = Done f
    ∧ has_error f = true
    ∧ get_error f = "[" +:+ str_take (_pos ctx) expression +:+ "]...[" +:+ msg
                    +:+ "]...[" +:+ str_drop (_pos ctx) expression +:+ "]"
    ∧ str_take (_pos ctx) expression +:+ str_drop (_pos ctx) expression = expression
    ∧ _pos ctx ≤ String.length expression.
Proof.
  intros Hnul Hparse Hfail.
  pose proof (parse_expression_post params expression symbol_extractor
                (parse_fuel expression)) as Hpost.
  rewrite Hparse in Hpost. simpl in Hpost.
  destruct Hpost as [Hin Hpos]; [unfold parse_fuel; lia|].
  destruct (get_result_failed ctx Hfail) as (failure & _ & Hres).
  rewrite Hin in Hres.
  rewrite (c_str_no_NUL (str_take _ _)) in Hres by (apply has_NUL_take, Hnul).
  rewrite (c_str_no_NUL (str_drop _ _)) in Hres by (apply has_NUL_drop, Hnul).
  unfold parse_function. rewrite Hparse. simpl.
  exists (mkFunction (get_result ctx)
            (if failed ctx && implicit params then [] else extract (top_params ctx))),
         (c_str failure).
  split; [destruct (failed ctx && implicit params); reflexivity|].
  unfold has_error, get_error. simpl. rewrite Hres. simpl.
  repeat split; [apply str_take_drop|exact Hpos].
Qed.

(** C3, as the code has it. With a symbol extractor configured, a bare
    identifier that resolves as a let binding is returned as such and the
    extractor is not invoked; an identifier that does not resolve as a let
    binding is handed to the extractor (on a cursor restored to a mark that
    is not at end of input) before any parameter lookup, and the parameter
    lookup is made on the symbol the extractor produced. *)
Theorem C3_extractor_runs_after_let_lookup_only (ctx : ParseContext) (rc : ResolveContext)
    (symbol_extractor : SymbolExtractor) (name : string) (before_name : InputMark) :
  resolver ctx = Done rc →
  _symbol_extractor rc = Some symbol_extractor →
  (resolve_let_name rc name ≠ Symbol_UNDEF →
     parse_symbol name before_name ctx = Done (resolve_let_name rc name, name, ctx))
  ∧ (resolve_let_name rc name = Symbol_UNDEF → mark_curr before_name ≠ NUL →
     ∃ id name' ctx_e ctx',
       parse_symbol name before_name ctx = Done (id, name', ctx')
       ∧ extract_symbol name before_name ctx = Done (name', ctx_e)
       ∧ extractor_calls ctx_e
         = str_drop (mark_pos before_name) (_input ctx) :: extractor_calls ctx
       ∧ resolve_parameter name' ctx_e = Done (id, ctx')
       ∧ extractor_calls ctx' = extractor_calls ctx_e).
Proof.
  intros Hr Hext. unfold parse_symbol, resolve_let_ref. rewrite Hr. simpl. split.
  - intros Hid. apply Z.eqb_neq in Hid. rewrite Hid. reflexivity.
  - intros Hid Hcurr. rewrite Hid. simpl.
    assert (Hex : ∃ name' ctx_e,
              extract_symbol name before_name ctx = Done (name', ctx_e)
              ∧ extractor_calls ctx_e
                = str_drop (mark_pos before_name) (_input ctx) :: extractor_calls ctx
              ∧ _resolve_stack ctx_e = _resolve_stack ctx).
    { unfold extract_symbol.
      set (c2 := restore_input_mark before_name ctx).
      assert (He : eos c2 = false).
      { unfold c2, eos, restore_input_mark, is_NUL. simpl.
        destruct (Ascii.eqb (mark_curr before_name) NUL) eqn:E; [|reflexivity].
        apply Ascii.eqb_eq in E. contradiction. }
      assert (Hin : _input c2 = _input ctx)
        by (unfold c2, restore_input_mark; destruct (_ && _); reflexivity).
      assert (Hpos : _pos c2 = mark_pos before_name) by reflexivity.
      assert (Hec : extractor_calls c2 = extractor_calls ctx)
        by (unfold c2, restore_input_mark; destruct (_ && _); reflexivity).
      assert (Hrs : _resolve_stack c2 = _resolve_stack ctx)
        by (unfold c2, restore_input_mark; destruct (_ && _); reflexivity).
      clearbody c2. rewrite Hr. simpl. rewrite Hext, He. simpl. rewrite Hin, Hpos.
      destruct (symbol_extractor _) as [[d|] sym]; simpl.
      - destruct (_ && _); eexists _, _; (split; [reflexivity|]); simpl;
          rewrite Hec, Hrs; auto.
      - eexists _, _. split; [reflexivity|]. simpl. rewrite Hec, Hrs. auto. }
    destruct Hex as (name' & ctx_e & Hx & Hcalls & Hrs). rewrite Hx. simpl.
    assert (Hrp : ∃ id ctx', resolve_parameter name' ctx_e = Done (id, ctx')
                             ∧ extractor_calls ctx' = extractor_calls ctx_e).
    { unfold resolve_parameter, resolver. rewrite Hrs.
      unfold resolver in Hr. destruct (_resolve_stack ctx) as [|rc' rest]; [discriminate|].
      simpl. destruct (_params_ref rc').
      - destruct (resolve (top_params ctx_e) name') as [id q].
        destruct (id =? Params_UNDEF)%Z; simpl; eexists _, _; split; reflexivity.
      - destruct (resolve p name') as [id q].
        destruct (id =? Params_UNDEF)%Z; simpl; eexists _, _; split; reflexivity. }
    destruct Hrp as (id & ctx' & Hrp & Hcalls').
    exists id, name', ctx_e, ctx'. rewrite Hrp. simpl. auto.
Qed.

(** The let-name scan. *)
Lemma to_int_small (n : nat) :
  (Z.of_nat n < 2 ^ 31)%Z → Z.to_nat (to_int (Z.of_nat n)) = n.
Proof.
  intros Hn. unfold to_int. rewrite Z.mod_small by lia.
  replace (Z.of_nat n + 2 ^ 31 - 2 ^ 31)%Z with (Z.of_nat n) by lia. apply Nat2Z.id.
Qed.

Lemma resolve_let_name_from_found (outer inner : list string) (x : string) (k : nat) :
  x ∉ inner → length outer < k → k ≤ length (outer ++ x :: inner) →
  resolve_let_name_from (outer ++ x :: inner) x k = (- (Z.of_nat (length outer) + 1))%Z.
Proof.
  intros Hnin. induction k as [|i IH]; intros Hlo Hhi; [lia|]. simpl.
  destruct (decide (i = length outer)) as [->|Hne].
  - rewrite list_lookup_middle by reflexivity. rewrite String.eqb_refl. reflexivity.
  - rewrite lookup_app_r by lia.
    destruct (i - length outer) as [|j] eqn:Hj; [lia|]. simpl.
    destruct (inner !! j) as [n|] eqn:E.
    + destruct (String.eqb x n) eqn:Heq.
      * apply String.eqb_eq in Heq. subst n. exfalso. apply Hnin.
        apply list_elem_of_lookup. eauto.
      * apply IH; lia.
    + apply IH; lia.
Qed.

Lemma resolve_let_name_from_absent (names : list string) (x : string) (k : nat) :
  x ∉ names → resolve_let_name_from names x k = Symbol_UNDEF.
Proof.
  intros Hnin. induction k as [|i IH]; simpl; [reflexivity|].
  destruct (names !! i) as [n|] eqn:E; [|exact IH].
  destruct (String.eqb x n) eqn:Heq; [|exact IH].
  apply String.eqb_eq in Heq. subst n. exfalso. apply Hnin.
  apply list_elem_of_lookup. eauto.
Qed.

Lemma resolve_let_name_found (rc : ResolveContext) (x : string) (outer inner : list string) :
  _let_names rc = (outer ++ x :: inner)%list → x ∉ inner →
  (Z.of_nat (length (_let_names rc)) < 2 ^ 31)%Z →
  resolve_let_name rc x = (- (Z.of_nat (length outer) + 1))%Z.
Proof.
  intros Hn Hnin Hlen. unfold resolve_let_name. rewrite to_int_small by exact Hlen.
  rewrite Hn. apply resolve_let_name_from_found; [exact Hnin| |lia].
  rewrite length_app. simpl. lia.
Qed.

End Claims.

(** ** unwrap *)

Lemma app_empty_l (b : string) : "" +:+ b = b.
Proof. reflexivity. Qed.

Lemma str_length_app (a b : string) :
  String.length (a +:+ b) = String.length a + String.length b.
Proof. induction a as [|c a IH]; [reflexivity|]. rewrite app_String. simpl. rewrite IH. reflexivity. Qed.

Lemma byte_at_app_l (a b : string) (i : nat) :
  i < String.length a → byte_at (a +:+ b) i = byte_at a i.
Proof.
  revert i; induction a as [|c a IH]; intros i Hi; simpl in Hi; [lia|].
  rewrite app_String. destruct i as [|i]; [reflexivity|].
  unfold byte_at in *. simpl. apply IH. lia.
Qed.

Lemma byte_at_app_r (a b : string) (i : nat) :
  byte_at (a +:+ b) (String.length a + i) = byte_at b i.
Proof.
  induction a as [|c a IH]; [reflexivity|].
  rewrite app_String. unfold byte_at in *. simpl. exact IH.
Qed.

Lemma str_drop_app (a b : string) (n : nat) :
  str_drop (String.length a + n) (a +:+ b) = str_drop n b.
Proof. induction a as [|c a IH]; [reflexivity|]. rewrite app_String. simpl. exact IH. Qed.

Lemma str_take_app (a b : string) : str_take (String.length a) (a +:+ b) = a.
Proof.
  induction a as [|c a IH]; [destruct b; reflexivity|].
  rewrite app_String. simpl. rewrite IH. reflexivity.
Qed.

Lemma byte_at_forall (P : ascii → bool) (s : string) (i : nat) :
  str_forall P s = true → i < String.length s → P (byte_at s i) = true.
Proof.
  revert i; induction s as [|c s IH]; intros i Hall Hi; simpl in *; [lia|].
  apply andb_prop in Hall as [Hc Hs]. destruct i as [|i]; [exact Hc|].
  unfold byte_at in *. simpl. apply IH; [exact Hs|lia].
Qed.

Lemma isalpha_not_isspace (c : ascii) : isalpha c = true → isspace c = false.
Proof.
  destruct c as [[] [] [] [] [] [] [] []]; vm_compute; congruence.
Qed.

(** A forward scan stops at the first byte that fails the test. *)
Lemma scan_forward (P : ascii → bool) (input : string) (n pos fuel : nat) :
  (∀ i, pos ≤ i < pos + n → P (byte_at input i) = true) →
  pos + n < String.length input →
  P (byte_at input (pos + n)) = false →
  n ≤ fuel →
  while fuel (λ p, (p <? String.length input) && P (byte_at input p)) S pos = pos + n.
Proof.
  revert pos fuel. induction n as [|n IH]; intros pos fuel Hall Hlt Hstop Hfuel.
  - rewrite Nat.add_0_r in *. destruct fuel; simpl; [reflexivity|].
    rewrite Hstop, andb_false_r. reflexivity.
  - destruct fuel as [|fuel]; [lia|]. simpl.
    rewrite (Hall pos) by lia.
    replace (pos <? String.length input) with true by (symmetry; apply Nat.ltb_lt; lia).
    simpl. rewrite (IH (S pos) fuel); [lia| | | |lia].
    + intros i Hi. apply Hall. lia.
    + lia.
    + replace (S pos + n) with (pos + S n) by lia. exact Hstop.
Qed.

(** C4, as the code has it. For every input [W(B)] with a non-empty
    alphabetic wrapper name [W], [unwrap] succeeds with wrapper [W] and with
    the body [B], which is everything between the opening parenthesis and
    the final closing one: whitespace inside [B] is kept, at its two ends as
    well. The error string is left as it was, so it is empty if it was
    empty. *)
Theorem C4_unwrap_keeps_the_whole_body (W B wrapper body error : string) :
  W ≠ "" → str_forall isalpha W = true →
  unwrap (W +:+ "(" +:+ B +:+ ")") wrapper body error = Done (true, W, B, error).
Proof.
  intros Hne Halpha.
  set (input := W +:+ "(" +:+ B +:+ ")").
  assert (Hsize : String.length input = String.length W + S (String.length B + 1)).
  { unfold input. rewrite !str_length_app. simpl. lia. }
  assert (Hw : ∀ i, i < String.length W → isalpha (byte_at input i) = true).
  { intros i Hi. unfold input. rewrite byte_at_app_l by exact Hi.
    apply byte_at_forall; assumption. }
  assert (Hopen : byte_at input (String.length W) = "("%char).
  { unfold input. rewrite <- (Nat.add_0_r (String.length W)) at 1.
    rewrite byte_at_app_r. reflexivity. }
  assert (Hclose : byte_at input (String.length W + 1 + String.length B) = ")"%char).
  { unfold input. rewrite <- Nat.add_assoc, byte_at_app_r.
    change ("(" +:+ B +:+ ")") with (String "(" (B +:+ ")")).
    unfold byte_at. simpl. fold (byte_at (B +:+ ")") (String.length B)).
    rewrite <- (Nat.add_0_r (String.length B)) at 1. rewrite byte_at_app_r. reflexivity. }
  assert (Hlen : 0 < String.length W) by (destruct W; [contradiction|simpl; lia]).
  unfold unwrap. fold input.
  (* leading spaces: none *)
  rewrite (scan_forward isspace input 0 0); [|intros; lia|lia| |lia].
  2:{ apply isalpha_not_isspace, Hw. exact Hlen. }
  (* the wrapper name *)
  rewrite (scan_forward isalpha input (String.length W) 0);
    [|intros; apply Hw; lia|lia| |lia].
  2:{ simpl. rewrite Hopen. reflexivity. }
  simpl (0 + _).
  replace (String.length W =? 0) with false by (symmetry; apply Nat.eqb_neq; lia).
  (* spaces before the parenthesis: none *)
  rewrite (scan_forward isspace input 0 (String.length W)); [|intros; lia|lia| |lia].
  2:{ rewrite Nat.add_0_r, Hopen. reflexivity. }
  rewrite Nat.add_0_r, Hopen.
  replace (String.length W =? String.length input) with false
    by (symmetry; apply Nat.eqb_neq; lia).
  simpl (_ || _).
  (* trailing spaces: none, the last byte is the parenthesis *)
  replace (String.length input - 1) with (String.length W + 1 + String.length B) by lia.
  assert (Hback : ∀ fuel,
    while fuel (λ body_end, (String.length W + 1 <? body_end)
                            && isspace (byte_at input body_end))
          pred (String.length W + 1 + String.length B)
    = String.length W + 1 + String.length B).
  { intros [|fuel]; simpl; [reflexivity|]. rewrite Hclose, andb_false_r. reflexivity. }
  rewrite Hback, Hclose. simpl (negb _).
  replace (String.length W + 1 <=? String.length W + 1 + String.length B) with true
    by (symmetry; apply Nat.leb_le; lia).
  simpl. unfold stringref. repeat f_equal.
  - rewrite Nat.sub_0_r. simpl. unfold input. apply str_take_app.
  - replace (String.length W + 1 + String.length B - (String.length W + 1))
      with (String.length B) by lia.
    unfold input. rewrite str_drop_app.
    change (str_drop 1 ("(" +:+ B +:+ ")")) with (B +:+ ")").
    apply str_take_app.
Qed.

(** * The parser run on concrete inputs (sample collaborators) *)

Import Sample.

Lemma has_NUL_app (a b : string) : has_NUL (a +:+ b) = has_NUL a || has_NUL b.
Proof.
  induction a as [|c a IH]; [reflexivity|].
  rewrite app_String. simpl. rewrite IH. apply orb_assoc.
Qed.

(** The spec's end-to-end scenarios that the code meets. *)
Example parse_arithmetic :
  parse "1+2*3"
  = Done (mkFunction
            (nodes.Operator (mkOperator "+" 101 LEFT) (nodes.Number (mkDecimal 1 0))
               (nodes.Operator (mkOperator "*" 102 LEFT) (nodes.Number (mkDecimal 2 0))
                  (nodes.Number (mkDecimal 3 0))))
            []).
Proof. reflexivity. Qed.

Example parse_let_example :
  parse "let(x, a+1, x*x)"
  = Done (mkFunction
            (nodes.Let "x"
               (nodes.Operator (mkOperator "+" 101 LEFT) (nodes.Symbol 0)
                  (nodes.Number (mkDecimal 1 0)))
               (nodes.Operator (mkOperator "*" 102 LEFT) (nodes.Symbol (-1))
                  (nodes.Symbol (-1))))
            ["a"]).
Proof. reflexivity. Qed.

Example parse_let_shadowing :
  parse "let(x,x,let(x,2,x))+x"
  = Done (mkFunction
            (nodes.Operator (mkOperator "+" 101 LEFT)
               (nodes.Let "x" (nodes.Symbol 0)
                  (nodes.Let "x" (nodes.Number (mkDecimal 2 0)) (nodes.Symbol (-2))))
               (nodes.Symbol 0))
            ["x"]).
Proof. reflexivity. Qed.

Example parse_if_p_true :
  parse "if(a>b,1,0,0.25)"
  = Done (mkFunction
            (nodes.If (nodes.Operator (mkOperator ">" 10 LEFT) (nodes.Symbol 0) (nodes.Symbol 1))
               (nodes.Number (mkDecimal 1 0)) (nodes.Number (mkDecimal 0 0))
               (mkDecimal 25 (-2)))
            ["a"; "b"]).
Proof. reflexivity. Qed.

Example parse_sum :
  parse_params ["t"] "sum(t, d)"
  = Done (mkFunction (nodes.TensorSum (nodes.Symbol 0) (Some "d")) ["t"]).
Proof. reflexivity. Qed.

(** A run that ends normally in a state passing a test, shown by running it. *)
Lemma Done_and {A : Type} (r : outcome A) (P : A → bool) :
  match r with Done a => P a | _ => false end = true → ∃ a, r = Done a ∧ P a = true.
Proof. destruct r as [a| |]; intros Hp; [exists a; auto|discriminate..]. Qed.

(** C1. [parse_tensor_map] parses the child and the lambda, checks the
    lambda's arity and pushes no node: on "map(t, f(v)(v+1))" with parameters
    ["t"] the sub-parsers consume the whole input without a failure and leave
    the expression stack empty, and [get_result] reports "incomplete parse". *)
Theorem C1_map_pushes_no_node :
  parse_params ["t"] "map(t, f(v)(v+1))"
  = Done (mkFunction (nodes.Error "[map(t, f(v)(v+1))]...[incomplete parse]...[]") ["t"])
  ∧ (p ← ExplicitParams ["t"];
     ctx ← parse_expression (parse_fuel "map(t, f(v)(v+1))")
                            (ParseContext_new p "map(t, f(v)(v+1))" None);
     Done (_expression_stack ctx, failed ctx, eos ctx, _pos ctx))
    = Done ([], false, true, 17).
Proof. split; reflexivity. Qed.

(** C7. The fourth argument of [if] goes through [parse_number]; when it is
    not a number, [parse_number] pushes nothing and the [pop_expression] that
    follows returns the node synthesized on underflow, [Number(0.0)], or an
    operand of the enclosing expression: the If node is built with that
    value instead of the default 0.5. *)
Theorem C7_non_numeric_p_true_replaces_the_default :
  expression_stack_after
    (parse_expression (parse_fuel "if(a,b,c,x)")
                      (ParseContext_new ImplicitParams "if(a,b,c,x)" None))
  = Done [nodes.If (nodes.Symbol 0) (nodes.Symbol 1) (nodes.Symbol 2) double_0_0]
  ∧ expression_stack_after
      (parse_expression (parse_fuel "7+if(a,b,c,x)")
                        (ParseContext_new ImplicitParams "7+if(a,b,c,x)" None))
    = Done [nodes.Operator (mkOperator "+" 101 LEFT) (nodes.Number double_0_0)
              (nodes.If (nodes.Symbol 0) (nodes.Symbol 1) (nodes.Symbol 2) (mkDecimal 7 0))]
  ∧ double_0_0 ≠ double_0_5
  ∧ parse "if(a,b,c,x)"
    = Done (mkFunction (nodes.Error "[if(a,b,c,x]...[invalid number: 'x']...[)]") []).
Proof. repeat split; try reflexivity. discriminate. Qed.

(** C2 fails on "a)": [parse_expression] stops at the parenthesis without a
    failure, [get_result] then latches "incomplete parse", and the discovered
    parameter is reported next to the Error root. *)
Lemma C2_counterexample :
  ∃ f, parse "a)" = Done f ∧ has_error f = true ∧ Function_params f = ["a"]
       ∧ Function_params f ≠ [].
Proof.
  exists (mkFunction (nodes.Error "[a]...[incomplete parse]...[)]") ["a"]).
  repeat split; try reflexivity. discriminate.
Qed.

(** The statement of C2 as amended, on "1 +". *)
Lemma C2_witness :
  ∃ ctx, parse_expression (parse_fuel "1 +") (ParseContext_new ImplicitParams "1 +" None)
         = Done ctx
         ∧ failed ctx = true
         ∧ ∃ f, parse_function (parse_fuel "1 +") ImplicitParams "1 +" None = Done f
                ∧ has_error f = true ∧ Function_params f = [].
Proof.
  destruct (Done_and (parse_expression (parse_fuel "1 +")
                        (ParseContext_new ImplicitParams "1 +" None))
                     failed) as (ctx & E & Hf); [reflexivity|].
  exists ctx. split; [exact E|]. split; [exact Hf|].
  exact (C2_latched_failure_empties_params _ _ _ ctx E Hf).
Defined.

(** C3 fails on "a" with parameters ["a"; "b"]: "a" resolves as parameter 0,
    yet the extractor is handed the text and its answer "b", parameter 1,
    becomes the symbol. *)
Lemma C3_counterexample :
  (p ← ExplicitParams ["a"; "b"];
   ctx ← parse_expression (parse_fuel "a") (ParseContext_new p "a" (Some extractor_b));
   Done (lookup p "a", _expression_stack ctx, extractor_calls ctx))
  = Done (0%Z, [nodes.Symbol 1], ["a"]).
Proof. reflexivity. Qed.

(** The statement of C3 as amended, on "a.b" with the dotted-name extractor. *)
Lemma C3_witness :
  let ctx := ParseContext_new ImplicitParams "a.b" (Some extractor_dotted) in
  let rc := mkResolveContext TopParams (Some extractor_dotted) [] in
  resolver ctx = Done rc
  ∧ _symbol_extractor rc = Some extractor_dotted
  ∧ ∃ id ctx', parse_symbol "a" (get_input_mark ctx) ctx = Done (id, "a.b", ctx')
               ∧ extractor_calls ctx' = ["a.b"].
Proof.
  intros ctx rc. split; [reflexivity|]. split; [reflexivity|].
  destruct (C3_extractor_runs_after_let_lookup_only ctx rc extractor_dotted "a"
              (get_input_mark ctx) eq_refl eq_refl) as [_ Hrun].
  destruct (Hrun eq_refl ltac:(discriminate))
    as (id & name' & ctx_e & ctx' & Hp & Hx & Hcalls & Hr & Hcalls').
  assert (Hname : name' = "a.b").
  { assert (Hfst : fst <$> Some (name', ctx_e) = Some "a.b").
    { replace (Some (name', ctx_e))
        with (match extract_symbol "a" (get_input_mark ctx) ctx with
              | Done r => Some r | _ => None end) by (rewrite Hx; reflexivity).
      reflexivity. }
    injection Hfst as ->. reflexivity. }
  subst name'. exists id, ctx'. split; [exact Hp|]. rewrite Hcalls', Hcalls. reflexivity.
Defined.

(** C4 fails on "W( BODY )": the body keeps the blanks next to the
    parentheses. *)
Lemma C4_counterexample :
  unwrap "W( BODY )" "" "" "" = Done (true, "W", " BODY ", "") ∧ " BODY " ≠ "BODY".
Proof. split; [reflexivity|discriminate]. Qed.

(** The statement of C4 as amended, on "W( BODY )". *)
Lemma C4_witness :
  "W" ≠ "" ∧ str_forall isalpha "W" = true
  ∧ unwrap ("W" +:+ "(" +:+ " BODY " +:+ ")") "" "" "" = Done (true, "W", " BODY ", "").
Proof.
  split; [discriminate|]. split; [reflexivity|].
  apply (C4_unwrap_keeps_the_whole_body "W" " BODY " "" "" ""); [discriminate|reflexivity].
Defined.

(** C5 fails on an input with a NUL byte: the message is formatted with
    "%s", which stops at the NUL, so the text after the cursor is cut short
    and the two bracketed parts no longer make up the input. *)
Lemma C5_counterexample :
  let expression := String ")" (String NUL "") in
  ∃ f, parse expression = Done f
       ∧ has_error f = true
       ∧ get_error f = "[]...[missing value]...[)]"
       ∧ ¬ ∃ prefix msg suffix,
             get_error f = "[" +:+ prefix +:+ "]...[" +:+ msg +:+ "]...[" +:+ suffix +:+ "]"
             ∧ prefix +:+ suffix = expression.
Proof.
  intros expression.
  exists (mkFunction (nodes.Error "[]...[missing value]...[)]") []).
  split; [reflexivity|]. split; [reflexivity|]. split; [reflexivity|].
  intros (prefix & msg & suffix & Hmsg & Hsplit).
  apply (f_equal has_NUL) in Hmsg. apply (f_equal has_NUL) in Hsplit.
  rewrite !has_NUL_app in Hmsg. rewrite has_NUL_app in Hsplit.
  unfold get_error in Hmsg. simpl in Hmsg, Hsplit.
  destruct (has_NUL prefix), (has_NUL suffix), (has_NUL msg); discriminate.
Qed.

(** The statement of C5 as amended, on "1 +". *)
Lemma C5_witness :
  ∃ ctx f msg,
    has_NUL "1 +" = false
    ∧ parse_expression (parse_fuel "1 +") (ParseContext_new ImplicitParams "1 +" None)
      = Done ctx
    ∧ failed ctx = true
    ∧ parse_function (parse_fuel "1 +") ImplicitParams "1 +" None = Done f
    ∧ has_error f = true
    ∧ get_error f = "[" +:+ str_take (_pos ctx) "1 +" +:+ "]...[" +:+ msg
                    +:+ "]...[" +:+ str_drop (_pos ctx) "1 +" +:+ "]".
Proof.
  destruct (Done_and (parse_expression (parse_fuel "1 +")
                        (ParseContext_new ImplicitParams "1 +" None))
                     failed) as (ctx & E & Hf); [reflexivity|].
  destruct (C5_error_message_brackets_input ImplicitParams "1 +" None ctx
              eq_refl E (or_introl Hf)) as (f & msg & Hp & He & Hg & _).
  exists ctx, f, msg. repeat split; first [assumption|reflexivity].
Defined.

(** C8 on "a.b" after the identifier [a] was read, with an extractor that
    gives up: the cursor is back at the start. *)
Lemma C8_witness :
  let ctx0 := ParseContext_new ImplicitParams "a.b" (Some extractor_none) in
  let ctx := snd (get_ident ctx0) in
  let rc := mkResolveContext TopParams (Some extractor_none) [] in
  _pos ctx = 1
  ∧ resolver ctx = Done rc
  ∧ ∃ ctx', extract_symbol "a" (get_input_mark ctx0) ctx = Done ("", ctx')
            ∧ _pos ctx' = 0 ∧ _curr ctx' = "a"%char.
Proof.
  intros ctx0 ctx rc. split; [reflexivity|]. split; [reflexivity|].
  destruct (C8_extractor_failure_restores ctx rc extractor_none "a" (get_input_mark ctx0)
              None "junk" eq_refl eq_refl ltac:(discriminate) eq_refl I)
    as (ctx' & Hx & Hpos & Hcurr & _).
  exists ctx'. auto.
Defined.

(** C9 on a fresh context. *)
Lemma C9_witness :
  let ctx := ParseContext_new ImplicitParams "" None in
  _expression_stack ctx = []
  ∧ pop_expression ctx = (nodes.Number double_0_0, fail "expression stack underflow" ctx)
  ∧ failed (snd (pop_expression ctx)) = true.
Proof.
  intros ctx. split; [reflexivity|].
  destruct (C9_pop_expression_underflow ctx eq_refl) as (Hpop & Hf & _). auto.
Defined.

(** C10 on the parameter list [a; a]. *)
Lemma C10_witness :
  ¬ NoDup ["a"; "a"]
  ∧ ExplicitParams ["a"; "a"] = Abort "lookup(param) == UNDEF"
  ∧ parse_params ["a"; "a"] "a" = Abort "lookup(param) == UNDEF".
Proof.
  assert (Hdup : ¬ NoDup ["a"; "a"]).
  { intros Hnd. apply NoDup_cons in Hnd as [Hnin _]. apply Hnin. left. }
  split; [exact Hdup|].
  destruct (C10_duplicate_name_violates_assertion ["a"; "a"] Hdup eq_refl)
    as (Hctor & Hparse & _).
  split; [exact Hctor|apply Hparse].
Defined.

(** The lambda of a [map] with a repeated parameter name aborts the run. *)
Example lambda_duplicate_aborts :
  parse "map(t,f(a,a)(a))" = Abort "lookup(param) == UNDEF".
Proof. reflexivity. Qed.

(** * More of function.cpp *)

(** ** Params: names and indices *)

Lemma represents_size (p : Params) (l : list string) :
  represents p l → size (_params p) = length l.
Proof.
  intros [Hnd Hrep]. rewrite <- size_dom.
  replace (dom (_params p)) with (list_to_set l : gset string).
  - apply size_list_to_set, Hnd.
  - apply set_eq. intros name. rewrite elem_of_list_to_set, elem_of_dom.
    rewrite list_elem_of_lookup. unfold is_Some.
    split; intros [i Hi]; exists i; apply Hrep; exact Hi.
Qed.

Lemma represents_lt (p : Params) (l : list string) (name : string) (i : nat) :
  represents p l → _params p !! name = Some i → i < length l.
Proof. intros [_ Hrep] Hi. apply Hrep in Hi. eapply lookup_lt_Some, Hi. Qed.

Lemma represents_extract (p : Params) (l : list string) :
  represents p l → extract p = l.
Proof.
  intros Hrep. pose proof (represents_size p l Hrep) as Hsize.
  destruct Hrep as [Hnd Hrep]. unfold extract. rewrite Hsize.
  set (n := length l).
  assert (Hfold :
    (∀ name i, _params p !! name = Some i →
       i < n ∧ ∀ name', _params p !! name' = Some i → name' = name) →
    length (map_fold (λ name index out, <[index := name]> out) (replicate n "") (_params p)) = n
    ∧ ∀ name i, _params p !! name = Some i →
        map_fold (λ name index out, <[index := name]> out) (replicate n "") (_params p) !! i
        = Some name).
  { apply (map_fold_weak_ind (λ (r : list string) (m : gmap string nat),
      (∀ name i, m !! name = Some i → i < n ∧ ∀ name', m !! name' = Some i → name' = name) →
      length r = n ∧ ∀ name i, m !! name = Some i → r !! i = Some name)).
    - intros _. split; [apply length_replicate|]. intros name i Hi.
      rewrite lookup_empty in Hi. discriminate.
    - intros k x m r Hk IH Hc.
      destruct IH as [Hlen Hent].
      { intros name i Hi. assert (name ≠ k) by (intros ->; congruence).
        destruct (Hc name i) as [Hlt Hinj]; [rewrite lookup_insert_ne; auto|].
        split; [exact Hlt|]. intros name' Hi'. apply Hinj.
        assert (name' ≠ k) by (intros ->; congruence). rewrite lookup_insert_ne; auto. }
      split; [rewrite length_insert; exact Hlen|].
      intros name i Hi. destruct (decide (k = name)) as [->|Hne].
      + rewrite lookup_insert_eq in Hi. injection Hi as ->.
        apply list_lookup_insert_eq. rewrite Hlen.
        apply (Hc name i). apply lookup_insert_eq.
      + rewrite lookup_insert_ne in Hi by exact Hne.
        destruct (decide (x = i)) as [->|Hxi].
        * exfalso. apply Hne.
          apply (proj2 (Hc name i ltac:(rewrite lookup_insert_ne; auto))).
          apply lookup_insert_eq.
        * rewrite list_lookup_insert_ne by exact Hxi. apply Hent, Hi. }
  destruct Hfold as [Hlen Hent].
  { intros name i Hi. split; [eapply lookup_lt_Some, Hrep, Hi|].
    intros name' Hi'. apply Hrep in Hi, Hi'. congruence. }
  apply list_eq. intros i. destruct (l !! i) as [name|] eqn:Hl.
  - apply Hent, Hrep, Hl.
  - apply lookup_ge_None. rewrite Hlen. apply lookup_ge_None, Hl.
Qed.

Lemma represents_lookup (p : Params) (l : list string) (name : string) :
  represents p l → (Z.of_nat (length l) < 2 ^ 64 - 1)%Z →
  (∀ i, l !! i = Some name → lookup p name = Z.of_nat i)
  ∧ (name ∉ l → lookup p name = Params_UNDEF)
  ∧ ((lookup p name =? Params_UNDEF)%Z = true ↔ name ∉ l).
Proof.
  intros Hrep Hlen. pose proof Hrep as [Hnd Hiff]. unfold lookup.
  destruct (_params p !! name) as [i|] eqn:E.
  - pose proof (represents_lt p l name i Hrep E) as Hlt.
    apply Hiff in E. split; [|split].
    + intros j Hj. f_equal. eapply NoDup_lookup; eassumption.
    + intros Hnin. exfalso. apply Hnin. apply list_elem_of_lookup. eauto.
    + split.
      * intros Heq. apply Z.eqb_eq in Heq. unfold Params_UNDEF in Heq. lia.
      * intros Hnin. exfalso. apply Hnin. apply list_elem_of_lookup. eauto.
  - split; [|split].
    + intros j Hj. apply Hiff in Hj. congruence.
    + reflexivity.
    + split; [|intros _; apply Z.eqb_eq; reflexivity].
      intros _ Hin. apply list_elem_of_lookup in Hin as [j Hj].
      apply Hiff in Hj. congruence.
Qed.

Lemma represents_empty (k : ParamsKind) : represents (mkParams k ∅) [].
Proof.
  split; [constructor|]. intros name i. simpl. rewrite lookup_empty.
  split; intros Hx; [discriminate|destruct i; discriminate].
Qed.

Lemma represents_lookup_add_new (p : Params) (l : list string) (name : string) :
  represents p l → (Z.of_nat (length l) < 2 ^ 64 - 1)%Z → name ∉ l →
  fst (lookup_add p name) = Z.of_nat (length l)
  ∧ kind (snd (lookup_add p name)) = kind p
  ∧ represents (snd (lookup_add p name)) (l ++ [name]).
Proof.
  intros Hrep Hlen Hnin.
  destruct (represents_lookup p l name Hrep Hlen) as (_ & Hundef & _).
  pose proof (represents_size p l Hrep) as Hsize.
  unfold lookup_add. rewrite (Hundef Hnin). simpl. rewrite Hsize.
  split; [reflexivity|]. split; [reflexivity|].
  destruct Hrep as [Hnd Hiff]. split.
  - apply NoDup_app. split; [exact Hnd|]. split; [|apply NoDup_singleton].
    intros x Hx Hx'. apply list_elem_of_singleton in Hx'. subst x. contradiction.
  - intros name' i. simpl. destruct (decide (name = name')) as [<-|Hne].
    + rewrite lookup_insert_eq. split.
      * intros [= <-]. apply list_lookup_middle. reflexivity.
      * intros Hi. f_equal. destruct (decide (i < length l)) as [Hlt|Hge].
        -- rewrite lookup_app_l in Hi by exact Hlt.
           exfalso. apply Hnin. apply list_elem_of_lookup. eauto.
        -- apply lookup_lt_Some in Hi. rewrite length_app in Hi. simpl in Hi. lia.
    + rewrite lookup_insert_ne by exact Hne. rewrite Hiff. split.
      * intros Hi. rewrite lookup_app_l; [exact Hi|]. eapply lookup_lt_Some, Hi.
      * intros Hi. destruct (decide (i < length l)) as [Hlt|Hge].
        -- rewrite lookup_app_l in Hi by exact Hlt. exact Hi.
        -- rewrite lookup_app_r in Hi by lia.
           destruct (i - length l) as [|j]; simpl in Hi; [congruence|discriminate].
Qed.

Lemma represents_lookup_add_old (p : Params) (l : list string) (name : string) (i : nat) :
  represents p l → (Z.of_nat (length l) < 2 ^ 64 - 1)%Z → l !! i = Some name →
  lookup_add p name = (Z.of_nat i, p).
Proof.
  intros Hrep Hlen Hi.
  destruct (represents_lookup p l name Hrep Hlen) as (Hidx & _ & Hiff).
  unfold lookup_add. rewrite (Hidx i Hi).
  replace (Z.of_nat i =? Params_UNDEF)%Z with false; [reflexivity|].
  symmetry. apply Z.eqb_neq. apply lookup_lt_Some in Hi. unfold Params_UNDEF. lia.
Qed.

Lemma ExplicitParams_add_represents (params_in l : list string) (p : Params) :
  represents p l → NoDup (l ++ params_in) →
  (Z.of_nat (length (l ++ params_in)) < 2 ^ 64 - 1)%Z →
  ∃ p', ExplicitParams_add params_in p = Done p'
        ∧ kind p' = kind p ∧ represents p' (l ++ params_in).
Proof.
  revert l p. induction params_in as [|param rest IH]; intros l p Hrep Hnd Hlen.
  - exists p. rewrite app_nil_r. auto.
  - assert (Hnin : param ∉ l).
    { apply NoDup_app in Hnd as (_ & Hdis & _). intros Hin. apply (Hdis param Hin). left. }
    assert (Hlen' : (Z.of_nat (length l) < 2 ^ 64 - 1)%Z)
      by (rewrite length_app in Hlen; lia).
    destruct (represents_lookup p l param Hrep Hlen') as (_ & _ & Hiff).
    simpl. rewrite (proj2 Hiff Hnin). simpl.
    destruct (represents_lookup_add_new p l param Hrep Hlen' Hnin) as (_ & Hk & Hrep').
    destruct (IH (l ++ [param])%list (snd (lookup_add p param)) Hrep') as (p' & Hd & Hk' & Hr').
    + rewrite <- app_assoc. exact Hnd.
    + rewrite <- app_assoc. exact Hlen.
    + exists p'. rewrite <- app_assoc in Hr'. split; [exact Hd|]. split; [congruence|exact Hr'].
Qed.

Lemma ExplicitParams_represents (params_in : list string) :
  NoDup params_in → (Z.of_nat (length params_in) < 2 ^ 64 - 1)%Z →
  ∃ p, ExplicitParams params_in = Done p ∧ kind p = Explicit ∧ represents p params_in.
Proof.
  intros Hnd Hlen.
  apply (ExplicitParams_add_represents params_in [] (mkParams Explicit ∅));
    [apply represents_empty|exact Hnd|exact Hlen].
Qed.

(** X1. The constructor of ExplicitParams accepts every list without a
    repeated name; the object it builds gives each name its position in the
    list, answers UNDEF for every other name, is not changed by [resolve],
    and [extract] returns the list it was built from. *)
Theorem X1_ExplicitParams_round_trip (params_in : list string) :
  NoDup params_in → (Z.of_nat (length params_in) < 2 ^ 64 - 1)%Z →
  ∃ p, ExplicitParams params_in = Done p
       ∧ implicit p = false
       ∧ extract p = params_in
       ∧ (∀ i name, params_in !! i = Some name → resolve p name = (Z.of_nat i, p))
       ∧ (∀ name, name ∉ params_in → resolve p name = (Params_UNDEF, p)).
Proof.
  intros Hnd Hlen.
  destruct (ExplicitParams_represents params_in Hnd Hlen) as (p & Hd & Hk & Hrep).
  exists p. split; [exact Hd|]. split; [unfold implicit; rewrite Hk; reflexivity|].
  split; [apply represents_extract, Hrep|].
  split.
  - intros i name Hi. unfold resolve. rewrite Hk.
    destruct (represents_lookup p params_in name Hrep Hlen) as (Hidx & _). rewrite (Hidx i Hi).
    reflexivity.
  - intros name Hnin. unfold resolve. rewrite Hk.
    destruct (represents_lookup p params_in name Hrep Hlen) as (_ & Hu & _). rewrite (Hu Hnin).
    reflexivity.
Qed.

Lemma X1_witness :
  NoDup ["x"; "y"]
  ∧ ∃ p, ExplicitParams ["x"; "y"] = Done p ∧ extract p = ["x"; "y"]
         ∧ resolve p "y" = (1%Z, p) ∧ resolve p "z" = (Params_UNDEF, p).
Proof.
  assert (Hnd : NoDup ["x"; "y"]).
  { apply NoDup_cons. split; [|apply NoDup_singleton].
    intros Hin. apply list_elem_of_singleton in Hin. discriminate. }
  split; [exact Hnd|].
  destruct (X1_ExplicitParams_round_trip ["x"; "y"] Hnd eq_refl)
    as (p & Hd & _ & Hex & Hidx & Hu).
  exists p. split; [exact Hd|]. split; [exact Hex|]. split.
  - apply (Hidx 1 "y"). reflexivity.
  - apply Hu. intros Hin. apply elem_of_cons in Hin as [Hx|Hin]; [discriminate|].
    apply list_elem_of_singleton in Hin. discriminate.
Defined.

Lemma resolve_implicit_step (p : Params) (l : list string) (name : string) :
  represents p l → kind p = Implicit → (Z.of_nat (length l) < 2 ^ 64 - 1)%Z →
  ∃ i, fst (resolve p name) = Z.of_nat i
       ∧ kind (snd (resolve p name)) = Implicit
       ∧ represents (snd (resolve p name)) (if decide (name ∈ l) then l else (l ++ [name])%list)
       ∧ (if decide (name ∈ l) then l else (l ++ [name])%list) !! i = Some name.
Proof.
  intros Hrep Hk Hlen. unfold resolve. rewrite Hk.
  destruct (decide (name ∈ l)) as [Hin|Hnin].
  - apply list_elem_of_lookup in Hin as [i Hi]. exists i.
    rewrite (represents_lookup_add_old p l name i Hrep Hlen Hi). simpl. auto.
  - destruct (represents_lookup_add_new p l name Hrep Hlen Hnin) as (Hi & Hk' & Hrep').
    exists (length l). split; [exact Hi|]. split; [congruence|]. split; [exact Hrep'|].
    apply list_lookup_middle. reflexivity.
Qed.

Lemma resolve_all_represents (names : list string) (p : Params) (l : list string) :
  represents p l → kind p = Implicit →
  (Z.of_nat (length l + length names) < 2 ^ 64 - 1)%Z →
  ∃ l', represents (resolve_all names p) (l ++ l')
        ∧ kind (resolve_all names p) = Implicit
        ∧ length l' ≤ length names
        ∧ ∀ x, x ∈ (l ++ l')%list ↔ x ∈ l ∨ x ∈ names.
Proof.
  revert p l. induction names as [|name rest IH]; intros p l Hrep Hk Hlen.
  - exists []. rewrite app_nil_r. simpl. split; [exact Hrep|]. split; [exact Hk|].
    split; [lia|]. intros x. rewrite elem_of_nil. tauto.
  - simpl in Hlen.
    destruct (resolve_implicit_step p l name Hrep Hk ltac:(lia)) as (i & _ & Hk' & Hrep' & _).
    change (resolve_all (name :: rest) p) with (resolve_all rest (snd (resolve p name))).
    destruct (decide (name ∈ l)) as [Hin|Hnin].
    + destruct (IH _ l Hrep' Hk' ltac:(lia)) as (l' & Hr & Hkk & Hl & Hel).
      exists l'. split; [exact Hr|]. split; [exact Hkk|]. split; [simpl; lia|].
      intros x. rewrite Hel, elem_of_cons. split; [tauto|].
      intros [Hx|[->|Hx]]; auto.
    + destruct (IH _ (l ++ [name])%list Hrep' Hk') as (l' & Hr & Hkk & Hl & Hel).
      { rewrite length_app. simpl. lia. }
      exists (name :: l'). rewrite <- app_assoc in Hr, Hel. simpl in Hr, Hel.
      split; [exact Hr|]. split; [exact Hkk|]. split; [simpl; lia|].
      intros x. rewrite Hel, !elem_of_app, !elem_of_cons, elem_of_nil. tauto.
Qed.

(** X2. Implicit parameter discovery: after [resolve] was called on a
    sequence of names, starting from a fresh ImplicitParams, [extract] lists
    exactly the names seen, each once; the index every call returned is the
    position of its name in that final list; and one more call appends its
    name when it is new and changes nothing when it is known. *)
Theorem X2_implicit_discovery (names : list string) :
  (Z.of_nat (length names) < 2 ^ 64 - 1)%Z →
  NoDup (extract (resolve_all names ImplicitParams))
  ∧ (∀ x, x ∈ extract (resolve_all names ImplicitParams) ↔ x ∈ names)
  ∧ (∀ k name, names !! k = Some name →
       ∃ i, fst (resolve (resolve_all (take k names) ImplicitParams) name) = Z.of_nat i
            ∧ extract (resolve_all names ImplicitParams) !! i = Some name)
  ∧ (∀ name, extract (snd (resolve (resolve_all names ImplicitParams) name))
             = if decide (name ∈ names)
               then extract (resolve_all names ImplicitParams)
               else (extract (resolve_all names ImplicitParams) ++ [name])%list).
Proof.
  intros Hlen.
  assert (Hall : ∀ ns, length ns ≤ length names →
            ∃ l, represents (resolve_all ns ImplicitParams) l
                 ∧ kind (resolve_all ns ImplicitParams) = Implicit
                 ∧ length l ≤ length ns ∧ ∀ x, x ∈ l ↔ x ∈ ns).
  { intros ns Hns.
    destruct (resolve_all_represents ns ImplicitParams [] (represents_empty _) eq_refl)
      as (l & Hr & Hk & Hl & Hel); [simpl; lia|].
    exists l. split; [exact Hr|]. split; [exact Hk|]. split; [exact Hl|].
    intros x. rewrite (Hel x), elem_of_nil. tauto. }
  destruct (Hall names (le_n _)) as (l & Hrep & Hk & Hl & Hel).
  rewrite (represents_extract _ _ Hrep).
  split; [apply Hrep|]. split; [exact Hel|]. split.
  - intros k name Hkn.
    destruct (Hall (take k names)) as (lk & Hrk & Hkk & Hlk & _);
      [rewrite length_take; lia|].
    rewrite length_take in Hlk.
    destruct (resolve_implicit_step _ lk name Hrk Hkk ltac:(lia)) as (i & Hi & Hk' & Hr' & Hli).
    exists i. split; [exact Hi|].
    destruct (resolve_all_represents (drop (S k) names) _ _ Hr' Hk') as (l' & Hfin & _).
    { assert (length (if decide (name ∈ lk) then lk else (lk ++ [name])%list)
              ≤ S (length lk)) by (case_match; [lia|rewrite length_app; simpl; lia]).
      pose proof (lookup_lt_Some _ _ _ Hkn).
      rewrite length_drop. lia. }
    assert (Heq : resolve_all (drop (S k) names)
                    (snd (resolve (resolve_all (take k names) ImplicitParams) name))
                  = resolve_all names ImplicitParams).
    { rewrite <- (take_drop_middle names k name Hkn) at 3.
      unfold resolve_all. rewrite foldl_app. reflexivity. }
    rewrite Heq in Hfin.
    assert (l = ((if decide (name ∈ lk) then lk else (lk ++ [name])%list) ++ l')%list) as ->.
    { rewrite <- (represents_extract _ _ Hrep). apply represents_extract, Hfin. }
    apply lookup_app_l_Some, Hli.
  - intros name.
    destruct (resolve_implicit_step _ l name Hrep Hk ltac:(lia)) as (i & _ & _ & Hr' & _).
    rewrite (represents_extract _ _ Hr').
    destruct (decide (name ∈ l)) as [Hin|Hnin]; destruct (decide (name ∈ names)) as [Hin'|Hnin'];
      try reflexivity; exfalso; rewrite Hel in *; contradiction.
Qed.

Lemma X2_witness :
  extract (resolve_all ["b"; "a"; "b"] ImplicitParams) = ["b"; "a"]
  ∧ ∃ i, fst (resolve (resolve_all ["b"; "a"] ImplicitParams) "b") = Z.of_nat i
         ∧ extract (resolve_all ["b"; "a"; "b"] ImplicitParams) !! i = Some "b".
Proof.
  split; [reflexivity|].
  destruct (X2_implicit_discovery ["b"; "a"; "b"] eq_refl) as (_ & _ & Hidx & _).
  apply (Hidx 2 "b"). reflexivity.
Defined.

(** ** Function::unwrap on every input *)

Lemma str_drop_drop (n m : nat) (s : string) : str_drop n (str_drop m s) = str_drop (m + n) s.
Proof.
  revert m; induction s as [|c s IH]; intros m.
  - destruct m, n; reflexivity.
  - destruct m as [|m]; [reflexivity|]. simpl. apply IH.
Qed.

Lemma str_drop_byte (s : string) (pos : nat) :
  pos < String.length s → str_drop pos s = String (byte_at s pos) (str_drop (S pos) s).
Proof.
  revert pos; induction s as [|c s IH]; intros pos Hp; simpl in Hp; [lia|].
  destruct pos as [|pos]; [destruct s; reflexivity|].
  change (str_drop (S pos) (String c s)) with (str_drop pos s).
  rewrite IH by lia. reflexivity.
Qed.

Lemma byte_at_drop (s : string) (n k : nat) : byte_at (str_drop n s) k = byte_at s (n + k).
Proof.
  revert n; induction s as [|c s IH]; intros n.
  - destruct n, k; reflexivity.
  - destruct n as [|n]; [reflexivity|]. simpl. rewrite IH. reflexivity.
Qed.

Lemma str_forall_take (P : ascii → bool) (n : nat) (s : string) :
  (∀ k, k < n → k < String.length s → P (byte_at s k) = true) →
  str_forall P (str_take n s) = true.
Proof.
  revert n; induction s as [|c s IH]; intros n Hall; [destruct n; reflexivity|].
  destruct n as [|n]; [reflexivity|]. simpl. apply andb_true_intro. split.
  - apply (Hall 0); simpl; lia.
  - apply IH. intros k Hk Hl. apply (Hall (S k)); simpl; lia.
Qed.

Lemma str_forall_drop (P : ascii → bool) (n : nat) (s : string) :
  (∀ k, n ≤ k < String.length s → P (byte_at s k) = true) →
  str_forall P (str_drop n s) = true.
Proof.
  intros Hall. rewrite <- (str_take_drop (String.length (str_drop n s)) (str_drop n s)).
  assert (Hd : ∀ m t, String.length (str_drop m t) = String.length t - m).
  { intros m t; revert m; induction t as [|c t IH]; intros [|m]; simpl; auto. }
  assert (He : ∀ t, str_drop (String.length t) t = "").
  { induction t as [|c t IH]; simpl; auto. }
  rewrite He.
  assert (Hr : ∀ t, t +:+ "" = t).
  { induction t as [|c t IH]; [reflexivity|]. rewrite app_String, IH. reflexivity. }
  rewrite Hr. apply str_forall_take. intros k _ Hk. rewrite byte_at_drop.
  rewrite Hd in Hk. apply Hall. lia.
Qed.

Lemma str_length_drop (n : nat) (s : string) :
  String.length (str_drop n s) = String.length s - n.
Proof. revert n; induction s as [|c s IH]; intros [|n]; simpl; auto. Qed.

Lemma str_length_take (n : nat) (s : string) :
  String.length (str_take n s) = Nat.min n (String.length s).
Proof. revert n; induction s as [|c s IH]; intros [|n]; simpl; auto. Qed.

(** The bytes of [input] from [i] up to [j], and what follows them. *)
Lemma stringref_split (input : string) (i j : nat) :
  i ≤ j → str_drop i input = stringref input i (j - i) +:+ str_drop j input.
Proof.
  intros Hij. unfold stringref.
  rewrite <- (str_take_drop (j - i) (str_drop i input)) at 1.
  rewrite str_drop_drop. replace (i + (j - i)) with j by lia. reflexivity.
Qed.

Lemma stringref_forall (P : ascii → bool) (input : string) (i j : nat) :
  (∀ k, i ≤ k < j → P (byte_at input k) = true) →
  str_forall P (stringref input i (j - i)) = true.
Proof.
  intros Hall. unfold stringref. apply str_forall_take. intros k Hk _.
  rewrite byte_at_drop. apply Hall. lia.
Qed.

(** What a forward scan of [unwrap] has passed when it stops. *)
Lemma scan_forward_spec (P : ascii → bool) (input : string) (fuel pos : nat) :
  pos ≤ String.length input → String.length input - pos ≤ fuel →
  let pos' := while fuel (λ p, (p <? String.length input) && P (byte_at input p)) S pos in
  pos ≤ pos' ≤ String.length input
  ∧ (∀ k, pos ≤ k < pos' → P (byte_at input k) = true)
  ∧ (pos' < String.length input → P (byte_at input pos') = false).
Proof.
  revert pos; induction fuel as [|fuel IH]; intros pos Hle Hfuel; simpl.
  - assert (pos = String.length input) as -> by lia.
    split; [lia|]. split; intros; lia.
  - destruct ((pos <? String.length input) && P (byte_at input pos)) eqn:Hc.
    + apply andb_prop in Hc as [Hlt Hp]. apply Nat.ltb_lt in Hlt.
      destruct (IH (S pos)) as (Hr & Hall & Hstop); [lia|lia|].
      split; [lia|]. split; [|exact Hstop].
      intros k Hk. destruct (decide (k = pos)) as [->|Hne]; [exact Hp|]. apply Hall. lia.
    + split; [lia|]. split; [intros; lia|].
      intros Hlt. apply andb_false_iff in Hc as [Hc|Hc]; [|exact Hc].
      apply Nat.ltb_ge in Hc. lia.
Qed.

(** What the backward scan of [unwrap] has passed when it stops. *)
Lemma scan_backward_spec (input : string) (body_begin fuel body_end : nat) :
  body_end ≤ fuel →
  let e := while fuel (λ e, (body_begin <? e) && isspace (byte_at input e)) pred body_end in
  e ≤ body_end
  ∧ Nat.min body_begin body_end ≤ e
  ∧ (∀ k, e < k ≤ body_end → isspace (byte_at input k) = true)
  ∧ (body_begin < e → isspace (byte_at input e) = false).
Proof.
  revert body_end; induction fuel as [|fuel IH]; intros body_end Hfuel; simpl.
  - assert (body_end = 0) as -> by lia. repeat split; intros; lia.
  - destruct ((body_begin <? body_end) && isspace (byte_at input body_end)) eqn:Hc.
    + apply andb_prop in Hc as [Hlt Hp]. apply Nat.ltb_lt in Hlt.
      destruct (IH (pred body_end)) as (Hr & Hge & Hall & Hstop); [lia|].
      split; [lia|]. split; [lia|]. split; [|exact Hstop].
      intros k Hk. destruct (decide (k = body_end)) as [->|Hne]; [exact Hp|]. apply Hall. lia.
    + split; [lia|]. split; [lia|]. split; [intros; lia|].
      intros Hlt. apply andb_false_iff in Hc as [Hc|Hc]; [|exact Hc].
      apply Nat.ltb_ge in Hc. lia.
Qed.

Lemma str_app_assoc (a b c : string) : (a +:+ b) +:+ c = a +:+ b +:+ c.
Proof. induction a as [|x a IH]; [reflexivity|]. rewrite !app_String, IH. reflexivity. Qed.

Lemma byte_at_mid (a m c : string) (k : nat) :
  k < String.length m → byte_at (a +:+ m +:+ c) (String.length a + k) = byte_at m k.
Proof. intros Hk. rewrite byte_at_app_r. apply byte_at_app_l, Hk. Qed.

Lemma stringref_mid (a m c : string) :
  stringref (a +:+ m +:+ c) (String.length a) (String.length m) = m.
Proof.
  unfold stringref. rewrite <- (Nat.add_0_r (String.length a)), str_drop_app.
  apply str_take_app.
Qed.

Lemma isspace_not_isalpha (c : ascii) : isspace c = true → isalpha c = false.
Proof.
  intros Hs. destruct (isalpha c) eqn:Ha; [|reflexivity].
  apply isalpha_not_isspace in Ha. congruence.
Qed.

(** A backward scan stops at the first byte, from the end, that is no blank. *)
Lemma scan_backward (input : string) (body_begin n e fuel : nat) :
  (∀ k, e < k ≤ e + n → isspace (byte_at input k) = true) →
  body_begin ≤ e →
  (body_begin < e → isspace (byte_at input e) = false) →
  e + n ≤ fuel →
  while fuel (λ e, (body_begin <? e) && isspace (byte_at input e)) pred (e + n) = e.
Proof.
  intros Hall Hge Hstop Hfuel.
  destruct (scan_backward_spec input body_begin fuel (e + n) Hfuel) as (Hle & Hlo & Hsp & Hns).
  set (e' := while fuel _ pred (e + n)) in *. clearbody e'.
  destruct (lt_eq_lt_dec e' e) as [[Hlt|Heq]|Hgt]; [|exact Heq|].
  - destruct (decide (body_begin < e)) as [Hb|Hb].
    + rewrite Hsp in Hstop by lia. specialize (Hstop Hb). discriminate.
    + lia.
  - rewrite Hall in Hns by lia. specialize (Hns ltac:(lia)). discriminate.
Qed.

Lemma unwrap_accepts (s1 W s2 B s3 wrapper body error : string) :
  W ≠ "" → str_forall isalpha W = true →
  str_forall isspace s1 = true → str_forall isspace s2 = true →
  str_forall isspace s3 = true →
  unwrap (s1 +:+ W +:+ s2 +:+ "(" +:+ B +:+ ")" +:+ s3) wrapper body error
  = Done (true, W, B, error).
Proof.
  intros Hne Halpha H1 H2 H3.
  set (input := s1 +:+ W +:+ s2 +:+ "(" +:+ B +:+ ")" +:+ s3).
  set (n1 := String.length s1). set (n2 := String.length W).
  set (n3 := String.length s2). set (nb := String.length B).
  set (n4 := String.length s3).
  assert (Hn2 : 0 < n2) by (unfold n2; destruct W; [contradiction|simpl; lia]).
  assert (Hsize : String.length input = n1 + n2 + n3 + 1 + nb + 1 + n4).
  { unfold input. rewrite !str_length_app. simpl. unfold n1, n2, n3, nb, n4. lia. }
  assert (F1 : ∀ k, k < n1 → isspace (byte_at input k) = true).
  { intros k Hk. unfold input. rewrite byte_at_app_l by exact Hk.
    apply byte_at_forall; assumption. }
  assert (F2 : ∀ k, k < n2 → isalpha (byte_at input (n1 + k)) = true).
  { intros k Hk. unfold input, n1. rewrite byte_at_mid by exact Hk.
    apply byte_at_forall; assumption. }
  assert (E3 : input = (s1 +:+ W) +:+ s2 +:+ "(" +:+ B +:+ ")" +:+ s3)
    by (unfold input; rewrite !str_app_assoc; reflexivity).
  assert (F3 : ∀ k, k < n3 → isspace (byte_at input (n1 + n2 + k)) = true).
  { intros k Hk. rewrite E3. unfold n1, n2. rewrite <- str_length_app.
    rewrite byte_at_mid by exact Hk. apply byte_at_forall; assumption. }
  assert (E4 : input = (s1 +:+ W +:+ s2) +:+ "(" +:+ B +:+ ")" +:+ s3)
    by (unfold input; rewrite !str_app_assoc; reflexivity).
  assert (F4 : byte_at input (n1 + n2 + n3) = "("%char).
  { rewrite E4. replace (n1 + n2 + n3) with (String.length (s1 +:+ W +:+ s2) + 0)
      by (rewrite !str_length_app; unfold n1, n2, n3; lia).
    rewrite byte_at_mid by (simpl; lia). reflexivity. }
  assert (E5 : input = (s1 +:+ W +:+ s2 +:+ "(") +:+ B +:+ ")" +:+ s3)
    by (unfold input; rewrite !str_app_assoc; reflexivity).
  assert (E6 : input = (s1 +:+ W +:+ s2 +:+ "(" +:+ B) +:+ ")" +:+ s3)
    by (unfold input; rewrite !str_app_assoc; reflexivity).
  assert (F5 : byte_at input (n1 + n2 + n3 + 1 + nb) = ")"%char).
  { rewrite E6. replace (n1 + n2 + n3 + 1 + nb)
      with (String.length (s1 +:+ W +:+ s2 +:+ "(" +:+ B) + 0)
      by (rewrite !str_length_app; simpl; unfold n1, n2, n3, nb; lia).
    rewrite byte_at_mid by (simpl; lia). reflexivity. }
  assert (E7 : input = (s1 +:+ W +:+ s2 +:+ "(" +:+ B +:+ ")") +:+ s3)
    by (unfold input; rewrite !str_app_assoc; reflexivity).
  assert (F6 : ∀ k, k < n4 → isspace (byte_at input (n1 + n2 + n3 + 1 + nb + 1 + k)) = true).
  { intros k Hk. rewrite E7. replace (n1 + n2 + n3 + 1 + nb + 1)
      with (String.length (s1 +:+ W +:+ s2 +:+ "(" +:+ B +:+ ")"))
      by (rewrite !str_length_app; simpl; unfold n1, n2, n3, nb; lia).
    rewrite byte_at_app_r. apply byte_at_forall; assumption. }
  assert (R1 : stringref input n1 n2 = W) by apply stringref_mid.
  assert (R2 : stringref input (n1 + n2 + n3 + 1) nb = B).
  { rewrite E5. replace (n1 + n2 + n3 + 1) with (String.length (s1 +:+ W +:+ s2 +:+ "("))
      by (rewrite !str_length_app; simpl; unfold n1, n2, n3; lia).
    apply stringref_mid. }
  clearbody input. clear E3 E4 E5 E6 E7.
  unfold unwrap.
  (* leading blanks *)
  rewrite (scan_forward isspace input n1 0); [|intros; apply F1; lia|lia| |lia].
  2:{ apply isalpha_not_isspace. rewrite <- (Nat.add_0_r n1) at 1. apply F2. simpl. lia. }
  (* the wrapper name *)
  rewrite (scan_forward isalpha input n2 (0 + n1)); [| |lia| |lia].
  2:{ intros k Hk. replace k with (n1 + (k - n1)) by lia. apply F2. lia. }
  2:{ simpl (0 + n1). destruct (decide (0 < n3)) as [Hp|Hz].
      - apply isspace_not_isalpha. rewrite <- (Nat.add_0_r (n1 + n2)). apply F3, Hp.
      - replace (n1 + n2) with (n1 + n2 + n3) by lia. rewrite F4. reflexivity. }
  simpl (0 + n1).
  replace (n1 + n2 =? n1) with false by (symmetry; apply Nat.eqb_neq; lia).
  (* blanks before the parenthesis *)
  rewrite (scan_forward isspace input n3 (n1 + n2)); [|intros i Hi|lia| |lia].
  2:{ replace i with (n1 + n2 + (i - (n1 + n2))) by lia. apply F3. lia. }
  2:{ rewrite F4. reflexivity. }
  rewrite F4.
  replace (n1 + n2 + n3 =? String.length input) with false
    by (symmetry; apply Nat.eqb_neq; lia).
  simpl (_ || _). cbv iota.
  (* trailing blanks *)
  replace (String.length input - 1) with (n1 + n2 + n3 + 1 + nb + n4) by lia.
  rewrite (scan_backward input (n1 + n2 + n3 + 1) n4 (n1 + n2 + n3 + 1 + nb));
    [| |lia| |lia].
  2:{ intros k Hk. replace k with (n1 + n2 + n3 + 1 + nb + 1 + (k - (n1 + n2 + n3 + 1 + nb + 1)))
        by lia. apply F6. lia. }
  2:{ intros _. rewrite F5. reflexivity. }
  rewrite F5. simpl (negb _). cbv iota.
  replace (n1 + n2 + n3 + 1 <=? n1 + n2 + n3 + 1 + nb) with true
    by (symmetry; apply Nat.leb_le; lia).
  simpl. replace (n1 + n2 - n1) with n2 by lia.
  replace (n1 + n2 + n3 + 1 + nb - (n1 + n2 + n3 + 1)) with nb by lia.
  rewrite R1, R2. reflexivity.
Qed.

Lemma str_take_length_le (n : nat) (s : string) :
  n ≤ String.length s → String.length (str_take n s) = n.
Proof. intros Hn. rewrite str_length_take. lia. Qed.

Lemma unwrap_accepted (input wrapper body error w b e : string) :
  unwrap input wrapper body error = Done (true, w, b, e) →
  e = error ∧ w ≠ "" ∧ str_forall isalpha w = true
  ∧ ∃ s1 s2 s3,
      str_forall isspace s1 = true ∧ str_forall isspace s2 = true
      ∧ str_forall isspace s3 = true
      ∧ input = s1 +:+ w +:+ s2 +:+ "(" +:+ b +:+ ")" +:+ s3.
Proof.
  unfold unwrap.
  destruct (scan_forward_spec isspace input (String.length input) 0) as (B1 & A1 & _); [lia..|].
  set (wb := while _ _ S 0) in *. clearbody wb.
  destruct (scan_forward_spec isalpha input (String.length input) wb) as (B2 & A2 & _); [lia..|].
  set (we := while _ _ S wb) in *. clearbody we.
  destruct (we =? wb) eqn:Hw; [discriminate|]. apply Nat.eqb_neq in Hw.
  destruct (scan_forward_spec isspace input (String.length input) we) as (B3 & A3 & _); [lia..|].
  set (pos := while _ _ S we) in *. clearbody pos.
  destruct ((pos =? String.length input) || negb (Ascii.eqb (byte_at input pos) "(")) eqn:Ho;
    [discriminate|].
  apply orb_false_iff in Ho as [Hps Hopen]. apply Nat.eqb_neq in Hps.
  apply negb_false_iff, Ascii.eqb_eq in Hopen.
  destruct (scan_backward_spec input (pos + 1) (String.length input) (String.length input - 1))
    as (B4 & G4 & A4 & _); [lia|].
  set (be := while _ _ pred (String.length input - 1)) in *. clearbody be.
  destruct (negb (Ascii.eqb (byte_at input be) ")")) eqn:Hc; [discriminate|].
  apply negb_false_iff, Ascii.eqb_eq in Hc.
  destruct (pos + 1 <=? be) eqn:Hbe; [|discriminate]. apply Nat.leb_le in Hbe.
  simpl. intros [= <- <- <-].
  split; [reflexivity|].
  assert (Hwlen : String.length (stringref input wb (we - wb)) = we - wb).
  { unfold stringref. rewrite str_take_length_le; [reflexivity|]. rewrite str_length_drop. lia. }
  split; [intros Hemp; rewrite Hemp in Hwlen; simpl in Hwlen; lia|].
  split; [apply stringref_forall; intros; apply A2; lia|].
  exists (stringref input 0 (wb - 0)), (stringref input we (pos - we)),
         (str_drop (S be) input).
  split; [apply stringref_forall; intros; apply A1; lia|].
  split; [apply stringref_forall; intros; apply A3; lia|].
  split; [apply str_forall_drop; intros; apply A4; lia|].
  change input with (str_drop 0 input) at 1.
  rewrite (stringref_split input 0 wb) by lia. f_equal.
  rewrite (stringref_split input wb we) by lia. f_equal.
  rewrite (stringref_split input we pos) by lia. f_equal.
  rewrite (str_drop_byte input pos) by lia. rewrite Hopen. rewrite app_String. f_equal.
  rewrite app_empty_l. replace (S pos) with (pos + 1) by lia.
  rewrite (stringref_split input (pos + 1) be) by lia. f_equal.
  rewrite (str_drop_byte input be) by lia. rewrite Hc. reflexivity.
Qed.

(** X3. [unwrap] succeeds exactly on inputs of the shape
    blanks, name, blanks, "(", body, ")", blanks, where the name is a
    non-empty run of letters: it then returns the name and the body (the
    body being everything up to the last closing parenthesis) and leaves the
    error string alone. *)
Theorem X3_unwrap_accepts_exactly (input wrapper body error w b e : string) :
  unwrap input wrapper body error = Done (true, w, b, e)
  ↔ e = error ∧ w ≠ "" ∧ str_forall isalpha w = true
    ∧ ∃ s1 s2 s3,
        str_forall isspace s1 = true ∧ str_forall isspace s2 = true
        ∧ str_forall isspace s3 = true
        ∧ input = s1 +:+ w +:+ s2 +:+ "(" +:+ b +:+ ")" +:+ s3.
Proof.
  split; [apply unwrap_accepted|].
  intros (-> & Hne & Ha & s1 & s2 & s3 & H1 & H2 & H3 & ->).
  apply unwrap_accepts; assumption.
Qed.

(** X4. The assertion of [unwrap] never fires and every call returns. A
    call that returns false leaves the wrapper and the body as they were and
    sets one of the three messages; a call that returns true leaves the
    error string as it was. *)
Theorem X4_unwrap_always_returns (input wrapper body error : string) :
  ∃ ok w b e,
    unwrap input wrapper body error = Done (ok, w, b, e)
    ∧ (ok = false →
         w = wrapper ∧ b = body
         ∧ (e = "could not extract wrapper name"
            ∨ e = "could not match opening '('"
            ∨ e = "could not match closing ')'"))
    ∧ (ok = true → e = error).
Proof.
  unfold unwrap.
  destruct (scan_forward_spec isspace input (String.length input) 0) as (B1 & _); [lia..|].
  set (wb := while _ _ S 0) in *. clearbody wb.
  destruct (scan_forward_spec isalpha input (String.length input) wb) as (B2 & _); [lia..|].
  set (we := while _ _ S wb) in *. clearbody we.
  destruct (we =? wb) eqn:Hw; [do 4 eexists; split; [reflexivity|]; split; [auto|discriminate]|].
  destruct (scan_forward_spec isspace input (String.length input) we) as (B3 & _); [lia..|].
  set (pos := while _ _ S we) in *. clearbody pos.
  destruct ((pos =? String.length input) || negb (Ascii.eqb (byte_at input pos) "(")) eqn:Ho;
    [do 4 eexists; split; [reflexivity|]; split; [auto|discriminate]|].
  apply orb_false_iff in Ho as [Hps Hopen]. apply Nat.eqb_neq in Hps.
  apply negb_false_iff, Ascii.eqb_eq in Hopen.
  destruct (scan_backward_spec input (pos + 1) (String.length input) (String.length input - 1))
    as (B4 & G4 & _ & _); [lia|].
  set (be := while _ _ pred (String.length input - 1)) in *. clearbody be.
  destruct (negb (Ascii.eqb (byte_at input be) ")")) eqn:Hc;
    [do 4 eexists; split; [reflexivity|]; split; [auto|discriminate]|].
  apply negb_false_iff, Ascii.eqb_eq in Hc.
  assert (Hbe : pos + 1 ≤ be).
  { destruct (decide (pos + 1 ≤ String.length input - 1)) as [Hle|Hgt]; [lia|].
    assert (be = pos) as -> by lia. rewrite Hopen in Hc. discriminate. }
  apply Nat.leb_le in Hbe. rewrite Hbe. simpl.
  do 4 eexists. split; [reflexivity|]. split; [discriminate|auto].
Qed.

Lemma X3_witness :
  unwrap " max ( a , (b) ) " "" "" "" = Done (true, "max", " a , (b) ", "").
Proof.
  apply (X3_unwrap_accepts_exactly " max ( a , (b) ) " "" "" "" "max" " a , (b) " "").
  split; [reflexivity|]. split; [discriminate|]. split; [reflexivity|].
  exists " ", " ", " ". repeat split; reflexivity.
Defined.

(** ** What a run of the parser changes

    A second pass over the parser, for what it does to the state apart from
    the cursor: which assertions can stop it, what happens to the operator
    stack, to the parameters and to a failure that is already latched. *)

Lemma sound_bind {A B : Type} (Q : B → Prop) (r : outcome A) (k : A → outcome B) :
  sound (λ a, sound Q (k a)) r → sound Q (r ≫= k).
Proof. destruct r; simpl; auto. Qed.

Lemma sound_mono {A : Type} (P Q : A → Prop) (r : outcome A) :
  sound P r → (∀ a, P a → Q a) → sound Q r.
Proof. destruct r; simpl; auto. Qed.

Section Run.
Context `{Externals}.

Lemma latch_refl (c : ParseContext) : latch c c.
Proof. intros Hf He. auto. Qed.

Lemma latch_trans (c1 c2 c3 : ParseContext) : latch c1 c2 → latch c2 c3 → latch c1 c3.
Proof.
  intros H12 H23 Hf He. destruct (H12 Hf He) as (Hf2 & He2 & Hp2).
  destruct H23 as (Hf3 & He3 & Hp3); [unfold failed in *; rewrite Hf2; exact Hf|exact He2|].
  split; [congruence|]. split; [exact He3|congruence].
Qed.

Lemma quiet_refl (c : ParseContext) : quiet c c.
Proof. do 5 (split; [reflexivity|]). apply latch_refl. Qed.

Lemma quiet_trans (c1 c2 c3 : ParseContext) : quiet c1 c2 → quiet c2 c3 → quiet c1 c3.
Proof.
  intros (? & ? & ? & ? & ? & ?) (? & ? & ? & ? & ? & ?).
  do 5 (split; [congruence|]). eapply latch_trans; eassumption.
Qed.

Lemma quiet_step (f : ParseContext → ParseContext) (c0 c : ParseContext) :
  (∀ c, quiet c (f c)) → quiet c0 c → quiet c0 (f c).
Proof. intros Hf Hq. eapply quiet_trans; [exact Hq|apply Hf]. Qed.

Lemma resolve_all_app (l1 l2 : list string) (p : Params) :
  resolve_all (l1 ++ l2) p = resolve_all l2 (resolve_all l1 p).
Proof. apply foldl_app. Qed.

Lemma effects_refl (c : ParseContext) : effects c c.
Proof. split; [reflexivity|]. split; [exists []; reflexivity|apply latch_refl]. Qed.

Lemma effects_trans (c1 c2 c3 : ParseContext) : effects c1 c2 → effects c2 c3 → effects c1 c3.
Proof.
  intros (I1 & [n1 E1] & L1) (I2 & [n2 E2] & L2). split; [congruence|].
  split; [|eapply latch_trans; eassumption].
  exists (n1 ++ n2)%list. rewrite resolve_all_app, <- E1. exact E2.
Qed.

Lemma shift_refl (c : ParseContext) : shift c c.
Proof. do 2 (split; [reflexivity|]). apply effects_refl. Qed.

Lemma shift_trans (c1 c2 c3 : ParseContext) : shift c1 c2 → shift c2 c3 → shift c1 c3.
Proof.
  intros (? & ? & ?) (? & ? & ?).
  do 2 (split; [congruence|]). eapply effects_trans; eassumption.
Qed.

Lemma moved_refl (c : ParseContext) : moved c c.
Proof. split; [reflexivity|apply shift_refl]. Qed.

Lemma moved_trans (c1 c2 c3 : ParseContext) : moved c1 c2 → moved c2 c3 → moved c1 c3.
Proof. intros [? ?] [? ?]. split; [congruence|eapply shift_trans; eassumption]. Qed.

Lemma quiet_moved (c c' : ParseContext) : quiet c c' → moved c c'.
Proof.
  intros (Hi & Hr & Ho & Hm & Ht & Hl). split; [unfold scopes; rewrite Hr; reflexivity|].
  split; [exact Ho|]. split; [exact Hm|]. split; [exact Hi|].
  split; [exists []; exact Ht|exact Hl].
Qed.

Lemma moved_step (f : ParseContext → ParseContext) (c0 c : ParseContext) :
  (∀ c, quiet c (f c)) → moved c0 c → moved c0 (f c).
Proof. intros Hf Hm. eapply moved_trans; [exact Hm|apply quiet_moved, Hf]. Qed.

Lemma moved_scopes (c0 c : ParseContext) : scopes c0 ≠ [] → moved c0 c → scopes c ≠ [].
Proof. intros Hsc [-> _]. exact Hsc. Qed.

(** *** The moves that keep to the cursor, the failure and the expressions *)

Ltac quiet_fields c :=
  destruct c as [i p cu f es os om rs tp ec];
  unfold quiet, latch, failed, eos in *; simpl in *.

Lemma next_quiet (c : ParseContext) : quiet c (next c).
Proof.
  unfold next. quiet_fields c.
  destruct (negb (is_NUL cu) && _) eqn:Hc; simpl; repeat split; auto;
    exfalso; match goal with He : is_NUL cu = true |- _ => rewrite He in Hc end;
    discriminate.
Qed.

Lemma fail_quiet (msg : string) (c : ParseContext) : quiet c (fail msg c).
Proof.
  unfold fail. quiet_fields c.
  destruct (empty f) eqn:He; simpl; repeat split; auto; discriminate.
Qed.

Lemma eat_quiet (ch : ascii) (c : ParseContext) : quiet c (eat ch c).
Proof. unfold eat. case_match; [apply next_quiet|apply fail_quiet]. Qed.

Lemma skip_spaces_quiet (c : ParseContext) : quiet c (skip_spaces c).
Proof.
  unfold skip_spaces. apply (while_ind (quiet c)); [|apply quiet_refl].
  intros s Hs _. apply quiet_step; [apply next_quiet|exact Hs].
Qed.

Lemma skip_quiet (n : nat) (c : ParseContext) : quiet c (skip n c).
Proof.
  revert c; induction n as [|n IH]; intros c; simpl; [apply quiet_refl|].
  eapply quiet_trans; [apply next_quiet|apply IH].
Qed.

Lemma push_expression_quiet (n : Node) (c : ParseContext) : quiet c (push_expression n c).
Proof. quiet_fields c. repeat split; auto. Qed.

Lemma pop_expression_quiet (c : ParseContext) : quiet c (snd (pop_expression c)).
Proof.
  unfold pop_expression. case_match; simpl; [apply fail_quiet|].
  quiet_fields c. repeat split; auto.
Qed.

Lemma pair_quiet {A : Type} (f : ParseContext → A * ParseContext)
    (c0 c1 c2 : ParseContext) (a : A) :
  (∀ c, quiet c (snd (f c))) → f c1 = (a, c2) → quiet c0 c1 → quiet c0 c2.
Proof.
  intros Hf E Hq. replace c2 with (snd (f c1)) by (rewrite E; reflexivity).
  apply (quiet_step (λ c, snd (f c))); assumption.
Qed.

Lemma pair_moved {A : Type} (f : ParseContext → A * ParseContext)
    (c0 c1 c2 : ParseContext) (a : A) :
  (∀ c, quiet c (snd (f c))) → f c1 = (a, c2) → moved c0 c1 → moved c0 c2.
Proof.
  intros Hf E Hm. replace c2 with (snd (f c1)) by (rewrite E; reflexivity).
  apply (moved_step (λ c, snd (f c))); assumption.
Qed.

Create HintDb run.
#[local] Hint Resolve quiet_refl moved_refl quiet_step moved_step : run.
#[local] Hint Resolve next_quiet fail_quiet eat_quiet skip_spaces_quiet skip_quiet
  push_expression_quiet pop_expression_quiet : run.
#[local] Hint Extern 1 (quiet _ ?c2) =>
  match goal with
  | E : ?f ?c1 = (_, c2) |- _ => eapply (pair_quiet f _ c1 c2 _); [|exact E|]
  end : run.
#[local] Hint Extern 1 (moved _ ?c2) =>
  match goal with
  | E : ?f ?c1 = (_, c2) |- _ => eapply (pair_moved f _ c1 c2 _); [|exact E|]
  end : run.

Ltac trail := eauto 14 with run.

Lemma parse_string_step_quiet (c0 : ParseContext) (st : string * ParseContext) :
  quiet c0 (snd st) → quiet c0 (snd (parse_string_step st)).
Proof.
  destruct st as [str c]. simpl. intros Hq. unfold parse_string_step.
  repeat case_match; simplify_eq/=; trail.
Qed.

Lemma parse_string_quiet (c : ParseContext) : quiet c (parse_string c).
Proof.
  unfold parse_string.
  destruct (while _ _ _ _) as [str c1] eqn:E.
  assert (Hq : quiet c c1).
  { replace c1 with (snd (while (chars_left (eat "034" c))
      (λ st, negb (eos (snd st)) && negb (Ascii.eqb (get (snd st)) "034"))
      parse_string_step ("", eat "034" c))) by (rewrite E; reflexivity).
    apply (while_ind (λ st, quiet c (snd st))); [|simpl; trail].
    intros st Hs _. apply parse_string_step_quiet, Hs. }
  trail.
Qed.

Lemma read_digits_quiet (c0 : ParseContext) (st : string * ParseContext) :
  quiet c0 (snd st) → quiet c0 (snd (read_digits st)).
Proof.
  intros Hq. unfold read_digits.
  apply (while_ind (λ st, quiet c0 (snd st))); [|exact Hq].
  intros s Hs _. simpl. trail.
Qed.

Lemma parse_number_quiet (c : ParseContext) : quiet c (parse_number c).
Proof.
  unfold parse_number.
  destruct (read_digits _) as [s1 c1] eqn:E1.
  assert (H1 : quiet c c1).
  { replace c1 with (snd (read_digits (push_back "" (get c), next c)))
      by (rewrite E1; reflexivity). apply read_digits_quiet. simpl. trail. }
  destruct (if Ascii.eqb (get c1) "." then _ else _) as [s2 c2] eqn:E2.
  assert (H2 : quiet c c2).
  { destruct (Ascii.eqb (get c1) "."); [|simplify_eq; exact H1].
    replace c2 with (snd (read_digits (push_back s1 (get c1), next c1)))
      by (rewrite E2; reflexivity). apply read_digits_quiet. simpl. trail. }
  destruct (if Ascii.eqb (get c2) "e" || _ then _ else _) as [s3 c3] eqn:E3.
  assert (H3 : quiet c c3).
  { destruct (Ascii.eqb (get c2) "e" || _); [|simplify_eq; exact H2].
    destruct (if Ascii.eqb (get (next c2)) "+" || _ then _ else _) as [s4 c4] eqn:E4.
    assert (H4 : quiet c c4) by (case_match; simplify_eq; trail).
    replace c3 with (snd (read_digits (s4, c4))) by (rewrite E3; reflexivity).
    apply read_digits_quiet. exact H4. }
  destruct (strtod _) as [value consumed]. destruct (negb (empty s3) && _); trail.
Qed.

Lemma get_ident_quiet (c : ParseContext) : quiet c (snd (get_ident c)).
Proof.
  unfold get_ident. case_match; simpl; [|trail].
  apply (while_ind (λ st, quiet c (snd st))); [|simpl; trail].
  intros s Hs _. simpl. trail.
Qed.

Lemma get_ident_list_step_quiet (c0 : ParseContext) (st : list string * ParseContext) :
  quiet c0 (snd st) → quiet c0 (snd (get_ident_list_step st)).
Proof.
  destruct st as [idents c]. simpl. intros Hq. unfold get_ident_list_step.
  destruct (get_ident _) as [ident c1] eqn:E. simpl.
  assert (quiet c0 c1); [|trail].
  replace c1 with (snd (get_ident (if negb (bool_decide (idents = []))
                                   then eat "," c else c))) by (rewrite E; reflexivity).
  apply (quiet_step (λ c, snd (get_ident c))); [apply get_ident_quiet|].
  case_match; trail.
Qed.

Lemma get_ident_list_quiet (c : ParseContext) : quiet c (snd (get_ident_list c)).
Proof.
  unfold get_ident_list.
  destruct (while _ _ _ _) as [idents c1] eqn:E. simpl.
  assert (Hq : quiet c c1); [|trail].
  set (c2 := skip_spaces (eat "(" (skip_spaces c))) in *.
  replace c1 with (snd (while (2 * chars_left c2 + 1)
      (λ st, negb (eos (snd st)) && negb (Ascii.eqb (get (snd st)) ")"))
      get_ident_list_step ([], c2))) by (rewrite E; reflexivity).
  apply (while_ind (λ st, quiet c (snd st))); [|simpl; subst c2; trail].
  intros st Hs _. apply get_ident_list_step_quiet, Hs.
Qed.

#[local] Hint Resolve parse_string_quiet parse_number_quiet get_ident_quiet
  get_ident_list_quiet : run.

(** *** Scopes *)

Lemma shift_fields (c c' : ParseContext) :
  _input c' = _input c →
  _operator_stack c' = _operator_stack c → _operator_mark c' = _operator_mark c →
  top_params c' = top_params c → _failure c' = _failure c → _curr c' = _curr c →
  _pos c' = _pos c →
  shift c c'.
Proof.
  intros Hi Ho Hm Ht Hf Hc Hp. split; [exact Ho|]. split; [exact Hm|]. split; [exact Hi|].
  split; [exists []; exact Ht|]. intros _ He. unfold eos in *. rewrite Hc. auto.
Qed.

Lemma resolver_Done (c : ParseContext) :
  scopes c ≠ [] → ∃ rc rest, _resolve_stack c = rc :: rest ∧ resolver c = Done rc.
Proof.
  unfold scopes, resolver. destruct (_resolve_stack c) as [|rc rest]; [contradiction|].
  intros _. exists rc, rest. auto.
Qed.

Lemma push_let_binding_run (name : string) (c : ParseContext) :
  scopes c ≠ [] →
  sound (λ c', shift c c' ∧
               ∃ ext names rest, scopes c = (ext, names) :: rest
                                 ∧ scopes c' = (ext, (names ++ [name])%list) :: rest)
        (push_let_binding name c).
Proof.
  intros Hsc. destruct (resolver_Done c Hsc) as (rc & rest & Hrs & Hr).
  unfold push_let_binding. rewrite Hr. simpl.
  split; [apply shift_fields; reflexivity|].
  exists (_symbol_extractor rc), (_let_names rc),
    ((λ rc, (_symbol_extractor rc, _let_names rc)) <$> rest).
  unfold scopes, set_resolver. rewrite Hrs. split; reflexivity.
Qed.

Lemma pop_let_binding_run (c : ParseContext) (ext : option SymbolExtractor)
    (names : list string) (name : string) (rest : list (option SymbolExtractor * list string)) :
  scopes c = (ext, (names ++ [name])%list) :: rest →
  sound (λ c', shift c c' ∧ scopes c' = (ext, names) :: rest) (pop_let_binding c).
Proof.
  intros Hsc.
  destruct (resolver_Done c) as (rc & rs & Hrs & Hr); [rewrite Hsc; discriminate|].
  unfold pop_let_binding, pop_let_name. rewrite Hr. simpl.
  unfold scopes in Hsc. rewrite Hrs in Hsc. simpl in Hsc.
  injection Hsc as Hext Hnames Hrest.
  rewrite Hnames. case_bool_decide as Hnil; simpl.
  { destruct names; discriminate Hnil. }
  split; [apply shift_fields; reflexivity|].
  unfold scopes, set_resolver. rewrite Hrs. simpl.
  rewrite removelast_last, Hext, Hrest. reflexivity.
Qed.

Lemma push_resolve_context_run (q : ParamsRef) (ext : option SymbolExtractor)
    (c : ParseContext) :
  shift c (push_resolve_context q ext c)
  ∧ scopes (push_resolve_context q ext c) = (ext, []) :: scopes c.
Proof. split; [apply shift_fields; reflexivity|reflexivity]. Qed.

Lemma pop_resolve_context_run (c : ParseContext)
    (top : option SymbolExtractor * list string)
    (rest : list (option SymbolExtractor * list string)) :
  scopes c = top :: rest →
  sound (λ c', shift c c' ∧ scopes c' = rest) (pop_resolve_context c).
Proof.
  intros Hsc. unfold pop_resolve_context. unfold scopes in Hsc.
  destruct (_resolve_stack c) as [|rc rs] eqn:Hrs; [discriminate|]. simpl in *.
  injection Hsc as _ Hrest.
  split; [apply shift_fields; reflexivity|]. unfold scopes. simpl. exact Hrest.
Qed.

Lemma resolve_let_ref_sound {Q : Z → Prop} (name : string) (c : ParseContext) :
  scopes c ≠ [] → (∀ id, Q id) → sound Q (resolve_let_ref name c).
Proof.
  intros Hsc HQ. destruct (resolver_Done c Hsc) as (rc & rest & _ & Hr).
  unfold resolve_let_ref. rewrite Hr. simpl. apply HQ.
Qed.

Lemma resolve_parameter_run (name : string) (c0 c : ParseContext) :
  scopes c0 ≠ [] → moved c0 c →
  sound (λ r, moved c0 (snd r)) (resolve_parameter name c).
Proof.
  intros Hsc Hm.
  destruct (resolver_Done c (moved_scopes c0 c Hsc Hm)) as (rc & rest & Hrs & Hr).
  unfold resolve_parameter. rewrite Hr. simpl.
  assert (Hstep : ∀ id c', moved c c' →
            sound (λ r : Z * ParseContext, moved c0 r.2)
                  (if (id =? Params_UNDEF)%Z then Done (Symbol_UNDEF, c')
                   else Done (to_int id, c'))).
  { intros id c' Hm'. case_match; simpl; eapply moved_trans; eassumption. }
  destruct (_params_ref rc) as [|q].
  - destruct (resolve (top_params c) name) as [id q'] eqn:E. apply Hstep.
    do 4 (split; [reflexivity|]).
    split; [|intros Hf He; auto].
    exists [name]. simpl. unfold resolve_all. simpl. rewrite E. reflexivity.
  - destruct (resolve q name) as [id q'] eqn:E. apply Hstep.
    split; [|apply shift_fields; reflexivity].
    unfold scopes, set_resolver. rewrite Hrs. reflexivity.
Qed.

Lemma extract_symbol_run (symbol_out : string) (c0 c : ParseContext) :
  scopes c0 ≠ [] → moved c0 c →
  sound (λ r, moved c0 (snd r)) (extract_symbol symbol_out (get_input_mark c0) c).
Proof.
  intros Hsc Hm.
  destruct (resolver_Done c (moved_scopes c0 c Hsc Hm)) as (rc & rest & Hrs & Hr).
  unfold extract_symbol. rewrite Hr. simpl.
  destruct (_symbol_extractor rc) as [symbol_extractor|]; [|exact Hm].
  set (c1 := restore_input_mark (get_input_mark c0) c).
  assert (Hm1 : moved c0 c1).
  { destruct Hm as (Hs & Ho & Hk & Hi & [names Hn] & Hl).
    assert (Hf : scopes c1 = scopes c ∧ _operator_stack c1 = _operator_stack c
                 ∧ _operator_mark c1 = _operator_mark c ∧ top_params c1 = top_params c
                 ∧ _input c1 = _input c).
    { unfold c1, restore_input_mark. case_match; auto 6. }
    destruct Hf as (Hs1 & Ho1 & Hk1 & Ht1 & Hi1).
    split; [congruence|]. split; [congruence|]. split; [congruence|].
    split; [congruence|]. split; [exists names; congruence|].
    intros Hf He. destruct (Hl Hf He) as (Hfc & Hec & Hpc).
    unfold c1, restore_input_mark, get_input_mark, eos in *. simpl.
    rewrite He, andb_false_r. simpl. auto. }
  clearbody c1.
  destruct (negb (eos c1)) eqn:He1; [|exact Hm1].
  apply negb_true_iff in He1.
  assert (Hrec : ∀ text, moved c0 (record_extractor_call text c1)).
  { intros text. destruct Hm1 as (Hs & Ho & Hk & Hi & [names Hn] & Hl).
    split; [exact Hs|]. split; [exact Ho|]. split; [exact Hk|]. split; [exact Hi|].
    split; [exists names; exact Hn|].
    intros Hf He. destruct (Hl Hf He) as (_ & He1' & _). congruence. }
  assert (Hset : ∀ pos ch text, moved c0 (set_cursor pos ch (record_extractor_call text c1))).
  { intros pos ch text. destruct Hm1 as (Hs & Ho & Hk & Hi & [names Hn] & Hl).
    split; [exact Hs|]. split; [exact Ho|]. split; [exact Hk|]. split; [exact Hi|].
    split; [exists names; exact Hn|].
    intros Hf He. destruct (Hl Hf He) as (_ & He1' & _). congruence. }
  destruct (symbol_extractor _) as [new_pos symbol]. simpl.
  destruct new_pos as [d|]; [|apply Hrec].
  case_match; simpl; [apply Hset|apply Hrec].
Qed.

(** *** The operator stack *)

Lemma in_loop_moved (c0 c c' : ParseContext) : in_loop c0 c → moved c c' → in_loop c0 c'.
Proof.
  intros (Hs & [extra Hx] & Hk & He) (Hs' & Ho' & Hk' & He').
  split; [congruence|]. split; [exists extra; congruence|]. split; [congruence|].
  eapply effects_trans; eassumption.
Qed.

Lemma in_loop_step (f : ParseContext → ParseContext) (c0 c : ParseContext) :
  (∀ c, quiet c (f c)) → in_loop c0 c → in_loop c0 (f c).
Proof. intros Hf Hl. eapply in_loop_moved; [exact Hl|apply quiet_moved, Hf]. Qed.

Lemma apply_operator_run (c0 c : ParseContext) :
  in_loop c0 c → _operator_mark c < num_operators c →
  sound (in_loop c0) (apply_operator c).
Proof.
  intros (Hs & [extra Hx] & Hk & He) Hlt.
  unfold apply_operator, pop_operator. unfold num_operators in Hlt.
  destruct extra as [|op extra].
  { simpl in Hx. rewrite Hx, Hk in Hlt. lia. }
  rewrite Hx. simpl.
  set (c1 := set_operator_stack (extra ++ _operator_stack c0)%list c).
  assert (Hl1 : in_loop c0 c1).
  { split; [exact Hs|]. split; [exists extra; reflexivity|]. split; [exact Hk|].
    exact He. }
  clearbody c1.
  destruct (pop_expression c1) as [rhs c2] eqn:E2.
  destruct (pop_expression c2) as [lhs c3] eqn:E3. simpl.
  apply (in_loop_step (push_expression _)); [apply push_expression_quiet|].
  replace c3 with (snd (pop_expression c2)) by (rewrite E3; reflexivity).
  apply (in_loop_step (λ c, snd (pop_expression c))); [apply pop_expression_quiet|].
  replace c2 with (snd (pop_expression c1)) by (rewrite E2; reflexivity).
  apply (in_loop_step (λ c, snd (pop_expression c))); [apply pop_expression_quiet|].
  exact Hl1.
Qed.

Lemma push_operator_loop_run (n : nat) (node : Operator_UP) (c0 c : ParseContext) :
  in_loop c0 c → sound (in_loop c0) (push_operator_loop n node c).
Proof.
  revert c. induction n as [|n IH]; intros c Hl; simpl; [exact Hl|].
  destruct (_operator_stack c) as [|back rest] eqn:Eo; [exact Hl|].
  destruct ((_operator_mark c <? length (back :: rest)) && do_before back node) eqn:Ec;
    [|exact Hl].
  apply andb_prop in Ec as [Hlt _]. apply Nat.ltb_lt in Hlt.
  apply sound_bind. eapply sound_mono.
  - apply apply_operator_run; [exact Hl|]. unfold num_operators. rewrite Eo. exact Hlt.
  - intros c1 Hl1. apply IH, Hl1.
Qed.

Lemma push_operator_run (node : Operator_UP) (c0 c : ParseContext) :
  in_loop c0 c → sound (in_loop c0) (push_operator node c).
Proof.
  intros Hl. unfold push_operator. apply sound_bind. eapply sound_mono.
  - apply push_operator_loop_run, Hl.
  - intros c1 (Hs & [extra Hx] & Hk & He). simpl.
    split; [exact Hs|]. split; [exists (node :: extra); simpl; rewrite Hx; reflexivity|].
    split; [exact Hk|]. exact He.
Qed.

Lemma apply_operators_run (n : nat) (c0 c : ParseContext) :
  in_loop c0 c → sound (in_loop c0) (apply_operators n c).
Proof.
  revert c. induction n as [|n IH]; intros c Hl; simpl; [exact Hl|].
  destruct (_operator_mark c <? num_operators c) eqn:Ec; [|exact Hl].
  apply Nat.ltb_lt in Ec.
  apply sound_bind. eapply sound_mono; [exact (apply_operator_run c0 c Hl Ec)|].
  intros c1 Hl1. apply IH, Hl1.
Qed.

Lemma parse_operator_run (c0 c : ParseContext) :
  in_loop c0 c → sound (in_loop c0) (parse_operator c).
Proof.
  intros Hl. unfold parse_operator.
  assert (Hl1 : in_loop c0 (skip_spaces c)) by (apply in_loop_step; trail).
  destruct (OperatorRepo_create _) as [[op str_size]|].
  - apply sound_bind. eapply sound_mono; [apply push_operator_run, Hl1|].
    intros c2 Hl2. simpl. apply in_loop_step; trail.
  - simpl. apply in_loop_step; trail.
Qed.

(** *** The sub-parsers *)

Section RunSubParsers.
Variable pe : ParseContext → outcome ParseContext.
Hypothesis Hpe : ∀ c, scopes c ≠ [] → sound (moved c) (pe c).

Lemma pe_run (c0 c : ParseContext) :
  scopes c0 ≠ [] → moved c0 c → sound (moved c0) (pe c).
Proof.
  intros Hsc Hm. eapply sound_mono; [apply Hpe, (moved_scopes c0 c Hsc Hm)|].
  intros c' Hm'. eapply moved_trans; eassumption.
Qed.

Ltac go_step c0 :=
  match goal with
  | |- sound _ (mbind _ (pe ?x)) =>
      apply sound_bind; eapply sound_mono;
      [ apply (pe_run c0); [assumption|trail]
      | let c' := fresh "c" in let Hm := fresh "Hm" in intros c' Hm; simpl ]
  | |- sound _ (match ?e with (_, _) => _ end) => destruct e eqn:?
  | |- sound _ (if ?b then _ else _) => destruct b eqn:?
  | |- sound _ (match ?e with Some _ => _ | None => _ end) => destruct e eqn:?
  | |- sound _ (Done _) => simpl
  end.
Ltac go c0 := repeat (go_step c0).
Ltac go_pe c0 c' Hm :=
  apply sound_bind; eapply sound_mono;
  [ apply (pe_run c0); [assumption|trail] | intros c' Hm; cbv beta ].

Lemma parse_if_run (c : ParseContext) :
  scopes c ≠ [] → sound (moved c) (parse_if pe c).
Proof.
  intros Hsc. unfold parse_if. go c.
  repeat (case_match; simplify_eq/=); trail.
Qed.

Lemma parse_call_from_run (todo i : nat) (args : list Node) (c0 c : ParseContext) :
  scopes c0 ≠ [] → moved c0 c →
  sound (λ r, moved c0 (snd r)) (parse_call_from pe todo i args c).
Proof.
  intros Hsc. revert i args c. induction todo as [|todo IH]; intros i args c Hm; simpl.
  - exact Hm.
  - destruct (0 <? i); go c0; apply IH; trail.
Qed.

Lemma parse_call_run (name : string) (n : nat) (c : ParseContext) :
  scopes c ≠ [] → sound (moved c) (parse_call pe name n c).
Proof.
  intros Hsc. unfold parse_call. apply sound_bind.
  eapply sound_mono; [apply (parse_call_from_run _ _ _ c); trail|].
  intros [args c'] Hm. simpl in *. trail.
Qed.

Lemma parse_tensor_sum_run (c : ParseContext) :
  scopes c ≠ [] → sound (moved c) (parse_tensor_sum pe c).
Proof. intros Hsc. unfold parse_tensor_sum. go c; trail. Qed.

Lemma moved_shift (c c' : ParseContext) : moved c c' → shift c c'.
Proof. intros [_ Hs]. exact Hs. Qed.

Lemma parse_let_run (c : ParseContext) :
  scopes c ≠ [] → sound (moved c) (parse_let pe c).
Proof.
  intros Hsc. unfold parse_let.
  destruct (get_ident c) as [name c1] eqn:E1.
  go_pe c c2 Hm2.
  destruct (pop_expression c2) as [value c3] eqn:E3.
  set (c4 := eat "," c3).
  assert (Hm4 : moved c c4) by (subst c4; trail).
  clearbody c4.
  apply sound_bind. eapply sound_mono;
    [apply push_let_binding_run, (moved_scopes c c4 Hsc Hm4)|].
  intros c5 (Hsh5 & ext & names & rest & Hsc4 & Hsc5). simpl.
  apply sound_bind. eapply sound_mono; [apply Hpe; rewrite Hsc5; discriminate|].
  intros c6 Hm6. simpl.
  destruct (pop_expression c6) as [expr c7] eqn:E7.
  assert (Hm7 : moved c5 c7) by trail.
  apply sound_bind. eapply sound_mono.
  { apply (pop_let_binding_run c7 ext names name rest).
    destruct Hm7 as [-> _]. exact Hsc5. }
  intros c8 [Hsh8 Hsc8]. simpl.
  apply (moved_step (push_expression _)); [trail|].
  split.
  - rewrite Hsc8, <- Hsc4. apply Hm4.
  - eapply shift_trans; [apply moved_shift, Hm4|].
    eapply shift_trans; [exact Hsh5|].
    eapply shift_trans; [apply moved_shift, Hm7|exact Hsh8].
Qed.

Lemma ExplicitParams_sound (params_in : list string) :
  sound (λ _, True) (ExplicitParams params_in).
Proof.
  unfold ExplicitParams. generalize (mkParams Explicit ∅).
  induction params_in as [|x l IH]; intros q; simpl; [exact I|].
  unfold assert. case_match; simpl; [apply IH|reflexivity].
Qed.

Lemma parse_lambda_run (c : ParseContext) :
  scopes c ≠ [] → sound (λ r, moved c (snd r)) (parse_lambda pe c).
Proof.
  intros Hsc. unfold parse_lambda.
  destruct (get_ident_list _) as [param_names c1] eqn:E1.
  assert (Hm1 : moved c c1) by trail.
  apply sound_bind. eapply sound_mono; [apply ExplicitParams_sound|].
  intros params _. simpl.
  destruct (push_resolve_context_run (LambdaParams params) None c1) as (Hsh2 & Hsc2).
  set (c2 := push_resolve_context (LambdaParams params) None c1) in *. clearbody c2.
  set (c3 := eat "(" (skip_spaces c2)).
  assert (Hm3 : moved c2 c3) by (subst c3; trail).
  clearbody c3.
  assert (Hsc3 : scopes c3 ≠ []) by (destruct Hm3 as [-> _]; rewrite Hsc2; discriminate).
  apply sound_bind. eapply sound_mono; [apply Hpe, Hsc3|].
  intros c4 Hm4. simpl.
  assert (Hm5 : moved c2 (eat ")" c4)) by (eapply moved_trans; [exact Hm3|trail]).
  apply sound_bind. eapply sound_mono.
  { apply (pop_resolve_context_run _ (None, []) (scopes c1)).
    destruct Hm5 as [-> _]. exact Hsc2. }
  intros c6 [Hsh6 Hsc6]. simpl.
  destruct (pop_expression c6) as [lambda_root c7] eqn:E7. simpl.
  eapply (pair_moved pop_expression _ c6 c7 _); [trail|exact E7|].
  split.
  - rewrite Hsc6. apply Hm1.
  - eapply shift_trans; [apply moved_shift, Hm1|].
    eapply shift_trans; [exact Hsh2|].
    eapply shift_trans; [apply moved_shift, Hm5|exact Hsh6].
Qed.

Lemma parse_tensor_map_run (c : ParseContext) :
  scopes c ≠ [] → sound (moved c) (parse_tensor_map pe c).
Proof.
  intros Hsc. unfold parse_tensor_map.
  go_pe c c1 Hm1.
  destruct (pop_expression c1) as [child c2] eqn:E2.
  assert (Hm3 : moved c (eat "," c2)) by trail.
  apply sound_bind. eapply sound_mono;
    [apply parse_lambda_run, (moved_scopes c _ Hsc Hm3)|].
  intros [lambda c4] Hm4. simpl in *.
  assert (moved c c4) by (eapply moved_trans; [exact Hm3|exact Hm4]).
  case_match; simpl; trail.
Qed.

Lemma parse_tensor_join_run (c : ParseContext) :
  scopes c ≠ [] → sound (moved c) (parse_tensor_join pe c).
Proof.
  intros Hsc. unfold parse_tensor_join.
  go_pe c c1 Hm1.
  destruct (pop_expression c1) as [lhs c2] eqn:E2.
  go_pe c c3 Hm3.
  destruct (pop_expression c3) as [rhs c4] eqn:E4.
  assert (Hm5 : moved c (eat "," c4)) by trail.
  apply sound_bind. eapply sound_mono;
    [apply parse_lambda_run, (moved_scopes c _ Hsc Hm5)|].
  intros [lambda c6] Hm6. simpl in *.
  assert (moved c c6) by (eapply moved_trans; [exact Hm5|exact Hm6]).
  case_match; simpl; trail.
Qed.

Lemma try_parse_call_run (name : string) (c : ParseContext) :
  scopes c ≠ [] → sound (λ r, moved c (snd r)) (try_parse_call pe name c).
Proof.
  intros Hsc. unfold try_parse_call.
  destruct (Ascii.eqb (get (skip_spaces c)) "(") eqn:Hg; simpl; [|trail].
  set (c2 := eat "(" (skip_spaces c)).
  assert (Hm2 : moved c c2) by (subst c2; trail).
  assert (Hsc2 : scopes c2 ≠ []) by (apply (moved_scopes c c2 Hsc Hm2)).
  assert (Hclose : ∀ r, sound (moved c2) r →
            sound (λ r : bool * ParseContext, moved c r.2)
                  (ctx ← r; Done (true, eat ")" ctx))).
  { intros r Hr. apply sound_bind. eapply sound_mono; [exact Hr|].
    intros c' Hm'. simpl. eapply moved_trans; [exact Hm2|trail]. }
  clearbody c2.
  repeat case_match; try apply Hclose;
    auto using parse_if_run, parse_let_run, parse_call_run,
               parse_tensor_map_run, parse_tensor_join_run, parse_tensor_sum_run.
  simpl. trail.
Qed.

Lemma parse_symbol_run (name : string) (c0 c : ParseContext) :
  scopes c0 ≠ [] → moved c0 c →
  sound (λ r, moved c0 r.2) (parse_symbol name (get_input_mark c0) c).
Proof.
  intros Hsc Hm. unfold parse_symbol.
  apply sound_bind. apply resolve_let_ref_sound; [apply (moved_scopes c0 c Hsc Hm)|].
  intros id. case_match; simpl; [exact Hm|].
  apply sound_bind. eapply sound_mono; [apply extract_symbol_run; eassumption|].
  intros [name' c3] Hm3. simpl in *.
  apply sound_bind. eapply sound_mono; [apply (resolve_parameter_run name' c0 c3); assumption|].
  intros [id' c4] Hm4. simpl in *. exact Hm4.
Qed.

Lemma parse_symbol_or_call_run (c : ParseContext) :
  scopes c ≠ [] → sound (moved c) (parse_symbol_or_call pe c).
Proof.
  intros Hsc. unfold parse_symbol_or_call.
  destruct (get_ident c) as [name c1] eqn:E1.
  assert (Hm1 : moved c c1) by trail.
  apply sound_bind. eapply sound_mono;
    [apply try_parse_call_run, (moved_scopes c c1 Hsc Hm1)|].
  intros [called c2] Hm2. simpl in *.
  assert (Hm2' : moved c c2) by (eapply moved_trans; eassumption).
  destruct called; simpl; [exact Hm2'|].
  apply sound_bind. eapply sound_mono; [apply parse_symbol_run; eassumption|].
  intros [[id name'] c'] Hm'. simpl in *.
  destruct (empty name'); simpl; [trail|].
  case_match; simpl; trail.
Qed.

Lemma parse_array_loop_run (rounds size : nat) (array : list Node) (c0 c : ParseContext) :
  scopes c0 ≠ [] → moved c0 c →
  sound (λ r, moved c0 (snd r)) (parse_array_loop pe rounds size array c).
Proof.
  intros Hsc. revert size array c.
  induction rounds as [|rounds IH]; intros size array c Hm; simpl.
  - case_match; simpl; [exact I|exact Hm].
  - destruct (negb (eos c) && _) eqn:Hc; simpl; [|exact Hm].
    set (c1 := if 1 <? S size then eat "," c else c).
    assert (Hm1 : moved c0 c1) by (subst c1; case_match; trail).
    clearbody c1.
    go_pe c0 c2 Hm2.
    destruct (pop_expression c2) as [node c3] eqn:E3.
    apply IH. trail.
Qed.

Lemma parse_array_run (rounds : nat) (c : ParseContext) :
  scopes c ≠ [] → sound (moved c) (parse_array pe rounds c).
Proof.
  intros Hsc. unfold parse_array.
  apply sound_bind. eapply sound_mono.
  { apply (parse_array_loop_run rounds 0 [] c); [exact Hsc|trail]. }
  intros [array c3] Hm3. simpl in *. trail.
Qed.

Lemma parse_value_body_run (pv : ParseContext → outcome ParseContext)
    (rounds : nat) (c : ParseContext) :
  (∀ c, scopes c ≠ [] → sound (moved c) (pv c)) →
  scopes c ≠ [] → sound (moved c) (parse_value_body pe pv rounds c).
Proof.
  intros Hpv Hsc. unfold parse_value_body.
  set (c1 := skip_spaces c).
  assert (Hm1 : moved c c1) by (subst c1; trail).
  assert (Hsc1 : scopes c1 ≠ []) by (apply (moved_scopes c c1 Hsc Hm1)).
  clearbody c1.
  assert (Hn : moved c (next c1)) by trail.
  assert (Hscn : scopes (next c1) ≠ []) by (apply (moved_scopes c _ Hsc Hn)).
  assert (Hrec : ∀ f : ParseContext → outcome ParseContext,
            (∀ c, scopes c ≠ [] → sound (moved c) (f c)) →
            sound (moved c) (f (next c1))).
  { intros f Hf. eapply sound_mono; [apply Hf, Hscn|].
    intros c' Hm'. exact (moved_trans _ _ _ Hn Hm'). }
  destruct (Ascii.eqb (get c1) "-").
  { apply sound_bind. eapply sound_mono; [apply Hrec, Hpv|].
    intros c2 Hm2. simpl. destruct (pop_expression c2) as [child c3] eqn:E3. simpl. trail. }
  destruct (Ascii.eqb (get c1) "!").
  { apply sound_bind. eapply sound_mono; [apply Hrec, Hpv|].
    intros c2 Hm2. simpl. destruct (pop_expression c2) as [child c3] eqn:E3. simpl. trail. }
  destruct (Ascii.eqb (get c1) "(").
  { apply sound_bind. eapply sound_mono; [apply Hrec, Hpe|].
    intros c2 Hm2. simpl. trail. }
  destruct (Ascii.eqb (get c1) "[").
  { eapply sound_mono; [apply parse_array_run, Hsc1|].
    intros c2 Hm2. exact (moved_trans _ _ _ Hm1 Hm2). }
  destruct (Ascii.eqb (get c1) "034").
  { simpl. trail. }
  destruct (isdigit (get c1)).
  { simpl. trail. }
  eapply sound_mono; [apply parse_symbol_or_call_run, Hsc1|].
  intros c2 Hm2. exact (moved_trans _ _ _ Hm1 Hm2).
Qed.

End RunSubParsers.

(** *** The recursion *)

Lemma parse_recursion_run (fuel : nat) :
  (∀ c, scopes c ≠ [] → sound (moved c) (parse_value fuel c))
  ∧ (∀ c0 c, scopes c0 ≠ [] → in_loop c0 c →
       sound (moved c0) (parse_expression_loop fuel (_operator_mark c0) c)).
Proof.
  induction fuel as [|fuel [IHv IHl]]; [split; intros; exact I|].
  assert (Henter : ∀ c, scopes c ≠ [] →
            sound (moved c) (parse_expression_enter (parse_expression_loop fuel) c)).
  { intros c Hsc. unfold parse_expression_enter. apply IHl; [exact Hsc|].
    split; [reflexivity|]. split; [exists []; reflexivity|]. split; [reflexivity|].
    split; [reflexivity|]. split; [exists []; reflexivity|].
    intros Hf He. repeat split; auto. }
  split.
  - intros c Hsc. simpl. apply parse_value_body_run; assumption.
  - intros c0 c Hsc Hl. simpl.
    assert (Hsc' : scopes c ≠ []) by (destruct Hl as [-> _]; exact Hsc).
    apply sound_bind. eapply sound_mono; [apply IHv, Hsc'|].
    intros c1 Hm1. simpl.
    assert (Hl2 : in_loop c0 (skip_spaces c1)).
    { apply in_loop_step; [apply skip_spaces_quiet|]. eapply in_loop_moved; eassumption. }
    set (c2 := skip_spaces c1) in *. clearbody c2.
    destruct (at_expression_end c2).
    + destruct (apply_operators (num_operators c2) c2) as [c3| |] eqn:Ea.
      * pose proof (apply_operators_run (num_operators c2) c0 c2 Hl2) as Hl3.
        rewrite Ea in Hl3. simpl in Hl3.
        apply apply_operators_exit in Ea; [|lia]. apply Nat.ltb_ge in Ea.
        destruct Hl3 as (Hs3 & [extra Hx] & Hk3 & He3). simpl.
        unfold num_operators in Ea. rewrite Hx, Hk3, length_app in Ea.
        destruct extra as [|op extra]; [|simpl in Ea; lia]. simpl in Hx.
        split; [exact Hs3|]. split; [exact Hx|]. split; [reflexivity|].
        destruct He3 as (Hi3 & Hn3 & Hla3). split; [exact Hi3|]. split; [exact Hn3|].
        exact Hla3.
      * pose proof (apply_operators_run (num_operators c2) c0 c2 Hl2) as Hl3.
        rewrite Ea in Hl3. exact Hl3.
      * exact I.
    + apply sound_bind. eapply sound_mono; [apply parse_operator_run, Hl2|].
      intros c3 Hl3. simpl. apply IHl; assumption.
Qed.

Lemma parse_expression_run (fuel : nat) (c : ParseContext) :
  scopes c ≠ [] → sound (moved c) (parse_expression fuel c).
Proof.
  intros Hsc. unfold parse_expression, parse_expression_enter.
  apply (proj2 (parse_recursion_run fuel)); [exact Hsc|].
  split; [reflexivity|]. split; [exists []; reflexivity|]. split; [reflexivity|].
  split; [reflexivity|]. split; [exists []; reflexivity|].
  intros Hf He. repeat split; auto.
Qed.

Lemma parse_function_sound (fuel : nat) (params : Params) (expression : string)
    (symbol_extractor : option SymbolExtractor) :
  sound (λ _, True) (parse_function fuel params expression symbol_extractor).
Proof.
  unfold parse_function. apply sound_bind. eapply sound_mono.
  - apply parse_expression_run. discriminate.
  - intros c _. simpl. case_match; exact I.
Qed.

Lemma returns_or_asserts {A : Type} (r : outcome A) :
  sound (λ _, True) r → r ≠ OutOfFuel →
  (∃ a, r = Done a) ∨ r = Abort "lookup(param) == UNDEF".
Proof.
  destruct r as [a|what|]; simpl; intros Hs Hf;
    [left; eauto|right; congruence|contradiction].
Qed.

(** X5. Every one of the four [Function::parse] overloads returns a
    Function or stops at the assertion of ExplicitParams, on every
    expression, with every symbol extractor and whatever the operator and
    call repositories and [strtod] answer. So the parser always comes to an
    end, and the other assertions of the file, on the resolve stack, the
    let names and the operator stack, never fire. *)
Theorem X5_parse_returns_or_rejects_a_repeated_parameter
    (params : list string) (expression : string) (symbol_extractor : SymbolExtractor) :
  ((∃ f, parse expression = Done f)
   ∨ parse expression = Abort "lookup(param) == UNDEF")
  ∧ ((∃ f, parse_with_extractor expression symbol_extractor = Done f)
     ∨ parse_with_extractor expression symbol_extractor = Abort "lookup(param) == UNDEF")
  ∧ ((∃ f, parse_params params expression = Done f)
     ∨ parse_params params expression = Abort "lookup(param) == UNDEF")
  ∧ ((∃ f, parse_params_with_extractor params expression symbol_extractor = Done f)
     ∨ parse_params_with_extractor params expression symbol_extractor
       = Abort "lookup(param) == UNDEF").
Proof.
  assert (Hf : ∀ q ext,
            (∃ f, parse_function (parse_fuel expression) q expression ext = Done f)
            ∨ parse_function (parse_fuel expression) q expression ext
              = Abort "lookup(param) == UNDEF").
  { intros q ext. apply returns_or_asserts;
      [apply parse_function_sound|apply parse_function_terminates]. }
  split; [apply Hf|]. split; [apply Hf|].
  unfold parse_params, parse_params_with_extractor.
  assert (Ht : ExplicitParams params ≠ OutOfFuel).
  { unfold ExplicitParams. generalize (mkParams Explicit ∅).
    induction params as [|param rest IH]; intros p; simpl; [discriminate|].
    destruct (lookup p param =? Params_UNDEF)%Z; simpl; [apply IH|discriminate]. }
  pose proof (ExplicitParams_sound params) as He.
  destruct (ExplicitParams params) as [p|what|]; simpl in *;
    [split; apply Hf|subst what; split; right; reflexivity|contradiction].
Qed.

(** X6. [parse_expression] is balanced: when it returns, the operator
    stack and the operator mark are as it found them, and so are the resolve
    contexts with their let names, however deep the expression nests and
    whether or not it failed. *)
Theorem X6_parse_expression_is_balanced (fuel : nat) (c c' : ParseContext) :
  _resolve_stack c ≠ [] → parse_expression fuel c = Done c' →
  _operator_stack c' = _operator_stack c
  ∧ _operator_mark c' = _operator_mark c
  ∧ scopes c' = scopes c
  ∧ _input c' = _input c.
Proof.
  intros Hrs E.
  assert (Hsc : scopes c ≠ []).
  { unfold scopes. destruct (_resolve_stack c); [contradiction|discriminate]. }
  pose proof (parse_expression_run fuel c Hsc) as Hs. rewrite E in Hs.
  destruct Hs as (Hs & Ho & Hk & Hi & _). auto.
Qed.

(** X7. The first failure is the one reported. If the context has failed,
    with the cursor reading the end of input as [fail] leaves it, then no
    later [parse_expression] changes the failure or the position, and
    [get_result] builds the same Error node after it as before it. *)
Theorem X7_latched_failure_is_kept (fuel : nat) (c c' : ParseContext) :
  _resolve_stack c ≠ [] → failed c = true → eos c = true →
  parse_expression fuel c = Done c' →
  _failure c' = _failure c ∧ _pos c' = _pos c ∧ eos c' = true
  ∧ get_result c' = get_result c.
Proof.
  intros Hrs Hf He E.
  assert (Hsc : scopes c ≠ []).
  { unfold scopes. destruct (_resolve_stack c); [contradiction|discriminate]. }
  pose proof (parse_expression_run fuel c Hsc) as Hs. rewrite E in Hs.
  destruct Hs as (_ & _ & _ & Hi & _ & Hl).
  destruct (Hl Hf He) as (Hf' & He' & Hp').
  split; [exact Hf'|]. split; [exact Hp'|]. split; [exact He'|].
  assert (Hg : ∀ x, failed x = true →
            get_result x
            = nodes.Error ("[" +:+ c_str (str_take (_pos x) (_input x)) +:+ "]...["
                           +:+ c_str (_failure x) +:+ "]...["
                           +:+ c_str (str_drop (_pos x) (_input x)) +:+ "]")).
  { intros x Hx. unfold get_result, fail. unfold failed in Hx.
    apply negb_true_iff in Hx.
    destruct (negb (eos x) || _ || _); rewrite ?Hx; simpl; rewrite ?Hx; reflexivity. }
  rewrite (Hg c Hf), (Hg c'); [|unfold failed in *; rewrite Hf'; exact Hf].
  rewrite Hf', Hp', Hi. reflexivity.
Qed.

(** *** The parameters of the Function *)

Lemma resolve_all_explicit (names : list string) (p : Params) :
  kind p = Explicit → resolve_all names p = p.
Proof.
  intros Hk. induction names as [|name rest IH]; [reflexivity|].
  change (resolve_all (name :: rest) p) with (resolve_all rest (snd (resolve p name))).
  unfold resolve at 1. rewrite Hk. simpl. exact IH.
Qed.

Lemma extract_length (p : Params) : length (extract p) = size (_params p).
Proof.
  unfold extract. generalize (size (_params p)). intros n.
  apply (map_fold_weak_ind (λ (r : list string) (_ : gmap string nat), length r = n)).
  - apply length_replicate.
  - intros k x m r _ IH. rewrite length_insert. exact IH.
Qed.

Lemma resolve_size_le (p : Params) (name : string) :
  size (_params p) ≤ size (_params (snd (resolve p name))).
Proof.
  unfold resolve, lookup_add. destruct (kind p); simpl; [lia|].
  case_match; simpl; [|lia].
  rewrite map_size_insert. destruct (_params p !! name); simpl; lia.
Qed.

Lemma resolve_all_size_le (names : list string) (p : Params) :
  size (_params p) ≤ size (_params (resolve_all names p)).
Proof.
  revert p. induction names as [|name rest IH]; intros p; [reflexivity|].
  change (resolve_all (name :: rest) p) with (resolve_all rest (snd (resolve p name))).
  etransitivity; [apply resolve_size_le|apply IH].
Qed.

Lemma resolve_all_represents_sized (names : list string) (p : Params) (l : list string) :
  represents p l → kind p = Implicit →
  (Z.of_nat (size (_params (resolve_all names p))) < 2 ^ 64 - 1)%Z →
  ∃ l', represents (resolve_all names p) (l ++ l').
Proof.
  revert p l. induction names as [|name rest IH]; intros p l Hrep Hk Hsize.
  - exists []. rewrite app_nil_r. exact Hrep.
  - change (resolve_all (name :: rest) p)
      with (resolve_all rest (snd (resolve p name))) in *.
    pose proof (resolve_all_size_le rest (snd (resolve p name))) as H1.
    pose proof (resolve_size_le p name) as H2.
    pose proof (represents_size p l Hrep) as H3.
    destruct (resolve_implicit_step p l name Hrep Hk ltac:(lia)) as (i & _ & Hk' & Hrep' & _).
    destruct (IH _ _ Hrep' Hk' Hsize) as (l' & Hr).
    destruct (decide (name ∈ l)).
    + exists l'. exact Hr.
    + exists (name :: l'). rewrite <- app_assoc in Hr. exact Hr.
Qed.

Lemma parse_function_params (fuel : nat) (params : Params) (expression : string)
    (symbol_extractor : option SymbolExtractor) (f : Function) :
  parse_function fuel params expression symbol_extractor = Done f →
  Function_params f = []
  ∨ ∃ names, Function_params f = extract (resolve_all names params).
Proof.
  unfold parse_function.
  pose proof (parse_expression_run fuel
                (ParseContext_new params expression symbol_extractor)) as Hs.
  destruct (parse_expression fuel _) as [c| |]; simpl; try discriminate.
  destruct Hs as (_ & _ & _ & _ & [names Hn] & _); [discriminate|].
  simpl in Hn.
  case_match; intros [= <-]; simpl; [left; reflexivity|].
  right. exists names. rewrite Hn. reflexivity.
Qed.

(** X8. Explicit parameters are reported as they were given. Whatever the
    expression is, and whether or not it parses, the Function returned by
    the overloads that take a parameter list has exactly that list as its
    parameters: no name is added, dropped or moved. *)
Theorem X8_explicit_parameters_are_kept (params : list string) (expression : string)
    (symbol_extractor : SymbolExtractor) (f : Function) :
  NoDup params → (Z.of_nat (length params) < 2 ^ 64 - 1)%Z →
  parse_params params expression = Done f
  ∨ parse_params_with_extractor params expression symbol_extractor = Done f →
  Function_params f = params.
Proof.
  intros Hnd Hlen Hf.
  destruct (ExplicitParams_represents params Hnd Hlen) as (p & Hp & Hk & Hrep).
  unfold parse_params, parse_params_with_extractor in Hf. rewrite Hp in Hf. simpl in Hf.
  assert (Hx : ∀ ext, parse_function (parse_fuel expression) p expression ext = Done f →
                 Function_params f = params).
  { intros ext E. unfold parse_function in E.
    pose proof (parse_expression_run (parse_fuel expression)
                  (ParseContext_new p expression ext)) as Hs.
    destruct (parse_expression _ _) as [c| |]; simpl in E; try discriminate.
    destruct Hs as (_ & _ & _ & _ & [names Hn] & _); [discriminate|].
    simpl in Hn. rewrite (resolve_all_explicit names p Hk) in Hn.
    unfold implicit in E. rewrite Hk, andb_false_r in E.
    injection E as <-. simpl. rewrite Hn. apply represents_extract, Hrep. }
  destruct Hf as [Hf|Hf]; eapply Hx; exact Hf.
Qed.

(** X9. Implicit parameters are reported once each. The parameter list of
    a Function parsed without a parameter list never repeats a name. *)
Theorem X9_implicit_parameters_are_distinct (expression : string)
    (symbol_extractor : SymbolExtractor) (f : Function) :
  (Z.of_nat (length (Function_params f)) < 2 ^ 64 - 1)%Z →
  parse expression = Done f ∨ parse_with_extractor expression symbol_extractor = Done f →
  NoDup (Function_params f).
Proof.
  intros Hlen Hf.
  assert (Hx : ∀ ext, parse_function (parse_fuel expression) ImplicitParams expression ext
                      = Done f → NoDup (Function_params f)).
  { intros ext E. apply parse_function_params in E as [E|[names E]].
    - rewrite E. constructor.
    - rewrite E in Hlen |- *. rewrite extract_length in Hlen.
      destruct (resolve_all_represents_sized names ImplicitParams []
                  (represents_empty _) eq_refl Hlen) as (l' & Hrep).
      rewrite (represents_extract _ _ Hrep). apply Hrep. }
  destruct Hf as [Hf|Hf]; eapply Hx; exact Hf.
Qed.

End Run.

Lemma X6_witness :
  ∃ c', parse_expression (parse_fuel "1+(2*3)")
          (ParseContext_new ImplicitParams "1+(2*3)" None) = Done c'
        ∧ _operator_stack c' = [] ∧ _operator_mark c' = 0.
Proof.
  destruct (Done_and (parse_expression (parse_fuel "1+(2*3)")
                        (ParseContext_new ImplicitParams "1+(2*3)" None))
                     (λ _, true)) as (c' & E & _); [reflexivity|].
  exists c'. split; [exact E|].
  destruct (X6_parse_expression_is_balanced (parse_fuel "1+(2*3)")
              (ParseContext_new ImplicitParams "1+(2*3)" None) c'
              ltac:(discriminate) E) as (Ho & Hk & _).
  split; [exact Ho|exact Hk].
Defined.

Lemma X7_witness :
  ∃ c', parse_expression (parse_fuel "a+b")
          (fail "first" (ParseContext_new ImplicitParams "a+b" None)) = Done c'
        ∧ _failure c' = "first" ∧ _pos c' = 0.
Proof.
  destruct (Done_and (parse_expression (parse_fuel "a+b")
                        (fail "first" (ParseContext_new ImplicitParams "a+b" None)))
                     (λ _, true)) as (c' & E & _); [reflexivity|].
  exists c'. split; [exact E|].
  destruct (X7_latched_failure_is_kept (parse_fuel "a+b")
              (fail "first" (ParseContext_new ImplicitParams "a+b" None)) c'
              ltac:(discriminate) eq_refl eq_refl E) as (Hf & Hp & _).
  split; [exact Hf|exact Hp].
Defined.

Lemma X8_witness :
  ∃ f, parse_params ["x"; "y"] "y +" = Done f
       ∧ has_error f = true ∧ Function_params f = ["x"; "y"].
Proof.
  destruct (Done_and (parse_params ["x"; "y"] "y +") has_error) as (f & E & He);
    [reflexivity|].
  exists f. split; [exact E|]. split; [exact He|].
  apply (X8_explicit_parameters_are_kept ["x"; "y"] "y +" extractor_none f);
    [|reflexivity|left; exact E].
  apply NoDup_cons. split; [|apply NoDup_singleton].
  intros Hin. apply list_elem_of_singleton in Hin. discriminate.
Defined.

Lemma X9_witness :
  ∃ f, parse "a+b*a" = Done f ∧ NoDup (Function_params f).
Proof.
  destruct (Done_and (parse "a+b*a") (λ f, length (Function_params f) <? 3))
    as (f & E & Hl); [reflexivity|].
  exists f. split; [exact E|].
  apply (X9_implicit_parameters_are_distinct "a+b*a" extractor_none f);
    [|left; exact E].
  apply Nat.ltb_lt in Hl. lia.
Defined.

(** ** The cursor on the bytes of the input *)

Section Leaves.
Context `{Externals}.

Lemma byte_at_end (s : string) : byte_at s (String.length s) = NUL.
Proof. induction s as [|ch s IH]; [reflexivity|exact IH]. Qed.

Lemma byte_at_beyond (s : string) (p : nat) : String.length s ≤ p → byte_at s p = NUL.
Proof.
  revert p. induction s as [|ch s IH]; intros p Hp.
  - destruct p; reflexivity.
  - destruct p as [|p]; simpl in Hp; [lia|]. apply (IH p). lia.
Qed.

Lemma load_byte_at (c : ParseContext) (p : nat) :
  p < _end c → load c p = byte_at (_input c) p.
Proof.
  intros Hp. unfold load. apply Nat.ltb_lt in Hp. rewrite Hp. reflexivity.
Qed.

Lemma load_end (c : ParseContext) : load c (_end c) = end_byte.
Proof. unfold load. rewrite Nat.ltb_irrefl. reflexivity. Qed.

(** In a NUL-terminated buffer every byte up to [_end] is the byte of the
    C string. *)
Lemma load_NUL_terminated (c : ParseContext) (p : nat) :
  end_byte = NUL → load c p = byte_at (_input c) p.
Proof.
  intros Hz. unfold load. destruct (p <? _end c) eqn:E; [reflexivity|].
  apply Nat.ltb_ge in E. rewrite Hz. symmetry. apply byte_at_beyond, E.
Qed.

(** The bytes of a part of the input. *)
Lemma load_app (c : ParseContext) (pre post : string) (k : nat) :
  _input c = pre +:+ post → k < String.length post →
  load c (String.length pre + k) = byte_at post k.
Proof.
  intros Hin Hk. rewrite load_byte_at.
  - rewrite Hin. apply byte_at_app_r.
  - unfold _end. rewrite Hin, str_length_app. lia.
Qed.

Lemma is_NUL_byte_at_end (s : string) : is_NUL (byte_at s (String.length s)) = true.
Proof. rewrite byte_at_end. reflexivity. Qed.

Lemma seek_seek (p q : nat) (c : ParseContext) : seek q (seek p c) = seek q c.
Proof. reflexivity. Qed.

Lemma seek_here (c : ParseContext) :
  _curr c = load c (_pos c) → seek (_pos c) c = c.
Proof. destruct c. unfold seek. simpl. intros <-. reflexivity. Qed.

Lemma ParseContext_new_seek (params : Params) (ch : ascii) (rest : string)
    (symbol_extractor : option SymbolExtractor) :
  ParseContext_new params (String ch rest) symbol_extractor
  = seek 0 (ParseContext_new params (String ch rest) symbol_extractor).
Proof. reflexivity. Qed.

Lemma ParseContext_new_seek_NUL (params : Params) (str : string)
    (symbol_extractor : option SymbolExtractor) :
  end_byte = NUL →
  ParseContext_new params str symbol_extractor
  = seek 0 (ParseContext_new params str symbol_extractor).
Proof.
  intros Hz. destruct str; [|reflexivity].
  unfold seek, load, ParseContext_new. simpl. rewrite Hz. reflexivity.
Qed.

Lemma next_seek (p : nat) (c : ParseContext) :
  p < _end c → is_NUL (load c p) = false → next (seek p c) = seek (S p) c.
Proof.
  intros Hp Hn. unfold next. change (_curr (seek p c)) with (load c p).
  change (_pos (seek p c)) with p. change (_end (seek p c)) with (_end c).
  rewrite Hn. apply Nat.ltb_lt in Hp. rewrite Hp. reflexivity.
Qed.

Lemma eat_seek (ch : ascii) (p : nat) (c : ParseContext) :
  p < _end c → load c p = ch → is_NUL ch = false → eat ch (seek p c) = seek (S p) c.
Proof.
  intros Hp Hl Hn. unfold eat. change (_curr (seek p c)) with (load c p).
  rewrite Hl, Ascii.eqb_refl. apply next_seek; [exact Hp|rewrite Hl; exact Hn].
Qed.

Lemma isspace_not_NUL (ch : ascii) : isspace ch = true → is_NUL ch = false.
Proof. destruct ch as [[] [] [] [] [] [] [] []]; vm_compute; congruence. Qed.

Lemma byte_not_NUL_lt (s : string) (p : nat) :
  is_NUL (byte_at s p) = false → p < String.length s.
Proof.
  intros Hn. destruct (le_lt_dec (String.length s) p) as [Hge|Hlt]; [|exact Hlt].
  exfalso. rewrite (byte_at_beyond s p Hge) in Hn. discriminate.
Qed.

(** A scan that calls [next] while the current byte passes [P] stops on the
    first byte that does not. *)
Lemma scan_seek (P : ascii → bool) (n fuel p : nat) (c : ParseContext) :
  (∀ ch, P ch = true → is_NUL ch = false) →
  p + n ≤ _end c →
  (∀ k, k < n → P (load c (p + k)) = true) →
  P (load c (p + n)) = false →
  n ≤ fuel →
  while fuel (λ ctx, negb (eos ctx) && P (_curr ctx)) next (seek p c) = seek (p + n) c.
Proof.
  intros HP. revert fuel p. induction n as [|n IH]; intros fuel p Hend Hall Hstop Hfuel.
  - rewrite Nat.add_0_r in *. destruct fuel as [|fuel]; [reflexivity|]. cbn [while].
    change (_curr (seek p c)) with (load c p).
    rewrite Hstop, andb_false_r. reflexivity.
  - destruct fuel as [|fuel]; [lia|]. cbn [while].
    pose proof (Hall 0 ltac:(lia)) as H0. rewrite Nat.add_0_r in H0.
    unfold eos at 1. change (_curr (seek p c)) with (load c p).
    rewrite (HP _ H0), H0. simpl (negb false && true). cbv iota.
    rewrite next_seek; [|lia|apply HP, H0].
    replace (p + S n) with (S p + n) by lia. apply IH; [lia| | |lia].
    + intros k Hk. replace (S p + k) with (p + S k) by lia. apply Hall. lia.
    + replace (S p + n) with (p + S n) by lia. exact Hstop.
Qed.

Lemma skip_spaces_seek (n p : nat) (c : ParseContext) :
  p + n ≤ _end c →
  (∀ k, k < n → isspace (load c (p + k)) = true) →
  isspace (load c (p + n)) = false →
  skip_spaces (seek p c) = seek (p + n) c.
Proof.
  intros Hend Hall Hstop. unfold skip_spaces.
  apply (scan_seek isspace n); [apply isspace_not_NUL|exact Hend|exact Hall|exact Hstop|].
  destruct n as [|n]; [lia|].
  pose proof (Hall 0 ltac:(lia)) as H0. rewrite Nat.add_0_r in H0.
  unfold chars_left, eos. change (_curr (seek p c)) with (load c p).
  rewrite (isspace_not_NUL _ H0).
  change (_end (seek p c)) with (_end c). change (_pos (seek p c)) with p. lia.
Qed.

Lemma skip_spaces_cursor (c : ParseContext) :
  ∃ p ch, skip_spaces c = set_cursor p ch c.
Proof.
  unfold skip_spaces.
  apply (while_ind (λ s, ∃ p ch, s = set_cursor p ch c)).
  - intros s (p & ch & ->) _. unfold next. case_match; eauto.
  - exists (_pos c), (_curr c). destruct c; reflexivity.
Qed.

(** ** An operand is missing *)

Lemma eos_curr (c : ParseContext) : eos c = true → _curr c = NUL.
Proof. unfold eos, is_NUL. intros He. apply Ascii.eqb_eq, He. Qed.

Lemma skip_spaces_eos (c : ParseContext) : eos c = true → skip_spaces c = c.
Proof.
  intros He. unfold skip_spaces, chars_left. rewrite He. reflexivity.
Qed.

Lemma get_ident_eos (c : ParseContext) : eos c = true → get_ident c = ("", c).
Proof.
  intros He. unfold get_ident. rewrite (skip_spaces_eos c He).
  unfold get. rewrite (eos_curr c He). reflexivity.
Qed.

Lemma try_parse_call_eos (pe : ParseContext → outcome ParseContext) (name : string)
    (c : ParseContext) :
  eos c = true → try_parse_call pe name c = Done (false, c).
Proof.
  intros He. unfold try_parse_call. rewrite (skip_spaces_eos c He).
  unfold get. rewrite (eos_curr c He). reflexivity.
Qed.

(** At the end of the input the name is empty: whether or not a let binds
    the empty name, and with or without a symbol extractor, [parse_symbol]
    leaves the cursor, the failure and the stacks of expressions and
    operators alone. *)
Lemma parse_symbol_eos (c : ParseContext) :
  eos c = true → _resolve_stack c ≠ [] →
  ∃ id q rs, parse_symbol "" (get_input_mark c) c
             = Done (id, "", set_top_params q (set_resolve_stack rs c)).
Proof.
  intros He Hrs. apply eos_curr in He.
  destruct c as [i p cu f es os om rs tp ec]. simpl in *. subst cu.
  destruct rs as [|rc rest]; [contradiction|].
  unfold parse_symbol, resolve_let_ref, resolver. simpl.
  destruct (negb (resolve_let_name rc "" =? Symbol_UNDEF)%Z); simpl.
  { exists (resolve_let_name rc ""), tp, (rc :: rest). reflexivity. }
  unfold extract_symbol, resolve_parameter, restore_input_mark, resolver. simpl.
  destruct (_symbol_extractor rc) as [ext|]; simpl;
    (destruct (_params_ref rc) as [|q0]; simpl;
     [ destruct (resolve tp "") as [id q]; simpl;
       destruct (id =? Params_UNDEF)%Z; simpl;
       eexists; exists q, (rc :: rest); reflexivity
     | destruct (resolve q0 "") as [id q]; simpl;
       destruct (id =? Params_UNDEF)%Z; simpl;
       eexists; exists tp, (mkResolveContext (LambdaParams q) (_symbol_extractor rc)
                                             (_let_names rc) :: rest); reflexivity ]).
Qed.

Lemma apply_operators_at_mark (n : nat) (c : ParseContext) :
  num_operators c ≤ _operator_mark c → apply_operators n c = Done c.
Proof.
  intros Hle. destruct n as [|n]; [reflexivity|]. simpl.
  replace (_operator_mark c <? num_operators c) with false; [reflexivity|].
  symmetry. apply Nat.ltb_ge. exact Hle.
Qed.

Lemma skip_spaces_operator_mark (m : nat) (c : ParseContext) :
  skip_spaces (operator_mark m c) = operator_mark m (skip_spaces c).
Proof.
  unfold skip_spaces.
  change (chars_left (operator_mark m c)) with (chars_left c).
  generalize (chars_left c) as fuel. intros fuel. revert c.
  induction fuel as [|fuel IH]; intros c; [reflexivity|]. simpl.
  change (eos (operator_mark m c)) with (eos c).
  destruct (negb (eos c) && isspace (_curr c)); [|reflexivity].
  rewrite <- IH. f_equal. unfold next. simpl.
  change (_end (operator_mark m c)) with (_end c). case_match; reflexivity.
Qed.

Lemma parse_value_S (fuel : nat) (c : ParseContext) :
  parse_value (S fuel) c
  = parse_value_body (parse_expression_enter (parse_expression_loop fuel))
                     (parse_value fuel) fuel c.
Proof. reflexivity. Qed.

Lemma parse_expression_loop_S (fuel old_mark : nat) (c : ParseContext) :
  parse_expression_loop (S fuel) old_mark c
  = (ctx ← parse_value fuel c;
     let ctx := skip_spaces ctx in
     if at_expression_end ctx then
       ctx ← apply_operators (num_operators ctx) ctx;
       Done (operator_mark old_mark ctx)
     else
       ctx ← parse_operator ctx;
       parse_expression_loop fuel old_mark ctx).
Proof. reflexivity. Qed.

Lemma parse_value_body_eos (pe pv : ParseContext → outcome ParseContext) (rounds : nat)
    (c : ParseContext) :
  eos c = true → parse_value_body pe pv rounds c = parse_symbol_or_call pe c.
Proof.
  intros He. unfold parse_value_body. rewrite (skip_spaces_eos c He).
  unfold get. rewrite (eos_curr c He). reflexivity.
Qed.

Lemma parse_symbol_or_call_eos (pe : ParseContext → outcome ParseContext)
    (c : ParseContext) :
  eos c = true → _resolve_stack c ≠ [] →
  ∃ q rs, parse_symbol_or_call pe c
          = Done (fail "missing value" (set_top_params q (set_resolve_stack rs c))).
Proof.
  intros He Hrs. unfold parse_symbol_or_call.
  rewrite (get_ident_eos c He), (try_parse_call_eos pe "" c He).
  destruct (parse_symbol_eos c He Hrs) as (id & q & rs & Hp).
  change (mbind ?f (Done ?x)) with (f x). cbv beta iota. simpl negb. cbv iota.
  change (get_input_mark c) with (get_input_mark c) in Hp. rewrite Hp.
  exists q, rs. reflexivity.
Qed.

(** [parse_expression] when [skip_spaces] takes the cursor to the end of
    the input, at position [p]. *)
Lemma parse_expression_only_blanks (fuel p : nat) (c : ParseContext) :
  _resolve_stack c ≠ [] → skip_spaces c = set_cursor p NUL c →
  ∃ c', parse_expression (S (S fuel)) c = Done c'
        ∧ _input c' = _input c
        ∧ _failure c' = (if empty (_failure c) then "missing value" else _failure c)
        ∧ _expression_stack c' = _expression_stack c
        ∧ _operator_stack c' = _operator_stack c
        ∧ _operator_mark c' = _operator_mark c
        ∧ _pos c' = p
        ∧ eos c' = true.
Proof.
  intros Hrs Hsk.
  unfold parse_expression, parse_expression_enter.
  rewrite parse_expression_loop_S, parse_value_S.
  unfold parse_value_body at 1.
  rewrite skip_spaces_operator_mark, Hsk.
  set (c1 := operator_mark (num_operators c) (set_cursor p NUL c)).
  change (get c1) with NUL. simpl (Ascii.eqb _ _). change (isdigit NUL) with false.
  cbv iota.
  destruct (parse_symbol_or_call_eos (parse_expression_enter (parse_expression_loop fuel)) c1)
    as (q & rs & Hp); [reflexivity|exact Hrs|].
  rewrite Hp. clear Hp.
  set (c2 := fail "missing value" (set_top_params q (set_resolve_stack rs c1))).
  change (mbind ?f (Done c2)) with (f c2). cbv beta.
  assert (He2 : eos c2 = true).
  { unfold c2, fail. case_match; reflexivity. }
  rewrite (skip_spaces_eos c2 He2).
  unfold at_expression_end. rewrite He2. simpl (_ || _). cbv iota.
  rewrite apply_operators_at_mark.
  2:{ unfold c2, c1, fail, num_operators. case_match; simpl; lia. }
  eexists. split; [reflexivity|].
  unfold c2, c1, fail. destruct c as [i p0 cu f es os om rs0 tp ec]. simpl.
  destruct (empty f); simpl; auto 10.
Qed.

(** X10. An operand is missing. When only blanks are left of the input,
    [parse_expression] returns at once: it pushes no expression, leaves the
    cursor at the end, and latches the failure "missing value" unless a
    failure was latched before. *)
Theorem X10_missing_value_at_end_of_input (fuel : nat) (c : ParseContext) :
  2 ≤ fuel → _resolve_stack c ≠ [] → eos (skip_spaces c) = true →
  ∃ c', parse_expression fuel c = Done c'
        ∧ _input c' = _input c
        ∧ _failure c' = (if empty (_failure c) then "missing value" else _failure c)
        ∧ _expression_stack c' = _expression_stack c
        ∧ _operator_stack c' = _operator_stack c
        ∧ _operator_mark c' = _operator_mark c
        ∧ _pos c' = _pos (skip_spaces c)
        ∧ eos c' = true.
Proof.
  intros Hfuel Hrs He.
  destruct fuel as [|[|fuel]]; [lia|lia|].
  destruct (skip_spaces_cursor c) as (p & ch & Hsk). rewrite Hsk in *.
  apply eos_curr in He. simpl in He. subst ch.
  apply (parse_expression_only_blanks fuel p c Hrs Hsk).
Qed.

Lemma str_take_all (s : string) : str_take (String.length s) s = s.
Proof. induction s as [|ch s IH]; simpl; [reflexivity|]. rewrite IH. reflexivity. Qed.

Lemma str_drop_all (s : string) : str_drop (String.length s) s = "".
Proof. induction s as [|ch s IH]; simpl; [reflexivity|exact IH]. Qed.

Lemma str_forall_impl (P Q : ascii → bool) (s : string) :
  (∀ ch, P ch = true → Q ch = true) → str_forall P s = true → str_forall Q s = true.
Proof.
  intros HPQ. induction s as [|ch s IH]; simpl; [reflexivity|].
  intros Hs. apply andb_prop in Hs as [Hc Hs]. rewrite (HPQ ch Hc), (IH Hs). reflexivity.
Qed.

Lemma str_forall_no_NUL (s : string) :
  str_forall (λ ch, negb (is_NUL ch)) s = true → has_NUL s = false.
Proof.
  induction s as [|ch s IH]; simpl; [reflexivity|].
  intros Hs. apply andb_prop in Hs as [Hc Hs]. apply negb_true_iff in Hc.
  rewrite Hc, (IH Hs). reflexivity.
Qed.

(** X11. A blank expression. In a NUL-terminated buffer, parsing the empty
    string, or any string of blanks, without a parameter list gives the
    Error node "[<the input>]...[missing value]...[]" and no parameters,
    with or without a symbol extractor. *)
Theorem X11_blank_expression (ws : string) (symbol_extractor : SymbolExtractor) :
  end_byte = NUL → str_forall isspace ws = true →
  parse ws
  = Done (mkFunction (nodes.Error ("[" +:+ ws +:+ "]...[missing value]...[]")) [])
  ∧ parse_with_extractor ws symbol_extractor
    = Done (mkFunction (nodes.Error ("[" +:+ ws +:+ "]...[missing value]...[]")) []).
Proof.
  intros Hz Hws.
  enough (Hx : ∀ symbol_extractor,
    parse_function (parse_fuel ws) ImplicitParams ws symbol_extractor
    = Done (mkFunction (nodes.Error ("[" +:+ ws +:+ "]...[missing value]...[]")) []))
    by (split; apply Hx).
  clear symbol_extractor. intros symbol_extractor. unfold parse_function.
  set (c0 := ParseContext_new ImplicitParams ws symbol_extractor).
  assert (Hsk : skip_spaces c0 = seek (String.length ws) c0).
  { unfold c0. rewrite (ParseContext_new_seek_NUL _ _ _ Hz) at 1.
    apply (skip_spaces_seek (String.length ws) 0).
    - apply Nat.le_refl.
    - intros k Hk. rewrite (load_NUL_terminated _ _ Hz). simpl.
      apply byte_at_forall; assumption.
    - rewrite (load_NUL_terminated _ _ Hz). simpl. rewrite byte_at_end. reflexivity. }
  replace (parse_fuel ws) with (S (S (2 * String.length ws + 6)))
    by (unfold parse_fuel; lia).
  destruct (parse_expression_only_blanks (2 * String.length ws + 6) (String.length ws) c0)
    as (c' & E & Hi & Hf & Hes & Hos & _ & Hp & He); [discriminate| |].
  { rewrite Hsk. unfold seek. rewrite (load_NUL_terminated _ _ Hz).
    change (_input c0) with ws. rewrite byte_at_end. reflexivity. }
  rewrite E. simpl in Hi, Hf, Hes, Hos.
  change (mbind ?f (Done c')) with (f c'). cbv beta.
  assert (Hfl : failed c' = true) by (unfold failed; rewrite Hf; reflexivity).
  rewrite Hfl. simpl (_ && _). cbv iota.
  unfold get_result, fail. unfold failed in Hfl. apply negb_true_iff in Hfl.
  rewrite Hfl. destruct (negb (eos c') || _ || _); rewrite ?Hfl; simpl; rewrite ?Hfl;
    rewrite Hf, Hp, Hi, str_take_all, str_drop_all;
    rewrite (c_str_no_NUL ws)
      by (apply str_forall_no_NUL;
          apply (str_forall_impl isspace); [intros ch Hc; rewrite (isspace_not_NUL ch Hc)|];
          auto);
    reflexivity.
Qed.

(** ** A bare identifier *)

Lemma is_ident_first_facts (ch : ascii) :
  is_ident ch true = true →
  isspace ch = false ∧ is_NUL ch = false
  ∧ Ascii.eqb ch "-" = false ∧ Ascii.eqb ch "!" = false ∧ Ascii.eqb ch "(" = false
  ∧ Ascii.eqb ch "[" = false ∧ Ascii.eqb ch "034" = false
  ∧ is_ident ch false = true.
Proof. destruct ch as [[] [] [] [] [] [] [] []]; vm_compute; intuition congruence. Qed.

Lemma is_ident_not_NUL (ch : ascii) : is_ident ch false = true → is_NUL ch = false.
Proof. destruct ch as [[] [] [] [] [] [] [] []]; vm_compute; congruence. Qed.

Lemma app_empty_r (s : string) : s +:+ "" = s.
Proof. induction s as [|ch s IH]; [reflexivity|]. rewrite app_String, IH. reflexivity. Qed.

Lemma push_back_app (acc : string) (ch : ascii) (s : string) :
  push_back acc ch +:+ s = acc +:+ String ch s.
Proof. unfold push_back. rewrite str_app_assoc. reflexivity. Qed.

(** A loop that collects the bytes passing [P] collects the whole run of
    them and stops on the byte after it. *)
Lemma collect_seek (P : ascii → bool) (run : string) (fuel p : nat) (acc : string)
    (c : ParseContext) :
  (∀ ch, P ch = true → is_NUL ch = false) →
  p + String.length run ≤ _end c →
  (∀ k, k < String.length run → load c (p + k) = byte_at run k) →
  str_forall P run = true →
  P (load c (p + String.length run)) = false →
  String.length run ≤ fuel →
  while fuel (λ st : string * ParseContext, P (get (snd st)))
        (λ st, (push_back (fst st) (get (snd st)), next (snd st))) (acc, seek p c)
  = (acc +:+ run, seek (p + String.length run) c).
Proof.
  intros HP. revert fuel p acc.
  induction run as [|ch run IH]; intros fuel p acc Hend Hb Hall Hstop Hfuel.
  - simpl in *. rewrite Nat.add_0_r in *. rewrite app_empty_r.
    destruct fuel as [|fuel]; [reflexivity|]. cbn [while snd fst]. unfold get.
    change (_curr (seek p c)) with (load c p).
    rewrite Hstop. reflexivity.
  - destruct fuel as [|fuel]; [simpl in Hfuel; lia|].
    simpl in Hall. apply andb_prop in Hall as [Hch Hall].
    simpl String.length in Hend.
    pose proof (Hb 0 ltac:(simpl; lia)) as H0. rewrite Nat.add_0_r in H0.
    change (byte_at (String ch run) 0) with ch in H0.
    cbn [while snd fst]. unfold get at 1. change (_curr (seek p c)) with (load c p).
    rewrite H0, Hch. unfold get. change (_curr (seek p c)) with (load c p). rewrite H0.
    rewrite next_seek; [|lia|rewrite H0; apply HP, Hch].
    fold get.
    rewrite IH; [|lia| |exact Hall| |simpl in Hfuel; lia].
    + rewrite push_back_app. simpl String.length.
      replace (S p + String.length run) with (p + S (String.length run)) by lia.
      reflexivity.
    + intros k Hk. replace (S p + k) with (p + S k) by lia.
      rewrite Hb by (simpl; lia). reflexivity.
    + simpl String.length in Hstop.
      replace (S p + String.length run) with (p + S (String.length run)) by lia.
      exact Hstop.
Qed.

(** [get_ident] on an identifier that starts under the cursor. *)
Lemma get_ident_seek (ch : ascii) (rest : string) (p : nat) (c : ParseContext) :
  p + String.length (String ch rest) ≤ _end c →
  (∀ k, k < String.length (String ch rest) →
        load c (p + k) = byte_at (String ch rest) k) →
  is_ident ch true = true → str_forall (λ x, is_ident x false) rest = true →
  is_ident (load c (p + String.length (String ch rest))) false = false →
  get_ident (seek p c) = (String ch rest, seek (p + String.length (String ch rest)) c).
Proof.
  intros Hend Hb Hch Hrest Hstop. simpl String.length in Hend.
  destruct (is_ident_first_facts ch Hch) as (Hsp & Hn & _).
  pose proof (Hb 0 ltac:(simpl; lia)) as H0. rewrite Nat.add_0_r in H0.
  change (byte_at (String ch rest) 0) with ch in H0.
  unfold get_ident.
  rewrite (skip_spaces_seek 0 p c); [|lia|intros; lia|rewrite Nat.add_0_r, H0; exact Hsp].
  rewrite Nat.add_0_r. unfold get at 1. change (_curr (seek p c)) with (load c p).
  rewrite H0, Hch.
  unfold get. change (_curr (seek p c)) with (load c p). rewrite H0.
  rewrite next_seek; [|lia|rewrite H0; exact Hn].
  fold (get).
  change (λ st : string * ParseContext, is_ident (_curr st.2) false)
    with (λ st : string * ParseContext, (λ x, is_ident x false) (get (snd st))).
  change (λ st : string * ParseContext, (push_back st.1 (_curr st.2), next st.2))
    with (λ st : string * ParseContext, (push_back (fst st) (get (snd st)), next (snd st))).
  rewrite (collect_seek (λ x, is_ident x false) rest).
  - unfold push_back. simpl String.length.
    replace (S p + String.length rest) with (p + S (String.length rest)) by lia.
    reflexivity.
  - apply is_ident_not_NUL.
  - lia.
  - intros k Hk. replace (S p + k) with (p + S k) by lia.
    rewrite Hb by (simpl; lia). reflexivity.
  - exact Hrest.
  - simpl String.length in Hstop.
    replace (S p + String.length rest) with (p + S (String.length rest)) by lia.
    exact Hstop.
  - destruct rest as [|x rest']; [simpl; lia|].
    simpl in Hrest. apply andb_prop in Hrest as [Hx Hrest'].
    pose proof (Hb 1 ltac:(simpl; lia)) as H1.
    change (byte_at (String ch (String x rest')) 1) with x in H1.
    simpl String.length in Hend |- *.
    unfold chars_left, eos. change (_curr (seek (S p) c)) with (load c (S p)).
    replace (p + 1) with (S p) in H1 by lia. rewrite H1, (is_ident_not_NUL x Hx).
    change (_end (seek (S p) c)) with (_end c). change (_pos (seek (S p) c)) with (S p).
    lia.
Qed.

Lemma parse_expression_identifier (fuel : nat) (p : Params) (ch : ascii) (rest : string) :
  end_byte = NUL →
  is_ident ch true = true → isdigit ch = false →
  str_forall (λ x, is_ident x false) rest = true →
  parse_expression (S (S fuel)) (ParseContext_new p (String ch rest) None)
  = Done (let c := seek (String.length (String ch rest))
                        (ParseContext_new p (String ch rest) None) in
          let c := set_top_params (snd (resolve p (String ch rest))) c in
          let id := fst (resolve p (String ch rest)) in
          if (id =? Params_UNDEF)%Z || (to_int id =? Symbol_UNDEF)%Z
          then fail ("unknown symbol: '" +:+ c_str (String ch rest) +:+ "'") c
          else push_expression (nodes.Symbol (to_int id)) c).
Proof.
  intros Hz Hch Hdig Hrest. set (name := String ch rest).
  destruct (is_ident_first_facts ch Hch) as (Hsp & Hn & E1 & E2 & E3 & E4 & E5 & _).
  set (c0 := ParseContext_new p name None).
  assert (Hload : ∀ q, load c0 q = byte_at name q)
    by (intros q; apply load_NUL_terminated, Hz).
  unfold parse_expression, parse_expression_enter.
  rewrite parse_expression_loop_S, parse_value_S.
  change (operator_mark (num_operators c0) c0) with c0.
  unfold parse_value_body at 1.
  assert (Hc0 : c0 = seek 0 c0) by apply ParseContext_new_seek.
  assert (Hsk : skip_spaces c0 = c0).
  { rewrite Hc0 at 1.
    rewrite (skip_spaces_seek 0 0); [symmetry; exact Hc0|simpl; lia|intros; lia|].
    rewrite Hload. exact Hsp. }
  rewrite Hsk. change (get c0) with ch. rewrite E1, E2, E3, E4, E5, Hdig.
  unfold parse_symbol_or_call.
  assert (Hg : get_ident c0 = (name, seek (String.length name) c0)).
  { rewrite Hc0 at 1.
    apply (get_ident_seek ch rest 0 c0);
      [apply Nat.le_refl|intros k Hk; apply Hload|exact Hch|exact Hrest|].
    rewrite Hload. simpl (0 + _). fold name. rewrite byte_at_end. reflexivity. }
  rewrite Hg.
  set (c1 := seek (String.length name) c0).
  assert (He1 : eos c1 = true).
  { unfold c1, eos, seek. change (_curr (set_cursor ?q ?b ?x)) with b.
    rewrite Hload, byte_at_end. reflexivity. }
  rewrite (try_parse_call_eos _ name c1 He1).
  change (mbind ?f (Done (false, c1))) with (f (false, c1)). cbv beta iota.
  simpl negb. cbv iota.
  assert (Hps : parse_symbol name (get_input_mark c0) c1
                = Done (if (fst (resolve p name) =? Params_UNDEF)%Z then Symbol_UNDEF
                        else to_int (fst (resolve p name)),
                        name, set_top_params (snd (resolve p name)) c1)).
  { assert (Hlet : ∀ x, resolve_let_name (mkResolveContext TopParams None []) x
                        = Symbol_UNDEF) by reflexivity.
    unfold parse_symbol, resolve_let_ref, resolver.
    change (_resolve_stack c1) with [mkResolveContext TopParams None []].
    cbv iota. change (mbind ?f (Done ?x)) with (f x). cbv beta.
    change (mbind ?f (Done ?x)) with (f x). cbv beta.
    rewrite Hlet.
    change (negb (Symbol_UNDEF =? Symbol_UNDEF)%Z) with false. cbv iota.
    unfold extract_symbol, resolver.
    change (_resolve_stack c1) with [mkResolveContext TopParams None []].
    cbv iota. change (mbind ?f (Done ?x)) with (f x). cbv beta.
    simpl _symbol_extractor. cbv iota.
    change (mbind ?f (Done ?x)) with (f x). cbv beta iota.
    unfold resolve_parameter, resolver.
    change (_resolve_stack c1) with [mkResolveContext TopParams None []].
    cbv iota. change (mbind ?f (Done ?x)) with (f x). cbv beta.
    simpl _params_ref. cbv iota.
    change (top_params c1) with p.
    destruct (resolve p name) as [id q]. simpl fst. simpl snd.
    destruct (id =? Params_UNDEF)%Z; reflexivity. }
  rewrite Hps. clear Hps.
  change (mbind ?f (Done ?x)) with (f x) at 1. cbv beta iota.
  change (empty name) with false. cbv iota.
  set (id := fst (resolve p name)). set (c2 := set_top_params (snd (resolve p name)) c1).
  assert (Hfin : ∀ c3, eos c3 = true → _operator_stack c3 = [] → _operator_mark c3 = 0 →
    (Done c3 ≫= (λ ctx : ParseContext,
        if at_expression_end (skip_spaces ctx)
        then
         apply_operators (num_operators (skip_spaces ctx)) (skip_spaces ctx)
         ≫= λ ctx0 : ParseContext, Done (operator_mark (_operator_mark c0) ctx0)
        else
         parse_operator (skip_spaces ctx)
         ≫= λ ctx0 : ParseContext,
              parse_expression_loop (S fuel) (_operator_mark c0) ctx0)) = Done c3).
  { intros c3 He3 Ho3 Hm3. change (mbind ?f (Done c3)) with (f c3). cbv beta.
    rewrite (skip_spaces_eos c3 He3). unfold at_expression_end. rewrite He3.
    simpl (_ || _). cbv iota.
    rewrite apply_operators_at_mark by (unfold num_operators; rewrite Ho3; simpl; lia).
    change (mbind ?f (Done c3)) with (f c3). cbv beta.
    change (_operator_mark c0) with 0. destruct c3. simpl in Hm3. subst. reflexivity. }
  assert (Hid : ((if (id =? Params_UNDEF)%Z then Symbol_UNDEF else to_int id)
                 =? Symbol_UNDEF)%Z
                = ((id =? Params_UNDEF)%Z || (to_int id =? Symbol_UNDEF)%Z)).
  { destruct (id =? Params_UNDEF)%Z; reflexivity. }
  rewrite Hid. destruct ((id =? Params_UNDEF)%Z || (to_int id =? Symbol_UNDEF)%Z) eqn:Eid.
  - apply Hfin; [unfold fail; case_match; reflexivity| |];
      unfold fail; case_match; reflexivity.
  - apply orb_false_iff in Eid as [Eid _]. rewrite Eid.
    apply Hfin; [exact He1|reflexivity|reflexivity].
Qed.

Lemma ident_no_NUL (ch : ascii) (rest : string) :
  is_ident ch true = true → str_forall (λ x, is_ident x false) rest = true →
  has_NUL (String ch rest) = false.
Proof.
  intros Hch Hrest. apply str_forall_no_NUL. simpl.
  destruct (is_ident_first_facts ch Hch) as (_ & Hn & _). rewrite Hn. simpl.
  apply (str_forall_impl (λ x, is_ident x false)); [|exact Hrest].
  intros x Hx. rewrite (is_ident_not_NUL x Hx). reflexivity.
Qed.

Lemma get_result_single (c : ParseContext) (node : Node) :
  eos c = true → _failure c = "" → _expression_stack c = [node] → _operator_stack c = [] →
  get_result c = node.
Proof.
  intros He Hf Hes Hos. unfold get_result, num_expressions, num_operators, pop_expression.
  rewrite He, Hes, Hos. simpl. rewrite Hf. simpl. rewrite Hes. reflexivity.
Qed.

Lemma get_result_failure (c : ParseContext) (msg : string) :
  _failure c = msg → msg ≠ "" →
  get_result c
  = nodes.Error ("[" +:+ c_str (str_take (_pos c) (_input c)) +:+ "]...[" +:+ c_str msg
                 +:+ "]...[" +:+ c_str (str_drop (_pos c) (_input c)) +:+ "]").
Proof.
  intros Hf Hne. assert (He : empty (_failure c) = false).
  { rewrite Hf. destruct msg; [contradiction|reflexivity]. }
  unfold get_result, fail.
  destruct (negb (eos c) || _ || _); rewrite ?He; simpl; rewrite ?He; simpl;
    rewrite Hf; reflexivity.
Qed.

(** X12. A bare identifier. Without a parameter list, an expression that
    is just an identifier (letters, digits, "_", "@" and, after the first
    byte, "$"; not starting with a digit) and lies in a NUL-terminated
    buffer parses to the symbol with id 0, and the identifier is the only
    parameter. *)
Theorem X12_bare_identifier (ch : ascii) (rest : string) :
  end_byte = NUL →
  is_ident ch true = true → isdigit ch = false →
  str_forall (λ x, is_ident x false) rest = true →
  parse (String ch rest) = Done (mkFunction (nodes.Symbol 0) [String ch rest]).
Proof.
  intros Hz Hch Hdig Hrest. set (name := String ch rest).
  unfold parse, parse_function.
  replace (parse_fuel name) with (S (S (2 * String.length name + 6)))
    by (unfold parse_fuel; lia).
  unfold name.
  rewrite (parse_expression_identifier _ ImplicitParams ch rest Hz Hch Hdig Hrest).
  fold name.
  destruct (represents_lookup_add_new ImplicitParams [] name (represents_empty _) eq_refl)
    as (Hid & _ & Hrep); [apply not_elem_of_nil|].
  change (resolve ImplicitParams name) with (lookup_add ImplicitParams name).
  rewrite Hid. change (Z.of_nat (length [])) with 0%Z. cbv zeta.
  change ((0 =? Params_UNDEF)%Z || (to_int 0 =? Symbol_UNDEF)%Z) with false.
  change (to_int 0) with 0%Z. cbv iota.
  change (mbind ?f (Done ?x)) with (f x). cbv beta.
  set (c := push_expression _ _).
  change (failed c) with false. simpl (_ && _). cbv iota.
  rewrite (get_result_single c (nodes.Symbol 0)); try reflexivity.
  2:{ unfold c, eos, seek. change (_curr (push_expression ?n (set_top_params ?q
                                            (set_cursor ?pos ?b ?x)))) with b.
      rewrite (load_NUL_terminated _ _ Hz). apply is_NUL_byte_at_end. }
  change (top_params c) with (snd (lookup_add ImplicitParams name)).
  rewrite (represents_extract _ _ Hrep). reflexivity.
Qed.

Lemma to_int_id (n : nat) : (Z.of_nat n < 2 ^ 31)%Z → to_int (Z.of_nat n) = Z.of_nat n.
Proof. intros Hn. unfold to_int. rewrite Z.mod_small by lia. lia. Qed.

(** X13. A bare identifier with a parameter list, in a NUL-terminated
    buffer. The identifier parses to the symbol whose id is its position in
    the list; an identifier that is not in the list is the error "unknown
    symbol", and the parameters are the list in both cases. *)
Theorem X13_bare_identifier_explicit (params : list string) (ch : ascii) (rest : string) :
  end_byte = NUL →
  NoDup params → (Z.of_nat (length params) < 2 ^ 31 - 1)%Z →
  is_ident ch true = true → isdigit ch = false →
  str_forall (λ x, is_ident x false) rest = true →
  (∀ i, params !! i = Some (String ch rest) →
        parse_params params (String ch rest)
        = Done (mkFunction (nodes.Symbol (Z.of_nat i)) params))
  ∧ (String ch rest ∉ params →
     parse_params params (String ch rest)
     = Done (mkFunction
               (nodes.Error ("[" +:+ String ch rest +:+ "]...[unknown symbol: '"
                             +:+ String ch rest +:+ "']...[]"))
               params)).
Proof.
  intros Hz Hnd Hlen Hch Hdig Hrest. set (name := String ch rest).
  assert (Hlen' : (Z.of_nat (length params) < 2 ^ 64 - 1)%Z) by lia.
  destruct (ExplicitParams_represents params Hnd Hlen') as (p & Hp & Hk & Hrep).
  destruct (represents_lookup p params name Hrep Hlen') as (Hidx & Hundef & _).
  pose proof (ident_no_NUL ch rest Hch Hrest) as Hnul. fold name in Hnul.
  set (c1 := set_top_params p (seek (String.length name) (ParseContext_new p name None))).
  assert (He1 : eos c1 = true).
  { unfold c1, eos, seek. change (_curr (set_top_params ?q (set_cursor ?pos ?b ?x))) with b.
    rewrite (load_NUL_terminated _ _ Hz). apply is_NUL_byte_at_end. }
  assert (Hpf : parse_params params name
                = Done (mkFunction
                          (get_result
                             (if (lookup p name =? Params_UNDEF)%Z
                                 || (to_int (lookup p name) =? Symbol_UNDEF)%Z
                              then fail ("unknown symbol: '" +:+ c_str name +:+ "'") c1
                              else push_expression (nodes.Symbol (to_int (lookup p name))) c1))
                          params)).
  { unfold parse_params. rewrite Hp.
    change (mbind ?f (Done p)) with (f p). cbv beta. unfold parse_function.
    replace (parse_fuel name) with (S (S (2 * String.length name + 6)))
      by (unfold parse_fuel; lia).
    unfold name at 1 2.
    rewrite (parse_expression_identifier _ p ch rest Hz Hch Hdig Hrest).
    fold name.
    assert (Hres : resolve p name = (lookup p name, p))
      by (unfold resolve; rewrite Hk; reflexivity).
    rewrite Hres. simpl fst. simpl snd. cbv zeta. fold c1.
    change (mbind ?f (Done ?x)) with (f x). cbv beta.
    assert (Himp : implicit p = false) by (unfold implicit; rewrite Hk; reflexivity).
    rewrite Himp, andb_false_r.
    replace (top_params _) with p by (case_match; unfold fail; try case_match; reflexivity).
    rewrite (represents_extract _ _ Hrep). reflexivity. }
  rewrite Hpf. clear Hpf. split.
  - intros i Hi. rewrite (Hidx i Hi).
    pose proof (lookup_lt_Some _ _ _ Hi) as Hlt.
    rewrite to_int_id by lia.
    replace (Z.of_nat i =? Params_UNDEF)%Z with false
      by (symmetry; apply Z.eqb_neq; unfold Params_UNDEF; lia).
    replace (Z.of_nat i =? Symbol_UNDEF)%Z with false
      by (symmetry; apply Z.eqb_neq; unfold Symbol_UNDEF; lia).
    simpl (_ || _). cbv iota.
    rewrite (get_result_single _ (nodes.Symbol (Z.of_nat i))); try reflexivity.
    exact He1.
  - intros Hnin. rewrite (Hundef Hnin).
    change (Params_UNDEF =? Params_UNDEF)%Z with true. simpl (_ || _). cbv iota.
    rewrite (c_str_no_NUL name Hnul).
    set (msg := "unknown symbol: '" +:+ name +:+ "'").
    rewrite (get_result_failure _ msg); [| |discriminate].
    2:{ unfold fail. reflexivity. }
    assert (Hpos : _pos (fail msg c1) = String.length name)
      by (unfold fail; reflexivity).
    assert (Hin : _input (fail msg c1) = name) by (unfold fail; reflexivity).
    rewrite Hpos, Hin, str_take_all, str_drop_all, (c_str_no_NUL name Hnul).
    rewrite (c_str_no_NUL msg); [unfold msg; rewrite !str_app_assoc; reflexivity|].
    unfold msg. rewrite !has_NUL_app, Hnul. reflexivity.
Qed.

(** ** A number literal *)

Lemma isdigit_facts (ch : ascii) :
  isdigit ch = true →
  isspace ch = false ∧ is_NUL ch = false
  ∧ Ascii.eqb ch "-" = false ∧ Ascii.eqb ch "!" = false ∧ Ascii.eqb ch "(" = false
  ∧ Ascii.eqb ch "[" = false ∧ Ascii.eqb ch "034" = false.
Proof. destruct ch as [[] [] [] [] [] [] [] []]; vm_compute; intuition congruence. Qed.

(** The value that stands alone: when [parse_value] leaves the cursor at
    the end of the input and the operator stack as it was at the mark,
    [parse_expression] returns what [parse_value] returned. *)
Lemma parse_expression_single (fuel : nat) (c0 c3 : ParseContext) :
  parse_value (S fuel) (operator_mark (num_operators c0) c0) = Done c3 →
  eos c3 = true → num_operators c3 ≤ _operator_mark c3 →
  parse_expression (S (S fuel)) c0 = Done (operator_mark (_operator_mark c0) c3).
Proof.
  intros Hv He Hm. unfold parse_expression, parse_expression_enter.
  rewrite parse_expression_loop_S, Hv.
  change (mbind ?f (Done c3)) with (f c3). cbv beta.
  rewrite (skip_spaces_eos c3 He). unfold at_expression_end. rewrite He.
  simpl (_ || _). cbv iota.
  rewrite apply_operators_at_mark by exact Hm. reflexivity.
Qed.

Lemma parse_number_digits (ch : ascii) (rest : string) (c : ParseContext) :
  end_byte = NUL →
  _input c = String ch rest →
  isdigit ch = true → str_forall isdigit rest = true →
  parse_number (seek 0 c)
  = (let d := String ch rest in
     let c1 := seek (String.length d) c in
     if snd (strtod d) =? String.length d
     then push_expression (nodes.Number (fst (strtod d))) c1
     else fail ("invalid number: '" +:+ d +:+ "'") c1).
Proof.
  intros Hz Hin Hch Hrest. set (d := String ch rest) in *.
  assert (Hload : ∀ q, load c q = byte_at d q)
    by (intros q; rewrite (load_NUL_terminated _ _ Hz), Hin; reflexivity).
  destruct (isdigit_facts ch Hch) as (_ & Hn & _).
  assert (Hnul : has_NUL d = false).
  { apply str_forall_no_NUL. simpl. rewrite Hn. simpl.
    apply (str_forall_impl isdigit); [|exact Hrest].
    intros x Hx. destruct (isdigit_facts x Hx) as (_ & -> & _). reflexivity. }
  unfold parse_number.
  assert (Hg : get (seek 0 c) = ch) by (unfold get; apply Hload).
  rewrite Hg.
  rewrite next_seek; [|unfold _end; rewrite Hin; simpl; lia|rewrite Hload; exact Hn].
  unfold read_digits at 1. cbn [snd fst].
  rewrite (collect_seek (in_range "0" "9") rest).
  2:{ intros x Hx. destruct (isdigit_facts x Hx) as (_ & Hx' & _). exact Hx'. }
  2:{ unfold _end. rewrite Hin. simpl. lia. }
  2:{ intros k Hk. rewrite Hload. reflexivity. }
  2:{ exact Hrest. }
  2:{ rewrite Hload. change (1 + String.length rest) with (String.length d).
      rewrite byte_at_end. reflexivity. }
  2:{ destruct rest as [|x rest']; [simpl; lia|].
      simpl in Hrest. apply andb_prop in Hrest as [Hx _].
      destruct (isdigit_facts x Hx) as (_ & Hx' & _).
      unfold chars_left, eos. change (_curr (seek 1 c)) with (load c 1).
      rewrite Hload. change (byte_at d 1) with x. rewrite Hx'.
      change (_end (seek 1 c)) with (_end c). unfold _end. rewrite Hin.
      change (_pos (seek 1 c)) with 1. simpl. lia. }
  change (push_back "" ch +:+ rest) with d.
  change (1 + String.length rest) with (String.length d).
  set (c1 := seek (String.length d) c).
  assert (Hg1 : get c1 = NUL).
  { unfold c1, get. change (_curr (seek ?q c)) with (load c q).
    rewrite Hload. apply byte_at_end. }
  rewrite Hg1. change (Ascii.eqb NUL ".") with false. cbv iota.
  rewrite Hg1. change (Ascii.eqb NUL "e" || Ascii.eqb NUL "E") with false. cbv iota.
  rewrite (c_str_no_NUL d Hnul).
  destruct (strtod d) as [value consumed]. simpl fst. simpl snd.
  change (negb (empty d)) with true. simpl (_ && _). reflexivity.
Qed.

(** X14. A number literal. An expression that is a run of decimal digits
    in a NUL-terminated buffer is handed to [strtod] as it is; if [strtod]
    takes all of it the result is the Number node of its value, with no
    parameters, and otherwise it is the error "invalid number". *)
Theorem X14_digits (ch : ascii) (rest : string) :
  end_byte = NUL →
  isdigit ch = true → str_forall isdigit rest = true →
  parse (String ch rest)
  = Done (if snd (strtod (String ch rest)) =? String.length (String ch rest)
          then mkFunction (nodes.Number (fst (strtod (String ch rest)))) []
          else mkFunction
                 (nodes.Error ("[" +:+ String ch rest +:+ "]...[invalid number: '"
                               +:+ String ch rest +:+ "']...[]")) []).
Proof.
  intros Hz Hch Hrest. set (d := String ch rest).
  destruct (isdigit_facts ch Hch) as (Hsp & Hn & E1 & E2 & E3 & E4 & E5).
  assert (Hnul : has_NUL d = false).
  { apply str_forall_no_NUL. simpl. rewrite Hn. simpl.
    apply (str_forall_impl isdigit); [|exact Hrest].
    intros x Hx. destruct (isdigit_facts x Hx) as (_ & -> & _). reflexivity. }
  unfold parse, parse_function.
  replace (parse_fuel d) with (S (S (2 * String.length d + 6)))
    by (unfold parse_fuel; lia).
  set (c0 := ParseContext_new ImplicitParams d None).
  assert (Hc0 : c0 = seek 0 c0) by apply ParseContext_new_seek.
  set (c1 := seek (String.length d) c0).
  assert (He1 : eos c1 = true).
  { unfold c1, eos. change (_curr (seek ?q c0)) with (load c0 q).
    rewrite (load_NUL_terminated _ _ Hz). apply is_NUL_byte_at_end. }
  assert (Hv : parse_value (S (2 * String.length d + 6)) c0 = Done (parse_number c0)).
  { rewrite parse_value_S. unfold parse_value_body.
    assert (Hsk : skip_spaces c0 = c0).
    { rewrite Hc0 at 1.
      rewrite (skip_spaces_seek 0 0); [symmetry; exact Hc0|simpl; lia|intros; lia|].
      exact Hsp. }
    rewrite Hsk. change (get c0) with ch. rewrite E1, E2, E3, E4, E5, Hch. reflexivity. }
  assert (Hpn : parse_number c0
                = if snd (strtod d) =? String.length d
                  then push_expression (nodes.Number (fst (strtod d))) c1
                  else fail ("invalid number: '" +:+ d +:+ "'") c1).
  { rewrite Hc0 at 1. apply (parse_number_digits ch rest c0 Hz); auto. }
  rewrite (parse_expression_single _ c0 (parse_number c0)); [|exact Hv| |].
  2:{ rewrite Hpn. case_match; [exact He1|]. unfold fail. reflexivity. }
  2:{ rewrite Hpn. unfold num_operators, fail. case_match; simpl; lia. }
  rewrite Hpn. change (mbind ?f (Done ?x)) with (f x). cbv beta.
  destruct (snd (strtod d) =? String.length d).
  - change (failed _) with false. simpl (_ && _). cbv iota.
    rewrite (get_result_single _ (nodes.Number (fst (strtod d)))); try reflexivity.
    exact He1.
  - set (msg := "invalid number: '" +:+ d +:+ "'").
    change (failed _) with true. simpl (_ && _). cbv iota.
    rewrite (get_result_failure _ msg); [| |discriminate].
    2:{ unfold fail. reflexivity. }
    assert (Hpos : _pos (operator_mark (_operator_mark c0) (fail msg c1)) = String.length d)
      by (unfold fail; reflexivity).
    assert (Hin : _input (operator_mark (_operator_mark c0) (fail msg c1)) = d)
      by (unfold fail; reflexivity).
    rewrite Hpos, Hin, str_take_all, str_drop_all, (c_str_no_NUL d Hnul).
    rewrite (c_str_no_NUL msg); [unfold msg; rewrite !str_app_assoc; reflexivity|].
    unfold msg. rewrite !has_NUL_app, Hnul. reflexivity.
Qed.

(** ** A string literal *)

Lemma parse_string_loop_plain (run : string) (fuel p : nat) (acc : string)
    (c : ParseContext) :
  p + String.length run ≤ _end c →
  (∀ k, k < String.length run → load c (p + k) = byte_at run k) →
  str_forall (λ x, negb (is_NUL x) && negb (Ascii.eqb x "034") && negb (Ascii.eqb x "\"))
             run = true →
  load c (p + String.length run) = "034"%char →
  String.length run ≤ fuel →
  while fuel (λ st : string * ParseContext,
                negb (eos (snd st)) && negb (Ascii.eqb (get (snd st)) "034"))
        parse_string_step (acc, seek p c)
  = (acc +:+ run, seek (p + String.length run) c).
Proof.
  revert fuel p acc.
  induction run as [|ch run IH]; intros fuel p acc Hend Hb Hall Hstop Hfuel.
  - simpl in *. rewrite Nat.add_0_r in *. rewrite app_empty_r.
    destruct fuel as [|fuel]; [reflexivity|]. cbn [while snd fst]. unfold get.
    change (_curr (seek p c)) with (load c p).
    rewrite Hstop. simpl. rewrite andb_false_r. reflexivity.
  - destruct fuel as [|fuel]; [simpl in Hfuel; lia|].
    simpl in Hall. apply andb_prop in Hall as [Hch Hall].
    apply andb_prop in Hch as [Hch Hbs]. apply andb_prop in Hch as [Hn Hq].
    apply negb_true_iff in Hn, Hq, Hbs.
    simpl String.length in Hend.
    pose proof (Hb 0 ltac:(simpl; lia)) as H0. rewrite Nat.add_0_r in H0.
    change (byte_at (String ch run) 0) with ch in H0.
    cbn [while snd fst]. unfold eos at 1, get at 1.
    change (_curr (seek p c)) with (load c p).
    rewrite H0, Hn, Hq. simpl (negb false && negb false). cbv iota.
    unfold parse_string_step at 2. unfold get. change (_curr (seek p c)) with (load c p).
    rewrite H0, Hbs.
    rewrite next_seek; [|lia|rewrite H0; exact Hn].
    fold get.
    rewrite IH; [|lia| |exact Hall| |simpl in Hfuel; lia].
    + rewrite push_back_app. simpl String.length.
      replace (S p + String.length run) with (p + S (String.length run)) by lia.
      reflexivity.
    + intros k Hk. replace (S p + k) with (p + S k) by lia.
      rewrite Hb by (simpl; lia). reflexivity.
    + simpl String.length in Hstop.
      replace (S p + String.length run) with (p + S (String.length run)) by lia.
      exact Hstop.
Qed.

(** X15. A string literal. An expression in a NUL-terminated buffer that
    is a double quote, a text without double quote, backslash and NUL, and a
    double quote, parses to the String node of that text, with no
    parameters. *)
Theorem X15_plain_string_literal (s : string) :
  end_byte = NUL →
  str_forall (λ x, negb (is_NUL x) && negb (Ascii.eqb x "034") && negb (Ascii.eqb x "\"))
             s = true →
  parse (String "034" (s +:+ String "034" "")) = Done (mkFunction (nodes.String s) []).
Proof.
  intros Hz Hs. set (input := String "034" (s +:+ String "034" "")).
  assert (Hlen : String.length input = S (S (String.length s))).
  { unfold input. simpl. rewrite str_length_app. simpl. lia. }
  unfold parse, parse_function.
  replace (parse_fuel input) with (S (S (2 * String.length input + 6)))
    by (unfold parse_fuel; lia).
  set (c0 := ParseContext_new ImplicitParams input None).
  assert (Hc0 : c0 = seek 0 c0) by apply ParseContext_new_seek.
  assert (Hload : ∀ q, load c0 q = byte_at input q)
    by (intros q; apply load_NUL_terminated, Hz).
  assert (Hbytes : ∀ k, k < String.length s → byte_at input (1 + k) = byte_at s k).
  { intros k Hk. unfold input. change (byte_at (String "034" ?t) (1 + k)) with (byte_at t k).
    apply byte_at_app_l, Hk. }
  assert (Hclose : byte_at input (1 + String.length s) = "034"%char).
  { unfold input.
    change (byte_at (String "034" ?t) (1 + String.length s))
      with (byte_at t (String.length s)).
    rewrite <- (Nat.add_0_r (String.length s)), byte_at_app_r. reflexivity. }
  set (c1 := seek (String.length input) c0).
  assert (He1 : eos c1 = true).
  { unfold c1, eos. change (_curr (seek ?q c0)) with (load c0 q).
    rewrite Hload. apply is_NUL_byte_at_end. }
  assert (Hps : parse_string c0 = push_expression (nodes.String s) c1).
  { unfold parse_string.
    assert (Heat : eat "034" c0 = seek 1 c0).
    { rewrite Hc0 at 1. apply eat_seek; [|reflexivity|reflexivity].
      unfold _end. change (_input c0) with input. lia. }
    rewrite Heat.
    rewrite (parse_string_loop_plain s);
      [| |intros k Hk; rewrite Hload; apply Hbytes, Hk|exact Hs|rewrite Hload; exact Hclose|].
    2:{ unfold _end. change (_input c0) with input. lia. }
    2:{ destruct s as [|x s']; [simpl; lia|].
        simpl in Hs. apply andb_prop in Hs as [Hx _]. apply andb_prop in Hx as [Hx _].
        apply andb_prop in Hx as [Hx _]. apply negb_true_iff in Hx.
        unfold chars_left, eos. change (_curr (seek 1 c0)) with (load c0 1).
        rewrite Hload. change (byte_at input 1) with x. rewrite Hx.
        change (_end (seek 1 c0)) with (String.length input).
        change (_pos (seek 1 c0)) with 1. rewrite Hlen. simpl. lia. }
    rewrite app_empty_l.
    assert (Heat2 : eat "034" (seek (1 + String.length s) c0) = c1).
    { rewrite eat_seek;
        [|unfold _end; change (_input c0) with input; lia
         |rewrite Hload; exact Hclose|reflexivity].
      unfold c1. rewrite Hlen. reflexivity. }
    rewrite Heat2. reflexivity. }
  assert (Hv : parse_value (S (2 * String.length input + 6)) c0 = Done (parse_string c0)).
  { rewrite parse_value_S. unfold parse_value_body.
    assert (Hsk : skip_spaces c0 = c0).
    { rewrite Hc0 at 1.
      rewrite (skip_spaces_seek 0 0); [symmetry; exact Hc0|simpl; lia|intros; lia|].
      reflexivity. }
    rewrite Hsk. reflexivity. }
  rewrite (parse_expression_single _ c0 (parse_string c0));
    [|exact Hv|rewrite Hps; exact He1|rewrite Hps; unfold num_operators; simpl; lia].
  rewrite Hps. change (mbind ?f (Done ?x)) with (f x). cbv beta.
  change (failed _) with false. simpl (_ && _). cbv iota.
  rewrite (get_result_single _ (nodes.String s)); try reflexivity.
  exact He1.
Qed.

(** ** Two operators *)

Lemma apply_operator_eq (c : ParseContext) (op : Operator_UP) (rest : list Operator_UP)
    (rhs lhs : Node) (es : list Node) :
  _operator_stack c = op :: rest → _expression_stack c = rhs :: lhs :: es →
  apply_operator c
  = Done (set_expression_stack (nodes.Operator op lhs rhs :: es) (set_operator_stack rest c)).
Proof.
  intros Ho He. destruct c as [i p cu f ex os om rs tp ec]. simpl in Ho, He. subst os ex.
  reflexivity.
Qed.

Lemma apply_operators_S (n : nat) (c : ParseContext) :
  _operator_mark c < num_operators c →
  apply_operators (S n) c = (c' ← apply_operator c; apply_operators n c').
Proof.
  intros Hlt. cbn [apply_operators].
  replace (_operator_mark c <? num_operators c) with true; [reflexivity|].
  symmetry. apply Nat.ltb_lt, Hlt.
Qed.

Lemma push_operator_loop_at_mark (n : nat) (node : Operator_UP) (c : ParseContext) :
  num_operators c ≤ _operator_mark c → push_operator_loop n node c = Done c.
Proof.
  intros Hle. destruct n as [|n]; [reflexivity|]. cbn [push_operator_loop].
  unfold num_operators in Hle. destruct (_operator_stack c) as [|back rest]; [reflexivity|].
  replace (_operator_mark c <? length (back :: rest)) with false; [reflexivity|].
  symmetry. apply Nat.ltb_ge, Hle.
Qed.

Lemma push_operator_loop_S (n : nat) (node back : Operator_UP) (rest : list Operator_UP)
    (c : ParseContext) :
  _operator_stack c = back :: rest → _operator_mark c ≤ length rest →
  push_operator_loop (S n) node c
  = if do_before back node
    then c' ← apply_operator c; push_operator_loop n node c'
    else Done c.
Proof.
  intros Ho Hm. cbn [push_operator_loop]. rewrite Ho.
  replace (_operator_mark c <? length (back :: rest)) with true; [reflexivity|].
  symmetry. apply Nat.ltb_lt. simpl. lia.
Qed.

(** X16. [do_before] decides how two operators group. With [v1 op1 v2]
    on the stacks, pushing [op2], then [v3], and applying what is above the
    mark gives [(v1 op1 v2) op2 v3] if [op1] is to be done before [op2], and
    [v1 op1 (v2 op2 v3)] otherwise; the operator stack is back at the mark
    and nothing below the three operands is touched. *)
Theorem X16_do_before_decides_grouping (c : ParseContext) (op1 op2 : Operator_UP)
    (v1 v2 v3 : Node) (es : list Node) (base : list Operator_UP) :
  _operator_stack c = op1 :: base → _operator_mark c = length base →
  _expression_stack c = v2 :: v1 :: es →
  ∃ c', (c2 ← push_operator op2 c;
         apply_operators (num_operators (push_expression v3 c2)) (push_expression v3 c2))
        = Done c'
        ∧ _expression_stack c'
          = (if do_before op1 op2
             then nodes.Operator op2 (nodes.Operator op1 v1 v2) v3
             else nodes.Operator op1 v1 (nodes.Operator op2 v2 v3)) :: es
        ∧ _operator_stack c' = base
        ∧ _failure c' = _failure c.
Proof.
  intros Ho Hm He.
  assert (Hn : num_operators c = S (length base))
    by (unfold num_operators; rewrite Ho; reflexivity).
  unfold push_operator. rewrite Hn.
  rewrite (push_operator_loop_S _ op2 op1 base c Ho) by lia.
  destruct (do_before op1 op2).
  - rewrite (apply_operator_eq c op1 base v2 v1 es Ho He).
    set (c1 := set_expression_stack _ (set_operator_stack base c)).
    change (mbind ?f (Done c1)) with (f c1). cbv beta.
    rewrite (push_operator_loop_at_mark _ op2 c1)
      by (unfold num_operators; change (_operator_mark c1) with (_operator_mark c);
          simpl; lia).
    change (mbind ?f (Done c1)) with (f c1). cbv beta.
    set (c2 := set_operator_stack (op2 :: _operator_stack c1) c1).
    change (mbind ?f (Done c2)) with (f c2). cbv beta.
    set (c3 := push_expression v3 c2).
    change (num_operators c3) with (S (length base)).
    rewrite apply_operators_S
      by (unfold num_operators; change (_operator_mark c3) with (_operator_mark c);
          simpl; lia).
    rewrite (apply_operator_eq c3 op2 base v3 (nodes.Operator op1 v1 v2) es)
      by reflexivity.
    set (c4 := set_expression_stack _ (set_operator_stack base c3)).
    change (mbind ?f (Done c4)) with (f c4). cbv beta.
    rewrite apply_operators_at_mark
      by (unfold num_operators; change (_operator_mark c4) with (_operator_mark c);
          simpl; lia).
    exists c4. split; [reflexivity|]. split; [reflexivity|]. split; reflexivity.
  - change (mbind ?f (Done c)) with (f c). cbv beta.
    set (c2 := set_operator_stack (op2 :: _operator_stack c) c).
    change (mbind ?f (Done c2)) with (f c2). cbv beta.
    set (c3 := push_expression v3 c2).
    assert (Ho3 : _operator_stack c3 = op2 :: op1 :: base) by (simpl; rewrite Ho; reflexivity).
    assert (He3 : _expression_stack c3 = v3 :: v2 :: v1 :: es)
      by (simpl; rewrite He; reflexivity).
    assert (Hn3 : num_operators c3 = S (S (length base)))
      by (unfold num_operators; rewrite Ho3; reflexivity).
    rewrite Hn3.
    rewrite apply_operators_S
      by (rewrite Hn3; change (_operator_mark c3) with (_operator_mark c); lia).
    rewrite (apply_operator_eq c3 op2 (op1 :: base) v3 v2 (v1 :: es) Ho3 He3).
    set (c4 := set_expression_stack _ (set_operator_stack (op1 :: base) c3)).
    change (mbind ?f (Done c4)) with (f c4). cbv beta.
    rewrite apply_operators_S
      by (unfold num_operators; change (_operator_mark c4) with (_operator_mark c);
          simpl; lia).
    rewrite (apply_operator_eq c4 op1 base (nodes.Operator op2 v2 v3) v1 es)
      by reflexivity.
    set (c5 := set_expression_stack _ (set_operator_stack base c4)).
    change (mbind ?f (Done c5)) with (f c5). cbv beta.
    rewrite apply_operators_at_mark
      by (unfold num_operators; change (_operator_mark c5) with (_operator_mark c);
          simpl; lia).
    exists c5. split; [reflexivity|]. split; [reflexivity|]. split; reflexivity.
Qed.

(** ** The end of the input where a byte was expected *)

(** X17. [eat] at the end of the input. The message of [eat] quotes the
    current byte, which is NUL there, so the message as [get_result] prints
    it stops after "but got '": the Error node reads
    "[before]...[expected 'c', but got ']...[after]". *)
Theorem X17_expected_byte_at_end_of_input (ch : ascii) (c : ParseContext) :
  is_NUL ch = false → eos c = true → failed c = false →
  get_result (eat ch c)
  = nodes.Error ("[" +:+ c_str (str_take (_pos c) (_input c))
                 +:+ "]...[expected '" +:+ String ch "', but got ']...["
                 +:+ c_str (str_drop (_pos c) (_input c)) +:+ "]").
Proof.
  intros Hch He Hf. apply eos_curr in He.
  assert (Hne : Ascii.eqb (_curr c) ch = false).
  { rewrite He. destruct (Ascii.eqb NUL ch) eqn:E; [|reflexivity].
    apply Ascii.eqb_eq in E. subst ch. discriminate. }
  unfold eat. rewrite Hne, He.
  unfold failed in Hf. apply negb_false_iff in Hf.
  set (msg := "expected '" +:+ String ch "', but got '" +:+ String NUL "'").
  assert (Hfail : fail msg c = set_cursor (_pos c) NUL (set_failure msg c))
    by (unfold fail; rewrite Hf; reflexivity).
  rewrite Hfail.
  rewrite (get_result_failure _ msg); [|reflexivity|discriminate].
  simpl (_pos _). simpl (_input _).
  assert (Hmsg : c_str msg = "expected '" +:+ String ch "', but got '").
  { unfold msg. simpl. rewrite Hch. reflexivity. }
  rewrite Hmsg. rewrite !str_app_assoc. reflexivity.
Qed.

(** ** The cursor stays in the input *)


(** ** A function that is not known *)

Lemma parse_expression_unknown_function (fuel : nat) (p : Params) (ch : ascii)
    (nrest rest : string) :
  is_ident ch true = true → isdigit ch = false →
  str_forall (λ x, is_ident x false) nrest = true →
  String ch nrest ≠ "if" → String ch nrest ≠ "let" →
  String ch nrest ≠ "map" → String ch nrest ≠ "join" → String ch nrest ≠ "sum" →
  CallRepo_create (String ch nrest) = None →
  ∃ c', parse_expression (S (S fuel))
          (ParseContext_new p (String ch nrest +:+ String "(" rest) None) = Done c'
        ∧ _failure c' = "unknown function: '" +:+ c_str (String ch nrest) +:+ "'"
        ∧ _pos c' = S (String.length (String ch nrest))
        ∧ _input c' = String ch nrest +:+ String "(" rest
        ∧ top_params c' = snd (resolve p (String ch nrest)).
Proof.
  intros Hch Hdig Hnrest Nif Nlet Nmap Njoin Nsum Hcall.
  set (name := String ch nrest) in *. set (input := name +:+ String "(" rest).
  set (msg := "unknown function: '" +:+ c_str name +:+ "'").
  destruct (is_ident_first_facts ch Hch) as (Hsp & Hn & E1 & E2 & E3 & E4 & E5 & _).
  set (c0 := ParseContext_new p input None).
  assert (Hc0 : c0 = seek 0 c0) by apply ParseContext_new_seek.
  assert (Hlen : String.length input = String.length name + S (String.length rest)).
  { unfold input. rewrite str_length_app. reflexivity. }
  assert (Hend : _end c0 = String.length input) by reflexivity.
  assert (Hload : ∀ q, q < String.length input → load c0 q = byte_at input q)
    by (intros q Hq; apply load_byte_at; rewrite Hend; exact Hq).
  assert (Hopen : load c0 (String.length name) = "("%char).
  { rewrite Hload by lia.
    unfold input. rewrite <- (Nat.add_0_r (String.length name)), byte_at_app_r. reflexivity. }
  assert (Hsk : skip_spaces c0 = c0).
  { rewrite Hc0 at 1.
    rewrite (skip_spaces_seek 0 0); [symmetry; exact Hc0|lia|intros; lia|].
    rewrite Hload by lia. exact Hsp. }
  assert (Hg : get_ident c0 = (name, seek (String.length name) c0)).
  { rewrite Hc0 at 1.
    apply (get_ident_seek ch nrest 0 c0); [fold name; lia| |exact Hch|exact Hnrest|].
    - intros k Hk. fold name in Hk. rewrite Hload by lia. simpl (0 + k).
      unfold input. apply byte_at_app_l, Hk.
    - change (0 + String.length (String ch nrest)) with (String.length name).
      rewrite Hopen. reflexivity. }
  set (c1 := seek (String.length name) c0).
  set (c2 := seek (S (String.length name)) c0).
  assert (Htry : ∀ pe, try_parse_call pe name c1 = Done (false, fail msg c2)).
  { intros pe. unfold try_parse_call.
    assert (Hsk1 : skip_spaces c1 = c1).
    { unfold c1. rewrite <- (Nat.add_0_r (String.length name)) at 2.
      apply skip_spaces_seek; [lia|intros; lia|].
      rewrite Nat.add_0_r, Hopen. reflexivity. }
    rewrite Hsk1.
    assert (Hg1 : get c1 = "("%char) by exact Hopen.
    rewrite Hg1. simpl (Ascii.eqb _ _). cbv iota.
    assert (Heat : eat "(" c1 = c2).
    { unfold c1, c2. apply eat_seek; [lia|exact Hopen|reflexivity]. }
    rewrite Heat.
    rewrite (proj2 (String.eqb_neq name "if") Nif), (proj2 (String.eqb_neq name "let") Nlet),
      (proj2 (String.eqb_neq name "map") Nmap), (proj2 (String.eqb_neq name "join") Njoin),
      (proj2 (String.eqb_neq name "sum") Nsum), Hcall.
    reflexivity. }
  set (c3 := fail msg c2).
  assert (He3 : eos c3 = true) by reflexivity.
  assert (Hps : parse_symbol name (get_input_mark c0) c3
                = Done (if (fst (resolve p name) =? Params_UNDEF)%Z then Symbol_UNDEF
                        else to_int (fst (resolve p name)),
                        name, set_top_params (snd (resolve p name)) c3)).
  { assert (Hlet : ∀ x, resolve_let_name (mkResolveContext TopParams None []) x
                        = Symbol_UNDEF) by reflexivity.
    unfold parse_symbol, resolve_let_ref, resolver.
    change (_resolve_stack c3) with [mkResolveContext TopParams None []].
    cbv iota. change (mbind ?f (Done ?x)) with (f x). cbv beta.
    change (mbind ?f (Done ?x)) with (f x). cbv beta.
    rewrite Hlet.
    change (negb (Symbol_UNDEF =? Symbol_UNDEF)%Z) with false. cbv iota.
    unfold extract_symbol, resolver.
    change (_resolve_stack c3) with [mkResolveContext TopParams None []].
    cbv iota. change (mbind ?f (Done ?x)) with (f x). cbv beta.
    simpl _symbol_extractor. cbv iota.
    change (mbind ?f (Done ?x)) with (f x). cbv beta iota.
    unfold resolve_parameter, resolver.
    change (_resolve_stack c3) with [mkResolveContext TopParams None []].
    cbv iota. change (mbind ?f (Done ?x)) with (f x). cbv beta.
    simpl _params_ref. cbv iota.
    change (top_params c3) with p.
    destruct (resolve p name) as [id q]. simpl fst. simpl snd.
    destruct (id =? Params_UNDEF)%Z; reflexivity. }
  set (c4 := set_top_params (snd (resolve p name)) c3) in *.
  assert (Hv : ∃ c5, parse_value (S fuel) c0 = Done c5
                     ∧ eos c5 = true ∧ _failure c5 = msg
                     ∧ _pos c5 = S (String.length name) ∧ _input c5 = input
                     ∧ top_params c5 = snd (resolve p name)
                     ∧ _operator_stack c5 = [] ∧ _operator_mark c5 = 0).
  { rewrite parse_value_S. unfold parse_value_body at 1.
    rewrite Hsk. change (get c0) with ch. rewrite E1, E2, E3, E4, E5, Hdig.
    unfold parse_symbol_or_call. rewrite Hg. fold c1. rewrite Htry.
    change (mbind ?f (Done ?x)) with (f x). cbv beta iota.
    simpl negb. cbv iota. fold c3. rewrite Hps.
    change (mbind ?f (Done ?x)) with (f x). cbv beta iota.
    change (empty name) with false. cbv iota.
    destruct (_ =? Symbol_UNDEF)%Z; eexists; (split; [reflexivity|]);
      repeat split; reflexivity. }
  destruct Hv as (c5 & Hv & He5 & Hf5 & Hp5 & Hi5 & Ht5 & Ho5 & Hm5).
  exists (operator_mark (_operator_mark c0) c5).
  split; [|auto].
  apply parse_expression_single; [exact Hv|exact He5|].
  unfold num_operators. rewrite Ho5. simpl. lia.
Qed.


(** ** Let bindings *)

Lemma is_identifier_facts (x : string) :
  is_identifier x = true →
  ∃ ch rest, x = String ch rest ∧ is_ident ch true = true ∧ isdigit ch = false
             ∧ str_forall (λ b, is_ident b false) rest = true.
Proof.
  destruct x as [|ch rest]; [discriminate|]. simpl. intros Hx.
  apply andb_prop in Hx as [Hx Hrest]. apply andb_prop in Hx as [Hch Hdig].
  apply negb_true_iff in Hdig. exists ch, rest. auto.
Qed.

Lemma load_head (c : ParseContext) (pre post : string) (t : ascii) :
  _input c = pre +:+ String t post → load c (String.length pre) = t.
Proof.
  intros Hin. rewrite <- (Nat.add_0_r (String.length pre)).
  rewrite (load_app c pre (String t post) 0 Hin); [reflexivity|simpl; lia].
Qed.

Lemma load_bytes (c : ParseContext) (pre x post : string) (k : nat) :
  _input c = pre +:+ x +:+ post → k < String.length x →
  load c (String.length pre + k) = byte_at x k.
Proof.
  intros Hin Hk. rewrite (load_app c pre (x +:+ post) k Hin).
  - apply byte_at_app_l, Hk.
  - rewrite str_length_app. lia.
Qed.

Lemma end_split (c : ParseContext) (pre x post : string) :
  _input c = pre +:+ x +:+ post → String.length pre + String.length x ≤ _end c.
Proof. intros Hin. unfold _end. rewrite Hin, !str_length_app. lia. Qed.

Lemma skip_spaces_stay (q : nat) (c : ParseContext) :
  isspace (load c q) = false → skip_spaces (seek q c) = seek q c.
Proof.
  intros Hsp. unfold skip_spaces. destruct (chars_left (seek q c)); [reflexivity|].
  cbn [while]. change (_curr (seek q c)) with (load c q).
  rewrite Hsp, andb_false_r. reflexivity.
Qed.

(** [get_ident] on an identifier of the input. *)
Lemma get_ident_at (x pre post : string) (c : ParseContext) :
  _input c = pre +:+ x +:+ post → is_identifier x = true →
  is_ident (load c (String.length (pre +:+ x))) false = false →
  get_ident (seek (String.length pre) c) = (x, seek (String.length (pre +:+ x)) c).
Proof.
  intros Hin Hx Hstop.
  destruct (is_identifier_facts x Hx) as (ch & rest & -> & Hch & _ & Hrest).
  rewrite str_length_app in *.
  apply get_ident_seek; [exact (end_split c _ _ _ Hin)| |exact Hch|exact Hrest|exact Hstop].
  intros k Hk. exact (load_bytes c _ _ _ k Hin Hk).
Qed.

Lemma eat_at (ch : ascii) (pre post : string) (c : ParseContext) :
  _input c = pre +:+ String ch post → is_NUL ch = false →
  eat ch (seek (String.length pre) c) = seek (String.length (pre +:+ String ch "")) c.
Proof.
  intros Hin Hn. rewrite str_length_app. simpl (String.length (String ch "")).
  replace (String.length pre + 1) with (S (String.length pre)) by lia.
  apply eat_seek; [|exact (load_head c _ _ _ Hin)|exact Hn].
  unfold _end. rewrite Hin, str_length_app. simpl. lia.
Qed.

Lemma skip_spaces_at (ws pre post : string) (c : ParseContext) :
  _input c = pre +:+ ws +:+ post → str_forall isspace ws = true →
  isspace (load c (String.length (pre +:+ ws))) = false →
  skip_spaces (seek (String.length pre) c) = seek (String.length (pre +:+ ws)) c.
Proof.
  intros Hin Hws Hstop. rewrite str_length_app in *.
  apply skip_spaces_seek; [exact (end_split c _ _ _ Hin)| |exact Hstop].
  intros k Hk. rewrite (load_bytes c _ _ _ k Hin Hk). apply byte_at_forall; assumption.
Qed.

(** [try_parse_call] where no "(" follows the name and the blanks behind
    it. *)
Lemma try_parse_call_no_call (pe : ParseContext → outcome ParseContext) (name : string)
    (ws pre post : string) (c : ParseContext) :
  _input c = pre +:+ ws +:+ post → str_forall isspace ws = true →
  isspace (load c (String.length (pre +:+ ws))) = false →
  Ascii.eqb (load c (String.length (pre +:+ ws))) "(" = false →
  try_parse_call pe name (seek (String.length pre) c)
  = Done (false, seek (String.length (pre +:+ ws)) c).
Proof.
  intros Hin Hws Hsp Hopen. unfold try_parse_call.
  rewrite (skip_spaces_at ws pre post c Hin Hws Hsp).
  unfold get. change (_curr (seek ?q c)) with (load c q). rewrite Hopen. reflexivity.
Qed.

(** [parse_value] on an identifier that is not called: the node is what
    [parse_symbol] decides. *)
Lemma parse_value_identifier (fuel : nat) (x ws pre post : string) (c : ParseContext) :
  _input c = pre +:+ x +:+ ws +:+ post →
  is_identifier x = true → str_forall isspace ws = true →
  is_ident (load c (String.length (pre +:+ x))) false = false →
  isspace (load c (String.length (pre +:+ x +:+ ws))) = false →
  Ascii.eqb (load c (String.length (pre +:+ x +:+ ws))) "(" = false →
  parse_value (S fuel) (seek (String.length pre) c)
  = ('(id, name, ctx) ← parse_symbol x (get_input_mark (seek (String.length pre) c))
                                     (seek (String.length (pre +:+ x +:+ ws)) c);
     if empty name then Done (fail "missing value" ctx)
     else if (id =? Symbol_UNDEF)%Z
          then Done (fail ("unknown symbol: '" +:+ c_str name +:+ "'") ctx)
          else Done (push_expression (nodes.Symbol id) ctx)).
Proof.
  intros Hin Hx Hws Hstop Hsp Hopen.
  destruct (is_identifier_facts x Hx) as (ch & rest & Ex & Hch & Hdig & Hrest).
  destruct (is_ident_first_facts ch Hch) as (Hsp0 & Hn & E1 & E2 & E3 & E4 & E5 & _).
  assert (H0 : load c (String.length pre) = ch).
  { subst x. exact (load_head c pre (rest +:+ ws +:+ post) ch Hin). }
  rewrite parse_value_S. unfold parse_value_body.
  rewrite skip_spaces_stay by (rewrite H0; exact Hsp0).
  unfold get at 1 2 3 4 5 6. change (_curr (seek (String.length pre) c))
    with (load c (String.length pre)).
  rewrite H0, E1, E2, E3, E4, E5, Hdig.
  unfold parse_symbol_or_call.
  rewrite (get_ident_at x pre (ws +:+ post) c Hin Hx Hstop).
  assert (Hin' : _input c = (pre +:+ x) +:+ ws +:+ post)
    by (rewrite str_app_assoc; exact Hin).
  rewrite <- str_app_assoc in Hsp, Hopen |- *.
  rewrite (try_parse_call_no_call _ x ws (pre +:+ x) post c Hin' Hws Hsp Hopen).
  reflexivity.
Qed.

Lemma parse_symbol_bound (x : string) (mark : InputMark) (c : ParseContext)
    (rc : ResolveContext) (rs : list ResolveContext) (outer inner : list string) :
  _resolve_stack c = rc :: rs →
  _let_names rc = (outer ++ x :: inner)%list → x ∉ inner →
  (Z.of_nat (length (_let_names rc)) < 2 ^ 31)%Z →
  parse_symbol x mark c = Done ((- (Z.of_nat (length outer) + 1))%Z, x, c).
Proof.
  intros Hrs Hn Hnin Hlen. unfold parse_symbol, resolve_let_ref, resolver.
  rewrite Hrs. change (mbind ?f (Done ?a)) with (f a). cbv beta.
  change (mbind ?f (Done ?a)) with (f a). cbv beta.
  rewrite (resolve_let_name_found rc x outer inner Hn Hnin Hlen).
  replace (- (Z.of_nat (length outer) + 1) =? Symbol_UNDEF)%Z with false; [reflexivity|].
  symmetry. apply Z.eqb_neq. unfold Symbol_UNDEF. lia.
Qed.

Lemma parse_symbol_unbound (x : string) (mark : InputMark) (c : ParseContext)
    (rc : ResolveContext) (rs : list ResolveContext) :
  _resolve_stack c = rc :: rs → x ∉ _let_names rc →
  parse_symbol x mark c
  = ('(name, ctx) ← extract_symbol x mark c;
     '(id, ctx) ← resolve_parameter name ctx;
     Done (id, name, ctx)).
Proof.
  intros Hrs Hnin. unfold parse_symbol, resolve_let_ref, resolver.
  rewrite Hrs. change (mbind ?f (Done ?a)) with (f a). cbv beta.
  change (mbind ?f (Done ?a)) with (f a). cbv beta.
  unfold resolve_let_name. rewrite (resolve_let_name_from_absent _ x _ Hnin).
  reflexivity.
Qed.

Lemma parse_symbol_parameter (x : string) (mark : InputMark) (c : ParseContext)
    (rc : ResolveContext) (rs : list ResolveContext) :
  _resolve_stack c = rc :: rs → x ∉ _let_names rc → _symbol_extractor rc = None →
  parse_symbol x mark c = ('(id, ctx) ← resolve_parameter x c; Done (id, x, ctx)).
Proof.
  intros Hrs Hnin Hext. rewrite (parse_symbol_unbound x mark c rc rs Hrs Hnin).
  unfold extract_symbol, resolver. rewrite Hrs.
  change (mbind ?f (Done ?a)) with (f a). cbv beta. rewrite Hext.
  reflexivity.
Qed.

(** An occurrence of a name that a let binds becomes the Symbol node of the
    innermost binding. *)
Lemma parse_value_let_reference (fuel : nat) (x ws pre post : string) (c : ParseContext)
    (rc : ResolveContext) (rs : list ResolveContext) (outer inner : list string) :
  _input c = pre +:+ x +:+ ws +:+ post →
  is_identifier x = true → str_forall isspace ws = true →
  is_ident (load c (String.length (pre +:+ x))) false = false →
  isspace (load c (String.length (pre +:+ x +:+ ws))) = false →
  Ascii.eqb (load c (String.length (pre +:+ x +:+ ws))) "(" = false →
  _resolve_stack c = rc :: rs →
  _let_names rc = (outer ++ x :: inner)%list → x ∉ inner →
  (Z.of_nat (length (_let_names rc)) < 2 ^ 31)%Z →
  parse_value (S fuel) (seek (String.length pre) c)
  = Done (push_expression (nodes.Symbol (- (Z.of_nat (length outer) + 1)))
            (seek (String.length (pre +:+ x +:+ ws)) c)).
Proof.
  intros Hin Hx Hws Hstop Hsp Hopen Hrs Hn Hnin Hlen.
  rewrite (parse_value_identifier fuel x ws pre post c Hin Hx Hws Hstop Hsp Hopen).
  rewrite (parse_symbol_bound x _ (seek (String.length (pre +:+ x +:+ ws)) c) rc rs
             outer inner Hrs Hn Hnin Hlen).
  change (mbind ?f (Done ?a)) with (f a). cbv beta iota.
  destruct (is_identifier_facts x Hx) as (ch & rest & -> & _).
  change (empty (String ch rest)) with false. cbv iota.
  replace (- (Z.of_nat (length outer) + 1) =? Symbol_UNDEF)%Z with false; [reflexivity|].
  symmetry. apply Z.eqb_neq. unfold Symbol_UNDEF. lia.
Qed.

(** An occurrence of a name that no let binds is left to the symbol
    extractor and the parameters. *)
Lemma parse_value_unbound (fuel : nat) (x ws pre post : string) (c : ParseContext)
    (rc : ResolveContext) (rs : list ResolveContext) :
  _input c = pre +:+ x +:+ ws +:+ post →
  is_identifier x = true → str_forall isspace ws = true →
  is_ident (load c (String.length (pre +:+ x))) false = false →
  isspace (load c (String.length (pre +:+ x +:+ ws))) = false →
  Ascii.eqb (load c (String.length (pre +:+ x +:+ ws))) "(" = false →
  _resolve_stack c = rc :: rs → x ∉ _let_names rc →
  parse_value (S fuel) (seek (String.length pre) c)
  = ('(name, ctx) ← extract_symbol x (get_input_mark (seek (String.length pre) c))
                                   (seek (String.length (pre +:+ x +:+ ws)) c);
     '(id, ctx) ← resolve_parameter name ctx;
     if empty name then Done (fail "missing value" ctx)
     else if (id =? Symbol_UNDEF)%Z
          then Done (fail ("unknown symbol: '" +:+ c_str name +:+ "'") ctx)
          else Done (push_expression (nodes.Symbol id) ctx)).
Proof.
  intros Hin Hx Hws Hstop Hsp Hopen Hrs Hnin.
  rewrite (parse_value_identifier fuel x ws pre post c Hin Hx Hws Hstop Hsp Hopen).
  rewrite (parse_symbol_unbound x _ (seek (String.length (pre +:+ x +:+ ws)) c) rc rs
             Hrs Hnin).
  destruct (extract_symbol _ _ _) as [[name ctx]| |]; [|reflexivity|reflexivity].
  change (mbind ?f (Done ?a)) with (f a). cbv beta iota.
  destruct (resolve_parameter _ _) as [[id ctx']| |]; reflexivity.
Qed.

(** Without a symbol extractor it is resolved as a parameter. *)
Lemma parse_value_parameter (fuel : nat) (x ws pre post : string) (c : ParseContext)
    (rc : ResolveContext) (rs : list ResolveContext) :
  _input c = pre +:+ x +:+ ws +:+ post →
  is_identifier x = true → str_forall isspace ws = true →
  is_ident (load c (String.length (pre +:+ x))) false = false →
  isspace (load c (String.length (pre +:+ x +:+ ws))) = false →
  Ascii.eqb (load c (String.length (pre +:+ x +:+ ws))) "(" = false →
  _resolve_stack c = rc :: rs → x ∉ _let_names rc → _symbol_extractor rc = None →
  parse_value (S fuel) (seek (String.length pre) c)
  = ('(id, ctx) ← resolve_parameter x (seek (String.length (pre +:+ x +:+ ws)) c);
     if (id =? Symbol_UNDEF)%Z
     then Done (fail ("unknown symbol: '" +:+ c_str x +:+ "'") ctx)
     else Done (push_expression (nodes.Symbol id) ctx)).
Proof.
  intros Hin Hx Hws Hstop Hsp Hopen Hrs Hnin Hext.
  rewrite (parse_value_identifier fuel x ws pre post c Hin Hx Hws Hstop Hsp Hopen).
  rewrite (parse_symbol_parameter x _ (seek (String.length (pre +:+ x +:+ ws)) c) rc rs
             Hrs Hnin Hext).
  destruct (is_identifier_facts x Hx) as (ch & rest & -> & _).
  destruct (resolve_parameter _ _) as [[id ctx]| |]; reflexivity.
Qed.

Lemma quiet_scopes (c c' : ParseContext) : quiet c c' → scopes c' = scopes c.
Proof. intros (_ & Hr & _). unfold scopes. rewrite Hr. reflexivity. Qed.

Lemma parse_expression_scopes (fuel : nat) (c c' : ParseContext) :
  scopes c ≠ [] → parse_expression fuel c = Done c' → scopes c' = scopes c.
Proof.
  intros Hsc E. pose proof (parse_expression_run fuel c Hsc) as Hs.
  rewrite E in Hs. exact (proj1 Hs).
Qed.

Lemma parse_value_scopes (fuel : nat) (c c' : ParseContext) :
  scopes c ≠ [] → parse_value fuel c = Done c' → scopes c' = scopes c.
Proof.
  intros Hsc E. pose proof (proj1 (parse_recursion_run fuel) c Hsc) as Hs.
  rewrite E in Hs. exact (proj1 Hs).
Qed.

(** [parse_let] parses the value in the scopes of its caller and the body
    with the name pushed as the innermost binding, and pops the binding
    before it pushes the Let node of the two expressions. *)
Lemma parse_let_scoping (fuel : nat) (ctx ctx' : ParseContext) :
  _resolve_stack ctx ≠ [] →
  parse_let (parse_expression fuel) ctx = Done ctx' →
  ∃ c_v' c_b c_b',
    parse_expression fuel (eat "," (skip_spaces (snd (get_ident ctx)))) = Done c_v'
    ∧ scopes (eat "," (skip_spaces (snd (get_ident ctx)))) = scopes ctx
    ∧ push_let_binding (fst (get_ident ctx)) (eat "," (snd (pop_expression c_v'))) = Done c_b
    ∧ (∃ ext names rest,
         scopes ctx = (ext, names) :: rest
         ∧ scopes c_b = (ext, (names ++ [fst (get_ident ctx)])%list) :: rest)
    ∧ parse_expression fuel c_b = Done c_b'
    ∧ scopes c_b' = scopes c_b
    ∧ scopes ctx' = scopes ctx
    ∧ _expression_stack ctx'
      = nodes.Let (fst (get_ident ctx)) (fst (pop_expression c_v'))
                  (fst (pop_expression c_b'))
        :: _expression_stack (snd (pop_expression c_b')).
Proof.
  intros Hrs Hp.
  assert (Hsc : scopes ctx ≠ []).
  { unfold scopes. destruct (_resolve_stack ctx); [contradiction|discriminate]. }
  unfold parse_let in Hp.
  pose proof (get_ident_quiet ctx) as Hq1.
  destruct (get_ident ctx) as [name c1]. cbn [fst snd] in *.
  set (c_v := eat "," (skip_spaces c1)) in *.
  assert (Hsv : scopes c_v = scopes ctx).
  { unfold c_v. rewrite (quiet_scopes _ _ (eat_quiet "," _)),
      (quiet_scopes _ _ (skip_spaces_quiet _)). apply quiet_scopes, Hq1. }
  destruct (parse_expression fuel c_v) as [c_v'| |] eqn:Ev; try discriminate Hp.
  change (mbind ?f (Done c_v')) with (f c_v') in Hp. cbv beta in Hp.
  assert (Hsv' : scopes c_v' = scopes ctx).
  { rewrite <- Hsv. apply (parse_expression_scopes fuel); [rewrite Hsv; exact Hsc|exact Ev]. }
  pose proof (pop_expression_quiet c_v') as Hq3.
  destruct (pop_expression c_v') as [value c3] eqn:E3. cbn [fst snd] in *.
  set (c4 := eat "," c3) in *.
  assert (Hs4 : scopes c4 = scopes ctx).
  { unfold c4. rewrite (quiet_scopes _ _ (eat_quiet "," _)), (quiet_scopes _ _ Hq3).
    exact Hsv'. }
  pose proof (push_let_binding_run name c4 ltac:(rewrite Hs4; exact Hsc)) as Hpush.
  destruct (push_let_binding name c4) as [c_b| |] eqn:Eb; try discriminate Hp.
  change (mbind ?f (Done c_b)) with (f c_b) in Hp. cbv beta in Hp.
  destruct Hpush as (_ & ext & names & rest & Hsc4 & Hscb).
  destruct (parse_expression fuel c_b) as [c_b'| |] eqn:Ebody; try discriminate Hp.
  change (mbind ?f (Done c_b')) with (f c_b') in Hp. cbv beta in Hp.
  assert (Hsb' : scopes c_b' = scopes c_b).
  { apply (parse_expression_scopes fuel); [rewrite Hscb; discriminate|exact Ebody]. }
  pose proof (pop_expression_quiet c_b') as Hq7.
  destruct (pop_expression c_b') as [expr c7] eqn:E7. cbn [fst snd] in *.
  pose proof (pop_let_binding_run c7 ext names name rest
                ltac:(rewrite (quiet_scopes _ _ Hq7), Hsb'; exact Hscb)) as Hpop.
  destruct (pop_let_binding c7) as [c8| |] eqn:Epop; try discriminate Hp.
  change (mbind ?f (Done c8)) with (f c8) in Hp. cbv beta in Hp.
  destruct Hpop as (Hsh8 & Hsc8).
  injection Hp as <-.
  exists c_v', c_b, c_b'. rewrite E3, E7. cbn [fst snd].
  split; [reflexivity|]. split; [exact Hsv|].
  split; [exact Eb|]. split.
  { exists ext, names, rest. rewrite <- Hs4. auto. }
  split; [exact Ebody|]. split; [exact Hsb'|]. split.
  - rewrite (quiet_scopes _ _ (push_expression_quiet _ _)), Hsc8, <- Hs4. symmetry. exact Hsc4.
  - change (_expression_stack (push_expression ?n ?c)) with (n :: _expression_stack c).
    f_equal. unfold pop_let_binding in Epop.
    destruct (resolver c7) as [rc7| |]; try discriminate Epop.
    change (mbind ?f (Done rc7)) with (f rc7) in Epop. cbv beta in Epop.
    destruct (pop_let_name rc7) as [rc7'| |]; try discriminate Epop.
    injection Epop as <-. reflexivity.
Qed.

(** The value that is a whole expression: when the byte behind the value
    and its blanks ends the expression, and no operator was pushed,
    [parse_expression] returns what [parse_value] returned. *)
Lemma parse_expression_value (fuel : nat) (c0 c3 : ParseContext) :
  parse_value (S fuel) (operator_mark (num_operators c0) c0) = Done c3 →
  at_expression_end (skip_spaces c3) = true →
  num_operators (skip_spaces c3) ≤ _operator_mark (skip_spaces c3) →
  parse_expression (S (S fuel)) c0
  = Done (operator_mark (_operator_mark c0) (skip_spaces c3)).
Proof.
  intros Hv He Hm. unfold parse_expression, parse_expression_enter.
  rewrite parse_expression_loop_S, Hv.
  change (mbind ?f (Done c3)) with (f c3). cbv beta zeta.
  rewrite He. rewrite apply_operators_at_mark by exact Hm. reflexivity.
Qed.

Lemma expression_end_facts (t : ascii) :
  is_NUL t || Ascii.eqb t ")" || Ascii.eqb t "," || Ascii.eqb t "]" = true →
  is_ident t false = false ∧ isspace t = false ∧ Ascii.eqb t "(" = false.
Proof. destruct t as [[] [] [] [] [] [] [] []]; vm_compute; intuition congruence. Qed.

Lemma at_expression_end_seek (q : nat) (c : ParseContext) :
  at_expression_end (seek q c)
  = is_NUL (load c q) || Ascii.eqb (load c q) ")" || Ascii.eqb (load c q) ","
    || Ascii.eqb (load c q) "]".
Proof. reflexivity. Qed.

Lemma push_expression_seek (node : Node) (q : nat) (c : ParseContext) :
  push_expression node (seek q c) = seek q (push_expression node c).
Proof. reflexivity. Qed.

(** [parse_expression] on a let reference that is a whole expression. *)
Lemma parse_expression_let_reference (fuel : nat) (x pre post : string) (c : ParseContext)
    (rc : ResolveContext) (rs : list ResolveContext) (outer inner : list string) :
  _input c = pre +:+ x +:+ post → is_identifier x = true →
  at_expression_end (seek (String.length (pre +:+ x)) c) = true →
  _resolve_stack c = rc :: rs →
  _let_names rc = (outer ++ x :: inner)%list → x ∉ inner →
  (Z.of_nat (length (_let_names rc)) < 2 ^ 31)%Z →
  parse_expression (S (S fuel)) (seek (String.length pre) c)
  = Done (push_expression (nodes.Symbol (- (Z.of_nat (length outer) + 1)))
            (seek (String.length (pre +:+ x)) c)).
Proof.
  intros Hin Hx Hend Hrs Hn Hnin Hlen.
  rewrite at_expression_end_seek in Hend.
  destruct (expression_end_facts _ Hend) as (Hstop & Hsp & Hopen).
  set (c1 := operator_mark (num_operators (seek (String.length pre) c)) c).
  pose proof (parse_value_let_reference fuel x "" pre post c1 rc rs outer inner)
    as Hv.
  rewrite app_empty_r in Hv.
  specialize (Hv Hin Hx eq_refl Hstop Hsp Hopen Hrs Hn Hnin Hlen).
  assert (Hsk : ∀ node, skip_spaces (push_expression node (seek (String.length (pre +:+ x)) c1))
                        = push_expression node (seek (String.length (pre +:+ x)) c1)).
  { intros node. rewrite !push_expression_seek. apply skip_spaces_stay. exact Hsp. }
  rewrite (parse_expression_value fuel (seek (String.length pre) c) _ Hv); rewrite Hsk.
  - destruct c. reflexivity.
  - rewrite push_expression_seek, at_expression_end_seek. exact Hend.
  - apply Nat.le_refl.
Qed.

(** [parse_value] on the call of let. *)
Lemma parse_value_let_call (fuel : nat) (pre post : string) (c : ParseContext) :
  _input c = pre +:+ "let(" +:+ post →
  parse_value (S fuel) (seek (String.length pre) c)
  = (ctx ← parse_let (parse_expression fuel) (seek (String.length (pre +:+ "let(")) c);
     Done (eat ")" ctx)).
Proof.
  intros Hin.
  assert (H0 : load c (String.length pre) = "l"%char)
    by exact (load_head c pre ("et(" +:+ post) "l" Hin).
  assert (Hin3 : _input c = (pre +:+ "let") +:+ String "(" post)
    by (rewrite str_app_assoc; exact Hin).
  assert (H3 : load c (String.length (pre +:+ "let")) = "("%char)
    by exact (load_head c _ _ _ Hin3).
  rewrite parse_value_S. unfold parse_value_body.
  rewrite skip_spaces_stay by (rewrite H0; reflexivity).
  unfold get at 1 2 3 4 5 6. change (_curr (seek (String.length pre) c))
    with (load c (String.length pre)).
  rewrite H0. simpl (Ascii.eqb _ _). change (isdigit "l") with false. cbv iota.
  unfold parse_symbol_or_call.
  rewrite (get_ident_at "let" pre (String "(" post) c Hin eq_refl)
    by (rewrite H3; reflexivity).
  unfold try_parse_call.
  rewrite skip_spaces_stay by (rewrite H3; reflexivity).
  unfold get. change (_curr (seek ?q c)) with (load c q). rewrite H3.
  simpl (Ascii.eqb _ _). cbv iota.
  rewrite (eat_at "(" (pre +:+ "let") post c Hin3 eq_refl).
  rewrite str_app_assoc. change ("let" +:+ "(") with "let(".
  change (String.eqb "let" "if") with false. change (String.eqb "let" "let") with true.
  cbv iota.
  change (parse_expression_enter (parse_expression_loop fuel)) with (parse_expression fuel).
  destruct (parse_let _ _) as [ctx| |]; reflexivity.
Qed.

(** [parse_let] on the name and the comma. *)
Lemma parse_let_at (pe : ParseContext → outcome ParseContext) (x pre post : string)
    (c : ParseContext) :
  _input c = pre +:+ x +:+ String "," post → is_identifier x = true →
  parse_let pe (seek (String.length pre) c)
  = (ctx ← pe (seek (String.length (pre +:+ x +:+ ",")) c);
     let '(value, ctx) := pop_expression ctx in
     let ctx := eat "," ctx in
     ctx ← push_let_binding x ctx;
     ctx ← pe ctx;
     let '(expr, ctx) := pop_expression ctx in
     ctx ← pop_let_binding ctx;
     Done (push_expression (nodes.Let x value expr) ctx)).
Proof.
  intros Hin Hx.
  assert (Hin' : _input c = (pre +:+ x) +:+ String "," post)
    by (rewrite str_app_assoc; exact Hin).
  assert (Hc : load c (String.length (pre +:+ x)) = ","%char)
    by exact (load_head c _ _ _ Hin').
  unfold parse_let.
  rewrite (get_ident_at x pre (String "," post) c Hin Hx) by (rewrite Hc; reflexivity).
  rewrite skip_spaces_stay by (rewrite Hc; reflexivity).
  rewrite (eat_at "," (pre +:+ x) post c Hin' eq_refl).
  rewrite str_app_assoc. reflexivity.
Qed.

Lemma pop_let_binding_last (c : ParseContext) (rc : ResolveContext)
    (rs : list ResolveContext) (names : list string) (x : string) :
  _resolve_stack c = rc :: rs → _let_names rc = (names ++ [x])%list →
  pop_let_binding c
  = Done (set_resolver (mkResolveContext (_params_ref rc) (_symbol_extractor rc) names) c).
Proof.
  intros Hrs Hn. unfold pop_let_binding, resolver. rewrite Hrs.
  change (mbind ?f (Done ?a)) with (f a). cbv beta.
  unfold pop_let_name. rewrite Hn.
  case_bool_decide as Hnil; [destruct names; discriminate Hnil|].
  simpl. rewrite removelast_last. reflexivity.
Qed.

(** [parse_expression] on a parameter that is a whole expression. *)
Lemma parse_expression_parameter (fuel : nat) (x pre post : string) (c : ParseContext)
    (rc : ResolveContext) (rs : list ResolveContext) (id : Z) (q : Params) :
  _input c = pre +:+ x +:+ post → is_identifier x = true →
  at_expression_end (seek (String.length (pre +:+ x)) c) = true →
  _resolve_stack c = rc :: rs → x ∉ _let_names rc → _symbol_extractor rc = None →
  _params_ref rc = TopParams → resolve (top_params c) x = (id, q) →
  id ≠ Params_UNDEF → to_int id ≠ Symbol_UNDEF →
  parse_expression (S (S fuel)) (seek (String.length pre) c)
  = Done (push_expression (nodes.Symbol (to_int id))
            (set_top_params q (seek (String.length (pre +:+ x)) c))).
Proof.
  intros Hin Hx Hend Hrs Hnin Hext Hpr Hres Hid Hsym.
  rewrite at_expression_end_seek in Hend.
  destruct (expression_end_facts _ Hend) as (Hstop & Hsp & Hopen).
  set (c1 := operator_mark (num_operators (seek (String.length pre) c)) c).
  pose proof (parse_value_parameter fuel x "" pre post c1 rc rs) as Hv.
  rewrite app_empty_r in Hv.
  specialize (Hv Hin Hx eq_refl Hstop Hsp Hopen Hrs Hnin Hext).
  assert (Hrp : resolve_parameter x (seek (String.length (pre +:+ x)) c1)
                = Done (to_int id, set_top_params q (seek (String.length (pre +:+ x)) c1))).
  { unfold resolve_parameter, resolver.
    change (_resolve_stack (seek ?p c1)) with (_resolve_stack c). rewrite Hrs.
    change (mbind ?f (Done ?a)) with (f a). cbv beta. rewrite Hpr.
    change (top_params (seek ?p c1)) with (top_params c). rewrite Hres.
    replace (id =? Params_UNDEF)%Z with false by (symmetry; apply Z.eqb_neq, Hid).
    reflexivity. }
  rewrite Hrp in Hv. change (mbind ?f (Done ?a)) with (f a) in Hv. cbv beta iota in Hv.
  replace (to_int id =? Symbol_UNDEF)%Z with false in Hv
    by (symmetry; apply Z.eqb_neq, Hsym).
  assert (Hsk : ∀ node, skip_spaces (push_expression node
                          (set_top_params q (seek (String.length (pre +:+ x)) c1)))
                        = push_expression node
                            (set_top_params q (seek (String.length (pre +:+ x)) c1))).
  { intros node.
    change (push_expression node (set_top_params q (seek ?p c1)))
      with (seek p (push_expression node (set_top_params q c1))).
    apply skip_spaces_stay. exact Hsp. }
  rewrite (parse_expression_value fuel (seek (String.length pre) c) _ Hv); rewrite Hsk.
  - destruct c. reflexivity.
  - change (push_expression ?node (set_top_params q (seek ?p c1)))
      with (seek p (push_expression node (set_top_params q c1))).
    rewrite at_expression_end_seek. exact Hend.
  - apply Nat.le_refl.
Qed.

Lemma pop_expression_push_expression (node : Node) (c : ParseContext) :
  pop_expression (push_expression node c) = (node, c).
Proof. destruct c. reflexivity. Qed.

(** [parse_let] from the results of the two [parse_expression]s. *)
Lemma parse_let_forward (pe : ParseContext → outcome ParseContext) (x pre post : string)
    (c cv cb : ParseContext) (rc : ResolveContext) (rs : list ResolveContext)
    (value expr : Node) (qv qb : nat) :
  _input c = pre +:+ x +:+ String "," post → is_identifier x = true →
  pe (seek (String.length (pre +:+ x +:+ ",")) c) = Done (push_expression value (seek qv cv)) →
  qv < _end cv → load cv qv = ","%char → _resolve_stack cv = rc :: rs →
  pe (seek (S qv) (set_resolver (push_let_name rc x) cv))
  = Done (push_expression expr (seek qb cb)) →
  _resolve_stack cb = push_let_name rc x :: rs →
  parse_let pe (seek (String.length pre) c)
  = Done (push_expression (nodes.Let x value expr) (seek qb (set_resolver rc cb))).
Proof.
  intros Hin Hx Hv Hqv Hcomma Hrs Hb Hrsb.
  rewrite (parse_let_at pe x pre post c Hin Hx), Hv.
  change (mbind ?f (Done ?a)) with (f a). cbv beta.
  rewrite pop_expression_push_expression.
  rewrite (eat_seek "," qv cv Hqv Hcomma eq_refl).
  assert (Hpush : push_let_binding x (seek (S qv) cv)
                  = Done (seek (S qv) (set_resolver (push_let_name rc x) cv))).
  { unfold push_let_binding, resolver.
    change (_resolve_stack (seek ?p cv)) with (_resolve_stack cv). rewrite Hrs.
    reflexivity. }
  cbv zeta. rewrite Hpush. change (mbind ?f (Done ?a)) with (f a). cbv beta.
  rewrite Hb. change (mbind ?f (Done ?a)) with (f a). cbv beta.
  rewrite pop_expression_push_expression.
  rewrite (pop_let_binding_last (seek qb cb) (push_let_name rc x) rs (_let_names rc) x
             Hrsb eq_refl).
  change (mbind ?f (Done ?a)) with (f a). cbv beta.
  destruct rc. reflexivity.
Qed.

(** Nested lets of one name, in a NUL-terminated buffer. *)
Lemma parse_nested_let (x : string) :
  end_byte = NUL → is_identifier x = true →
  parse ("let(" +:+ x +:+ "," +:+ x +:+ ",let(" +:+ x +:+ "," +:+ x +:+ "," +:+ x +:+ "))")
  = Done (mkFunction
            (nodes.Let x (nodes.Symbol 0)
               (nodes.Let x (nodes.Symbol (-1)) (nodes.Symbol (-2))))
            [x]).
Proof.
  intros Hz Hx.
  set (input := "let(" +:+ x +:+ "," +:+ x +:+ ",let(" +:+ x +:+ "," +:+ x +:+ ","
                +:+ x +:+ "))").
  set (a1 := "let(").
  set (a2 := a1 +:+ x +:+ ",").
  set (a3 := a2 +:+ x).
  set (a4 := a3 +:+ ",").
  set (a5 := a4 +:+ "let(").
  set (a6 := a5 +:+ x +:+ ",").
  set (a7 := a6 +:+ x).
  set (a8 := a7 +:+ ",").
  set (a9 := a8 +:+ x).
  set (a10 := a9 +:+ ")").
  assert (E1 : input = a1 +:+ x +:+ String "," (x +:+ ",let(" +:+ x +:+ "," +:+ x +:+ ","
                                                 +:+ x +:+ "))")) by reflexivity.
  assert (E2 : input = a2 +:+ x +:+ ",let(" +:+ x +:+ "," +:+ x +:+ "," +:+ x +:+ "))")
    by (unfold a2, a1; rewrite !str_app_assoc; reflexivity).
  assert (E3 : input = a3 +:+ String "," ("let(" +:+ x +:+ "," +:+ x +:+ "," +:+ x +:+ "))"))
    by (unfold a3, a2, a1; rewrite !str_app_assoc; reflexivity).
  assert (E4 : input = a4 +:+ "let(" +:+ x +:+ "," +:+ x +:+ "," +:+ x +:+ "))")
    by (unfold a4, a3, a2, a1; rewrite !str_app_assoc; reflexivity).
  assert (E5 : input = a5 +:+ x +:+ String "," (x +:+ "," +:+ x +:+ "))"))
    by (unfold a5, a4, a3, a2, a1; rewrite !str_app_assoc; reflexivity).
  assert (E6 : input = a6 +:+ x +:+ "," +:+ x +:+ "))")
    by (unfold a6, a5, a4, a3, a2, a1; rewrite !str_app_assoc; reflexivity).
  assert (E7 : input = a7 +:+ String "," (x +:+ "))"))
    by (unfold a7, a6, a5, a4, a3, a2, a1; rewrite !str_app_assoc; reflexivity).
  assert (E8 : input = a8 +:+ x +:+ "))")
    by (unfold a8, a7, a6, a5, a4, a3, a2, a1; rewrite !str_app_assoc; reflexivity).
  assert (E9 : input = a9 +:+ String ")" ")")
    by (unfold a9, a8, a7, a6, a5, a4, a3, a2, a1; rewrite !str_app_assoc; reflexivity).
  assert (E10 : input = a10 +:+ String ")" "")
    by (unfold a10, a9, a8, a7, a6, a5, a4, a3, a2, a1; rewrite !str_app_assoc;
        reflexivity).
  assert (E11 : input = a10 +:+ ")")
    by exact E10.
  assert (L4 : String.length a4 = S (String.length a3))
    by (unfold a4; rewrite str_length_app; simpl; lia).
  assert (L8 : String.length a8 = S (String.length a7))
    by (unfold a8; rewrite str_length_app; simpl; lia).
  assert (L10 : String.length a10 = S (String.length a9))
    by (unfold a10; rewrite str_length_app; simpl; lia).
  assert (L11 : String.length input = S (String.length a10))
    by (rewrite E10, str_length_app; simpl; lia).
  unfold parse, parse_function. fold input.
  replace (parse_fuel input) with (S (S (S (S (S (S (2 * String.length input + 2)))))))
    by (unfold parse_fuel; lia).
  set (f0 := 2 * String.length input + 2).
  set (c0 := ParseContext_new ImplicitParams input None).
  destruct (represents_lookup_add_new ImplicitParams [] x (represents_empty _) eq_refl)
    as (Hid & _ & Hrep); [apply not_elem_of_nil|].
  set (q := snd (lookup_add ImplicitParams x)) in *.
  assert (Hres : resolve (top_params c0) x = (0%Z, q)).
  { change (resolve (top_params c0) x) with (lookup_add ImplicitParams x).
    rewrite (surjective_pairing (lookup_add ImplicitParams x)), Hid. reflexivity. }
  set (rc0 := mkResolveContext TopParams None []).
  set (rc1 := mkResolveContext TopParams None [x]).
  set (rc2 := mkResolveContext TopParams None [x; x]).
  set (cA := set_top_params q c0).
  set (cB := set_resolver rc1 cA).
  set (cC := set_resolver rc2 cB).
  set (inner := nodes.Let x (nodes.Symbol (-1)) (nodes.Symbol (-2))).
  assert (Hnil : x ∉ @nil string) by apply not_elem_of_nil.
  (* the value of the outer let: a parameter *)
  assert (Hv1 : parse_expression (S (S (S (S f0)))) (seek (String.length a2) c0)
                = Done (push_expression (nodes.Symbol 0) (seek (String.length a3) cA))).
  { apply (parse_expression_parameter (S (S f0)) x a2 _ c0 rc0 [] 0 q E2 Hx).
    - rewrite at_expression_end_seek. fold a3. rewrite (load_head c0 a3 _ "," E3).
      reflexivity.
    - reflexivity.
    - exact Hnil.
    - reflexivity.
    - reflexivity.
    - exact Hres.
    - discriminate.
    - discriminate. }
  (* the value of the inner let: the outer binding *)
  assert (Hv2 : parse_expression (S (S f0)) (seek (String.length a6) cB)
                = Done (push_expression (nodes.Symbol (-1)) (seek (String.length a7) cB))).
  { apply (parse_expression_let_reference f0 x a6 _ cB rc1 [] [] [] E6 Hx).
    - rewrite at_expression_end_seek. fold a7. rewrite (load_head cB a7 _ "," E7).
      reflexivity.
    - reflexivity.
    - reflexivity.
    - exact Hnil.
    - reflexivity. }
  (* the body of the inner let: the inner binding *)
  assert (Hb2 : parse_expression (S (S f0)) (seek (String.length a8) cC)
                = Done (push_expression (nodes.Symbol (-2)) (seek (String.length a9) cC))).
  { apply (parse_expression_let_reference f0 x a8 _ cC rc2 [] [x] [] E8 Hx).
    - rewrite at_expression_end_seek. fold a9. rewrite (load_head cC a9 _ ")" E9).
      reflexivity.
    - reflexivity.
    - reflexivity.
    - exact Hnil.
    - reflexivity. }
  assert (Hlet2 : parse_let (parse_expression (S (S f0))) (seek (String.length a5) cB)
                  = Done (push_expression inner (seek (String.length a9) cB))).
  { apply (parse_let_forward (parse_expression (S (S f0))) x a5 _ cB cB cC rc1 []
             (nodes.Symbol (-1)) (nodes.Symbol (-2)) (String.length a7) (String.length a9)
             E5 Hx Hv2).
    - unfold _end. change (_input cB) with input. rewrite E7, str_length_app. simpl. lia.
    - exact (load_head cB a7 _ "," E7).
    - reflexivity.
    - rewrite <- L8. exact Hb2.
    - reflexivity. }
  (* the inner let, the body of the outer one *)
  assert (Hb1 : parse_expression (S (S (S (S f0)))) (seek (String.length a4) cB)
                = Done (push_expression inner (seek (String.length a10) cB))).
  { assert (Hpv : parse_value (S (S (S f0)))
                    (operator_mark (num_operators (seek (String.length a4) cB))
                                   (seek (String.length a4) cB))
                  = Done (seek (String.length a10) (push_expression inner cB))).
    { change (operator_mark _ (seek (String.length a4) cB)) with (seek (String.length a4) cB).
      rewrite (parse_value_let_call (S (S f0)) a4 _ cB E4). fold a5. rewrite Hlet2.
      change (mbind ?f (Done ?a)) with (f a). cbv beta.
      rewrite push_expression_seek, (eat_at ")" a9 _ (push_expression inner cB) E9 eq_refl).
      reflexivity. }
    assert (Hsk : skip_spaces (seek (String.length a10) (push_expression inner cB))
                  = seek (String.length a10) (push_expression inner cB)).
    { apply skip_spaces_stay.
      rewrite (load_head (push_expression inner cB) a10 _ ")" E10). reflexivity. }
    rewrite (parse_expression_value (S (S f0)) (seek (String.length a4) cB) _ Hpv);
      rewrite Hsk.
    - reflexivity.
    - rewrite at_expression_end_seek,
        (load_head (push_expression inner cB) a10 _ ")" E10). reflexivity.
    - apply Nat.le_refl. }
  set (outer := nodes.Let x (nodes.Symbol 0) inner).
  assert (Hlet1 : parse_let (parse_expression (S (S (S (S f0))))) (seek (String.length a1) c0)
                  = Done (push_expression outer (seek (String.length a10) cA))).
  { apply (parse_let_forward (parse_expression (S (S (S (S f0))))) x a1 _ c0 cA cB rc0 []
             (nodes.Symbol 0) inner (String.length a3) (String.length a10)
             E1 Hx Hv1).
    - unfold _end. change (_input cA) with input. rewrite E3, str_length_app. simpl. lia.
    - exact (load_head cA a3 _ "," E3).
    - reflexivity.
    - rewrite <- L4. exact Hb1.
    - reflexivity. }
  set (c9 := seek (String.length input) (push_expression outer cA)).
  assert (He9 : eos c9 = true).
  { unfold c9, eos. change (_curr (seek ?p ?c)) with (load c p).
    change (String.length input) with (_end (push_expression outer cA)).
    rewrite load_end, Hz. reflexivity. }
  assert (Hpv : parse_value (S (S (S (S (S f0))))) (operator_mark (num_operators c0) c0)
                = Done c9).
  { change (operator_mark (num_operators c0) c0) with (seek (String.length "") c0).
    rewrite (parse_value_let_call (S (S (S (S f0)))) "" _ c0 eq_refl).
    change (String.length ("" +:+ "let(")) with (String.length a1). rewrite Hlet1.
    change (mbind ?f (Done ?a)) with (f a). cbv beta.
    rewrite push_expression_seek, (eat_at ")" a10 "" (push_expression outer cA) E10 eq_refl).
    unfold c9. rewrite L11, str_length_app. simpl (String.length ")").
    replace (String.length a10 + 1) with (S (String.length a10)) by lia. reflexivity. }
  rewrite (parse_expression_value (S (S (S (S f0)))) c0 c9 Hpv);
    rewrite (skip_spaces_eos c9 He9);
    [|unfold at_expression_end; rewrite He9; reflexivity|apply Nat.le_refl].
  change (mbind ?f (Done ?a)) with (f a). cbv beta.
  change (failed (operator_mark (_operator_mark c0) c9)) with false.
  simpl (false && _). cbv iota.
  rewrite (get_result_single _ outer); [|exact He9|reflexivity|reflexivity|reflexivity].
  change (top_params (operator_mark (_operator_mark c0) c9)) with q.
  rewrite (represents_extract _ _ Hrep). reflexivity.
Qed.

End Leaves.

Lemma X10_witness :
  ∃ c', parse_expression (parse_fuel "   ") (ParseContext_new ImplicitParams "   " None)
        = Done c'
        ∧ _failure c' = "missing value" ∧ _expression_stack c' = [] ∧ _pos c' = 3.
Proof.
  destruct (X10_missing_value_at_end_of_input (parse_fuel "   ")
              (ParseContext_new ImplicitParams "   " None))
    as (c' & E & _ & Hf & He & _ & _ & Hp & _);
    [unfold parse_fuel; simpl; lia|discriminate|reflexivity|].
  exists c'. split; [exact E|]. split; [exact Hf|]. split; [exact He|exact Hp].
Defined.

Lemma X11_witness :
  end_byte = NUL ∧ str_forall isspace "  " = true
  ∧ parse "  " = Done (mkFunction (nodes.Error "[  ]...[missing value]...[]") []).
Proof.
  split; [reflexivity|]. split; [reflexivity|].
  apply (proj1 (@X11_blank_expression externals "  " extractor_none eq_refl eq_refl)).
Defined.

Lemma X12_witness :
  end_byte = NUL ∧ parse "rank_1" = Done (mkFunction (nodes.Symbol 0) ["rank_1"]).
Proof.
  split; [reflexivity|].
  apply (@X12_bare_identifier externals "r" "ank_1"); reflexivity.
Defined.

Lemma X13_witness :
  end_byte = NUL
  ∧ parse_params ["x"; "y"] "y" = Done (mkFunction (nodes.Symbol 1) ["x"; "y"])
  ∧ parse_params ["x"; "y"] "z"
    = Done (mkFunction (nodes.Error "[z]...[unknown symbol: 'z']...[]") ["x"; "y"]).
Proof.
  assert (Hnd : NoDup ["x"; "y"]).
  { apply NoDup_cons. split; [|apply NoDup_singleton].
    intros Hin. apply list_elem_of_singleton in Hin. discriminate. }
  split; [reflexivity|]. split.
  - apply (proj1 (@X13_bare_identifier_explicit externals ["x"; "y"] "y" "" eq_refl Hnd eq_refl
                    eq_refl eq_refl eq_refl) 1).
    reflexivity.
  - apply (proj2 (@X13_bare_identifier_explicit externals ["x"; "y"] "z" "" eq_refl Hnd eq_refl
                    eq_refl eq_refl eq_refl)).
    intros Hin. apply elem_of_cons in Hin as [Hx|Hin]; [discriminate|].
    apply list_elem_of_singleton in Hin. discriminate.
Defined.

Lemma X14_witness :
  end_byte = NUL ∧ parse "42" = Done (mkFunction (nodes.Number (mkDecimal 42 0)) []).
Proof.
  split; [reflexivity|].
  exact (@X14_digits externals "4" "2" eq_refl eq_refl eq_refl).
Defined.

Lemma X15_witness :
  end_byte = NUL
  ∧ parse (String "034" ("a b" +:+ String "034" ""))
    = Done (mkFunction (nodes.String "a b") []).
Proof.
  split; [reflexivity|].
  apply (@X15_plain_string_literal externals "a b"); reflexivity.
Defined.

Lemma X16_witness :
  let plus := mkOperator "+" 101 LEFT in
  let times := mkOperator "*" 102 LEFT in
  let a := nodes.Symbol 0 in
  let b := nodes.Symbol 1 in
  let d := nodes.Symbol 2 in
  let c := set_operator_stack [plus]
             (set_expression_stack [b; a] (ParseContext_new ImplicitParams "" None)) in
  ∃ c', (c2 ← push_operator times c;
         apply_operators (num_operators (push_expression d c2)) (push_expression d c2))
        = Done c'
        ∧ _expression_stack c' = [nodes.Operator plus a (nodes.Operator times b d)].
Proof.
  intros plus times a b d c.
  destruct (X16_do_before_decides_grouping c plus times a b d [] [] eq_refl eq_refl eq_refl)
    as (c' & E & He & _).
  exists c'. split; [exact E|exact He].
Defined.

Lemma X17_witness :
  get_result (eat ")" (set_cursor 2 NUL (ParseContext_new ImplicitParams "(a" None)))
  = nodes.Error "[(a]...[expected ')', but got ']...[]".
Proof.
  apply (X17_expected_byte_at_end_of_input ")"
           (set_cursor 2 NUL (ParseContext_new ImplicitParams "(a" None)));
    reflexivity.
Defined.



